(** * httpsim: the step/flow execution engine of gee-m/httpsim

    A shallow embedding of [step.go] and [flows.go] and the properties
    of the extraction engine, the substitution layer, the flow
    orchestrator and flow cloning.

    Conventions.
    - A Go [string] and a Go [[]byte] are a [string] (a list of bytes).
    - A Go [int] is a [Z]; a loop counter or an occurrence index that the
      code only ever counts up from [0] is a [nat].
    - A Go [error] result is an [option error] ([None] is [nil]).
    - A call that can panic returns an [Outcome]. *)

From Stdlib Require Import ZArith String Ascii List Lia Bool.
From stdpp Require Import base option list gmap strings pretty.

Local Open Scope string_scope.
Local Open Scope list_scope.
Local Open Scope Z_scope.

(** ** Outcomes of a call *)

(** What a Go call does: it returns, or it panics.  [Stuck] is the
    model's own third case, which no run of the program shows: a loop that
    was given too few iterations, or a reference that the heap does not
    hold.  [Extract] never gets there, nor does [CompleteCopy] on a flow
    that the heap holds. *)
Inductive Outcome (A : Type) : Type :=
| Returns (a : A)
| Panics
| Stuck.
Arguments Returns {A} a.
Arguments Panics {A}.
Arguments Stuck {A}.

#[global] Instance Outcome_ret : MRet Outcome := fun _ a => Returns a.
#[global] Instance Outcome_bind : MBind Outcome := fun _ _ k m =>
  match m with
  | Returns a => k a
  | Panics => Panics
  | Stuck => Stuck
  end.

(** ** Errors *)

(** The error values of the package: [errors.New] and [fmt.Errorf] make an
    [errorString]; [NewMVE] makes a [MissingValueError]; an error made by
    a library ([text/template], [net/http], [compress/gzip], [io],
    [regexp], [cookiejar]) is a [LibError] with its message. *)
Inductive error : Type :=
| errorString (msg : string)
| MissingValueError (Prepend MissingValue : string)
| LibError (msg : string).

(** [func (e *MissingValueError) Error() string], and [Error()] of the
    other error values. *)
Definition Error (e : error) : string :=
  match e with
  | errorString msg => msg
  | MissingValueError Prepend MissingValue =>
      if negb (Prepend =? "")%string
      then Prepend +:+ " missing or empty key value: " +:+ MissingValue
      else "Missing or empty key value: " +:+ MissingValue
  | LibError msg => msg
  end.

Definition NewMVE (pre val : string) : error := MissingValueError pre val.

(** ** Strings *)

Definition len (s : string) : Z := Z.of_nat (String.length s).

(** [strings.Index(s, substr)]: the index of the first instance of
    [substr] in [s], or [-1]. *)
Definition strings_Index (s substr : string) : Z :=
  match String.index 0 substr s with
  | Some n => Z.of_nat n
  | None => -1
  end.

Fixpoint string_drop (n : nat) (s : string) : string :=
  match n, s with
  | O, _ => s
  | S n', String _ s' => string_drop n' s'
  | S _, EmptyString => EmptyString
  end.

(** The slice expression [s[k:]]: a run-time panic unless [0 <= k <= len(s)]. *)
Definition sliceFrom (s : string) (k : Z) : Outcome string :=
  if (k <? 0) || (len s <? k) then Panics
  else Returns (string_drop (Z.to_nat k) s).

(** [strings.Count(s, sep)] for a non-empty [sep]: the number of
    non-overlapping instances of [sep] in [s]. *)
Fixpoint strings_Count_go (fuel : nat) (s sep : string) : Z :=
  match fuel with
  | O => 0
  | S fuel' =>
      match String.index 0 sep s with
      | None => 0
      | Some n => 1 + strings_Count_go fuel' (string_drop (n + String.length sep) s) sep
      end
  end.

Definition strings_Count (s sep : string) : Z :=
  strings_Count_go (String.length s) s sep.

(** Modelled from the spec: [gstrings.StringBetween] of the package
    [github.com/gee-m/go-helpers], which [stringBetweenN] calls and whose
    source is not part of this repository.  It is "the first string between
    afterthis and beforethis" (the comment on [Extractable]) and "the
    substring strictly between the match of AfterThis and the following
    BeforeThis" (the spec, 4.1): the text after the first [after] and before
    the first [before] that follows it. *)
Definition StringBetween (str after before : string) : bool * string :=
  match String.index 0 after str with
  | None => (false, "")
  | Some i =>
      let rest := string_drop (i + String.length after) str in
      match String.index 0 before rest with
      | None => (false, "")
      | Some j => (true, String.substring 0 j rest)
      end
  end.

(** ** The extraction engine ([step.go]) *)

(** [func stringBetweenN(body, bef, aft string, occ int) (found bool, str string)].
    [occ] is the loop counter of [Extract], counted up from [0]. *)
Fixpoint stringBetweenN (body bef aft : string) (occ : nat) : Outcome (bool * string) :=
  match occ with
  | O => Returns (StringBetween body bef aft)
  | S occ' =>
      let befIndex := strings_Index body bef in
      if befIndex =? -1 then Returns (false, "")
      else
        rest ← sliceFrom body (befIndex + len bef + 1);
        stringBetweenN rest bef aft occ'
  end.

(** A value of the value store, a Go [interface{}]: a string, or a value
    of any other dynamic type, kept as the text that [fmt] prints for it. *)
Inductive Value : Type :=
| VString (s : string)
| VOther (shown : string).

(** [v == ""] for an [interface{}] value [v]. *)
Definition isEmptyString (v : Value) : bool :=
  match v with
  | VString s => (s =? "")%string
  | VOther _ => false
  end.

(** [type Extractable struct].  [Again] is a pointer to another
    [Extractable] ([None] is [nil]); the chain is finite. *)
#[warnings="-register-all"]
Inductive Extractable : Type := mkExtractable {
  AfterThis : string;
  BeforeThis : string;
  Name : string;
  Iterate : bool;
  MaxLength : Z;
  MinLength : Z;
  MatchRegexp : string;
  IgnoreNotFound : bool;
  Again : option Extractable
}.

(** The assignment [e.MatchRegexp = p] on the receiver's copy. *)
Definition setMatchRegexp (e : Extractable) (p : string) : Extractable :=
  mkExtractable (AfterThis e) (BeforeThis e) (Name e) (Iterate e)
    (MaxLength e) (MinLength e) p (IgnoreNotFound e) (Again e).

(** The package [regexp] of the Go library, by its two operations:
    compiling a pattern and matching a compiled pattern against bytes. *)
Class RegexpLib : Type := {
  Regexp : Type;
  regexp_Compile : string -> Regexp + error;
  Regexp_Match : Regexp -> string -> bool
}.

(** [func Match(pattern string, b []byte) (matched bool, err error)] of
    [regexp]: [re, err := Compile(pattern); if err != nil { return false,
    err }; return re.Match(b), nil]. *)
Definition regexp_Match `{RegexpLib} (pattern b : string) : bool * option error :=
  match regexp_Compile pattern with
  | inr err => (false, Some err)
  | inl re => (Regexp_Match re b, None)
  end.

(** [s[0]] and [s[len(s)-1]] of a non-empty string. *)
Definition firstByte (s : string) : option ascii :=
  match s with
  | EmptyString => None
  | String c _ => Some c
  end.

Fixpoint lastByte (s : string) : option ascii :=
  match s with
  | EmptyString => None
  | String c EmptyString => Some c
  | String _ s' => lastByte s'
  end.

Section Extraction.
Context `{RegexpLib}.

(** What [Extract] returns: [(name, value string, err error)]. *)
Definition Extracted : Type := string * string * option error.

(** Lines 77-96 of [step.go], "Check conditions": the receiver's copy [e]
    after the check (its [MatchRegexp] gets anchored) and the [err] the
    check leaves. *)
Definition checkConditions (e : Extractable) (bet : string) : Extractable * option error :=
  if negb (MaxLength e =? -1) && (MaxLength e <? len bet) then
    (e, Some (errorString
      ("max length of " +:+ pretty (MaxLength e) +:+ " reached: " +:+ bet)))
  else if negb (MinLength e =? -1) && (len bet <? MinLength e) then
    (e, Some (errorString
      ("min length of " +:+ pretty (MinLength e) +:+ " reached: " +:+ bet)))
  else if negb (MatchRegexp e =? "")%string then
    let e :=
      if negb (bool_decide (firstByte (MatchRegexp e) = Some "^"%char))
      then setMatchRegexp e ("^" +:+ MatchRegexp e) else e in
    let e :=
      if negb (bool_decide (lastByte (MatchRegexp e) = Some "$"%char))
      then setMatchRegexp e (MatchRegexp e +:+ "$") else e in
    let '(mat, err2) := regexp_Match (MatchRegexp e) bet in
    let err : option error := None in
    if bool_decide (err <> None) then (e, err2)
    else if negb mat then
      (e, Some (errorString
        ("regex '" +:+ MatchRegexp e +:+ "' not matched: " +:+ bet)))
    else (e, None)
  else (e, None).

(** The loop [for i := 0; ; i++] of [Extract], from the iteration [i] on,
    for at most [fuel] iterations.  [again] is the method value
    [e.Again.Extract] ([None] when [e.Again] is [nil]). *)
Fixpoint ExtractLoop (fuel : nat) (again : option (string -> Outcome Extracted))
    (e : Extractable) (body : string) (i : nat) : Outcome Extracted :=
  match fuel with
  | O => Stuck
  | S fuel' =>
      '(found, bet) ← stringBetweenN body (AfterThis e) (BeforeThis e) i;
      if negb found then
        if IgnoreNotFound e then Returns (Name e, "", None)
        else Returns (Name e, "", Some (errorString "not found"))
      else
        let '(e, err) := checkConditions e bet in
        match err with
        | Some err =>
            if Iterate e then ExtractLoop fuel' again e body (S i)
            else if IgnoreNotFound e then Returns (Name e, "", None)
            else Returns (Name e, "", Some err)
        | None =>
            match again with
            | Some extractAgain => extractAgain bet
            | None => Returns (Name e, bet, None)
            end
        end
  end.

(** The loop from the iteration [i] on.  An occurrence is found at no index
    beyond the length of the body ([stringBetweenN_found_le]), so the
    iterations [i .. len(body) + 1] are all there can be. *)
Definition ExtractFrom (again : option (string -> Outcome Extracted))
    (e : Extractable) (body : string) (i : nat) : Outcome Extracted :=
  ExtractLoop (S (S (String.length body) - i)) again e body i.

(** [func (e Extractable) Extract(body string, v map[string]interface{})
    (string, string, error)]. *)
Fixpoint Extract (e : Extractable) (body : string) (v : option (gmap string Value))
    {struct e} : Outcome Extracted :=
  ExtractFrom
    (match e with
     | mkExtractable _ _ _ _ _ _ _ _ (Some a) => Some (fun bet => Extract a bet v)
     | mkExtractable _ _ _ _ _ _ _ _ None => None
     end) e body 0.

End Extraction.

(** ** A regular-expression library for the examples

    The theorems on [Extract] hold for every [RegexpLib].  The examples need
    one to run: this is the fragment of Go's [regexp] syntax with literals,
    [.], classes [[a-z0-9]] and [[^...]], the escapes of a punctuation
    byte, groups, [|], [*], [+], [?] and the anchors [^] and [$] (start and
    end of the text, as without the [m] flag).  A pattern outside the
    fragment is refused by [compileRe]. *)
Module Re.

Inductive re : Type :=
| Eps
| Chr (c : ascii)
| Any
| Class (negated : bool) (ranges : list (ascii * ascii))
| Bol
| Eol
| Cat (a b : re)
| Alt (a b : re)
| Star (a : re).

Definition inRange (c : ascii) (r : ascii * ascii) : bool :=
  (nat_of_ascii (fst r) <=? nat_of_ascii c)%nat && (nat_of_ascii c <=? nat_of_ascii (snd r))%nat.

(** [matchK r bol s k]: some prefix of [s] matches [r] and [k] accepts what
    is left; [bol] says that [s] starts at the start of the text. *)
Fixpoint matchK (r : re) (bol : bool) (s : string) (k : bool -> string -> bool) : bool :=
  match r with
  | Eps => k bol s
  | Chr c =>
      match s with
      | String c' s' => if Ascii.eqb c c' then k false s' else false
      | EmptyString => false
      end
  | Any =>
      match s with
      | String c' s' => if Ascii.eqb c' (ascii_of_nat 10) then false else k false s'
      | EmptyString => false
      end
  | Class negated ranges =>
      match s with
      | String c' s' =>
          if xorb negated (existsb (inRange c') ranges) then k false s' else false
      | EmptyString => false
      end
  | Bol => bol && k bol s
  | Eol => match s with EmptyString => k bol s | _ => false end
  | Cat a b => matchK a bol s (fun bol' s' => matchK b bol' s' k)
  | Alt a b => matchK a bol s k || matchK b bol s k
  | Star a =>
      (fix star (fuel : nat) (bol : bool) (s : string) : bool :=
         k bol s ||
         match fuel with
         | O => false
         | S fuel' =>
             matchK a bol s (fun bol' s' =>
               (String.length s' <? String.length s)%nat && star fuel' bol' s')
         end) (String.length s) bol s
  end.

(** The method [Match] of a compiled pattern: it matches somewhere in the text. *)
Fixpoint search (r : re) (bol : bool) (s : string) : bool :=
  matchK r bol s (fun _ _ => true) ||
  match s with
  | String _ s' => search r false s'
  | EmptyString => false
  end.

Definition parseError (why pattern : string) : error :=
  LibError ("error parsing regexp: " +:+ why +:+ ": `" +:+ pattern +:+ "`").

Definition isRepeat (c : ascii) : bool :=
  Ascii.eqb c "*" || Ascii.eqb c "+" || Ascii.eqb c "?".

Definition isPunct (c : ascii) : bool :=
  let n := nat_of_ascii c in
  ((33 <=? n) && (n <=? 47) || (58 <=? n) && (n <=? 64) ||
   (91 <=? n) && (n <=? 96) || (123 <=? n) && (n <=? 126))%nat.

(** The repetition operators after an atom: one of [*], [+], [?], then
    an optional [?] (prefer fewer, which changes no match); a second
    operator is Go's "invalid nested repetition operator". *)
Definition postfix (a : re) (s : string) : option (re * string) :=
  match s with
  | String c s' =>
      if isRepeat c then
        let a' := if Ascii.eqb c "*" then Star a
                  else if Ascii.eqb c "+" then Cat a (Star a)
                  else Alt a Eps in
        let s'' := match s' with
                   | String "?" t => t
                   | _ => s'
                   end in
        match s'' with
        | String c2 _ => if isRepeat c2 then None else Some (a', s'')
        | EmptyString => Some (a', s'')
        end
      else Some (a, s)
  | EmptyString => Some (a, s)
  end.

(** The items of a class up to its closing bracket. *)
Fixpoint parseClass (fuel : nat) (s : string) (acc : list (ascii * ascii))
    : option (list (ascii * ascii) * string) :=
  match fuel with
  | O => None
  | S fuel' =>
      match s with
      | EmptyString => None
      | String "]" rest => Some (acc, rest)
      | String "\" (String c rest) =>
          if isPunct c then parseClass fuel' rest (acc ++ [(c, c)]) else None
      | String lo (String "-" (String hi rest)) =>
          if Ascii.eqb hi "]" then parseClass fuel' (String "-" (String hi rest)) (acc ++ [(lo, lo)])
          else parseClass fuel' rest (acc ++ [(lo, hi)])
      | String c rest => parseClass fuel' rest (acc ++ [(c, c)])
      end
  end.

Definition catOf (atoms : list re) : re := fold_right (fun a r => Cat a r) Eps atoms.

Definition altOf (alts : list re) (last : re) : re := fold_right Alt last alts.

(** An alternation up to a closing parenthesis or the end of the pattern:
    [alts] are the alternatives read so far, [cur] the atoms of the one
    being read.  The result is the expression and the text not yet read. *)
Fixpoint parseAlt (fuel : nat) (pattern s : string) (alts cur : list re)
    : error + (re * string) :=
  match fuel with
  | O => inl (parseError "too long for this model" pattern)
  | S fuel' =>
      let atom (a : re) (rest : string) :=
        match postfix a rest with
        | Some (a', rest') => parseAlt fuel' pattern rest' alts (cur ++ [a'])
        | None => inl (parseError "invalid nested repetition operator" pattern)
        end in
      match s with
      | EmptyString => inr (altOf alts (catOf cur), s)
      | String ")" _ => inr (altOf alts (catOf cur), s)
      | String "|" rest => parseAlt fuel' pattern rest (alts ++ [catOf cur]) []
      | String "(" rest =>
          match parseAlt fuel' pattern rest [] [] with
          | inl err => inl err
          | inr (a, String ")" rest') => atom a rest'
          | inr _ => inl (parseError "missing closing )" pattern)
          end
      | String "[" rest =>
          let '(negated, rest) :=
            match rest with
            | String "^" t => (true, t)
            | _ => (false, rest)
            end in
          let '(first, rest) :=
            match rest with
            | String "]" t => ([("]"%char, "]"%char)], t)
            | _ => ([], rest)
            end in
          match parseClass (S (String.length rest)) rest first with
          | Some (ranges, rest') => atom (Class negated ranges) rest'
          | None => inl (parseError "missing closing ]" pattern)
          end
      | String "\" (String c rest) =>
          if isPunct c then atom (Chr c) rest
          else inl (parseError "escape outside this model" pattern)
      | String "\" EmptyString =>
          inl (parseError "trailing backslash at end of expression" pattern)
      | String "." rest => atom Any rest
      | String "^" rest => atom Bol rest
      | String "$" rest => atom Eol rest
      | String "{" _ => inl (parseError "counted repetition outside this model" pattern)
      | String c rest =>
          if isRepeat c then inl (parseError "missing argument to repetition operator" pattern)
          else atom (Chr c) rest
      end
  end.

(** [regexp.Compile] on the fragment. *)
Definition compileRe (pattern : string) : re + error :=
  match parseAlt (S (String.length pattern)) pattern pattern [] [] with
  | inl err => inr err
  | inr (r, EmptyString) => inl r
  | inr (_, String _ _) => inr (parseError "unexpected )" pattern)
  end.

Definition lib : RegexpLib :=
  {| Regexp := re; regexp_Compile := compileRe; Regexp_Match := fun r b => search r true b |}.

End Re.

(** ** Requests, responses and steps ([step.go]) *)

(** A Go [map[string][]string] that the code ranges over ([http.Header],
    [url.Values]): its entries in the order in which [range] visits them on
    this run.  Keys are distinct. *)
Definition MultiMap : Type := list (string * list string).

Fixpoint mm_get {V : Type} (m : list (string * V)) (k : string) : option V :=
  match m with
  | [] => None
  | (k', vs) :: m' => if (k' =? k)%string then Some vs else mm_get m' k
  end.

(** [m[k] = vs]. *)
Fixpoint mm_set {V : Type} (m : list (string * V)) (k : string) (vs : V)
    : list (string * V) :=
  match m with
  | [] => [(k, vs)]
  | (k', vs') :: m' =>
      if (k' =? k)%string then (k, vs) :: m' else (k', vs') :: mm_set m' k vs
  end.

(** [v[len(v)-1]]: an index out of range when [v] is empty. *)
Definition lastValue (v : list string) : Outcome string :=
  match last v with
  | Some x => Returns x
  | None => Panics
  end.

(** The dynamic type of [Request.Body], an [interface{}]: [nil], a
    [string], a [[]byte], a [url.Values], or any other type. *)
Inductive body : Type :=
| NilBody
| StringBody (t : string)
| BytesBody (t : string)
| ValuesBody (t : MultiMap)
| OtherBody.

(** [v != nil] for the body [v]. *)
Definition notNil (v : body) : bool :=
  match v with
  | NilBody => false
  | _ => true
  end.

(** [type Request struct]. *)
Record Request : Type := mkRequest {
  URL : string;
  Method : string;
  Header : MultiMap;
  Body : body;
  IgnoreRedirects : bool
}.

(** The request that [http.NewRequest] builds and the client sends. *)
Record HTTPRequest : Type := mkHTTPRequest {
  req_Method : string;
  req_URL : string;
  req_Header : MultiMap;
  req_Body : string
}.

(** An [*http.Response]: status code, header, and the body stream. *)
Record HTTPResponse (Stream : Type) : Type := mkHTTPResponse {
  StatusCode : Z;
  resp_Header : MultiMap;
  resp_Body : Stream
}.
Arguments mkHTTPResponse {Stream}.
Arguments StatusCode {Stream}.
Arguments resp_Header {Stream}.
Arguments resp_Body {Stream}.

(** The libraries that the package calls, as the operations it uses.
    [World] is everything outside the program that a request can read or
    change (the servers, the cookie jars' contents). *)
Class Libs : Type := {
  libs_regexp :: RegexpLib;
  (* text/template: [template.New(name).Parse(text)], [tpl.Execute(&buffer, vals)] *)
  Template : Type;
  template_Parse : string -> string -> Template + error;
  template_Execute : Template -> option (gmap string Value) -> string + error;
  (* net/textproto, net/url, fmt *)
  CanonicalMIMEHeaderKey : string -> string;
  Values_Encode : MultiMap -> string;
  fmt_Sprint_Header : MultiMap -> string;
  (* compress/gzip, io/ioutil *)
  Stream : Type;
  gzip_NewReader : Stream -> Stream + error;
  ioutil_ReadAll : Stream -> string * option error;
  (* net/http, net/http/cookiejar *)
  World : Type;
  Jar : Type;
  cookiejar_New : Jar + error;
  http_NewRequest : string -> string -> option error;
  Client_Do : World -> Jar -> bool -> HTTPRequest ->
              World * (HTTPResponse Stream + error)
}.

(** [type Extracter interface]: a value with the method [Extract].  An
    implementation is a function of the body and of the values it is
    given; it does not write the map. *)
Record Extracter : Type := mkExtracter {
  Extracter_Extract : string -> option (gmap string Value) -> Outcome Extracted
}.

(** [Extractable] implements [Extracter]. *)
Definition Extractable_Extracter `{RegexpLib} (e : Extractable) : Extracter :=
  {| Extracter_Extract := Extract e |}.

Section Steps.
Context `{Libs}.

(** [type Response struct]. *)
Record Response : Type := mkResponse {
  Raw : HTTPResponse Stream;
  Response_Body : string;
  Response_Header : MultiMap
}.

(** [type Step struct].  [PostHook] is [None] when it is [nil]; a hook is
    a function of its three arguments. *)
Record Step : Type := mkStep {
  Step_Name : string;
  Step_Request : Request;
  Step_Response : option Response;
  KeysInput : list string;
  KeysOutput : list Extracter;
  PostHook : option (Z -> MultiMap -> string -> option error)
}.

Definition setRequest (s : Step) (r : Request) : Step :=
  mkStep (Step_Name s) r (Step_Response s) (KeysInput s) (KeysOutput s) (PostHook s).

Definition setResponse (s : Step) (r : option Response) : Step :=
  mkStep (Step_Name s) (Step_Request s) r (KeysInput s) (KeysOutput s) (PostHook s).

Definition setBody (r : Request) (b : body) : Request :=
  mkRequest (URL r) (Method r) (Header r) b (IgnoreRedirects r).

Definition setHeader (r : Request) (h : MultiMap) : Request :=
  mkRequest (URL r) (Method r) h (Body r) (IgnoreRedirects r).

Definition setURL (r : Request) (u : string) : Request :=
  mkRequest u (Method r) (Header r) (Body r) (IgnoreRedirects r).

(** [h.Get(key)] and [h.Set(key, value)] of [http.Header]. *)
Definition Header_Get (h : MultiMap) (key : string) : string :=
  match mm_get h (CanonicalMIMEHeaderKey key) with
  | Some (v :: _) => v
  | _ => ""
  end.

Definition Header_Set (h : MultiMap) (key value : string) : MultiMap :=
  mm_set h (CanonicalMIMEHeaderKey key) [value].

(** [func countBody(v interface{}, c string) int]. *)
Fixpoint countValues (t : MultiMap) (c : string) (total : Z) : Outcome Z :=
  match t with
  | [] => Returns total
  | (k, v) :: t' =>
      let total := total + strings_Count k c in
      x ← lastValue v;
      countValues t' c (total + strings_Count x c)
  end.

Definition countBody (v : body) (c : string) : Outcome Z :=
  match v with
  | BytesBody t => Returns (strings_Count t c)
  | StringBody t => Returns (strings_Count t c)
  | ValuesBody t => countValues t c 0
  | NilBody => Returns 0
  | OtherBody => Panics
  end.

(** [func (r *Request) Do(cl http.Client)], which returns a [*http.Response] and an [error].  The
    client [cl] is the jar it was made with; its [CheckRedirect] is set on
    the copy that [Do] receives.  The result tells, besides, the request
    that went to the client, if one did. *)
Definition Do (r : Request) (jar : Jar) (w : World)
    : World * option HTTPRequest * Outcome (HTTPResponse Stream + error) :=
  let send (bod : string) :=
    match http_NewRequest (Method r) (URL r) with
    | Some err => (w, None, Returns (inr err))
    | None =>
        let req := mkHTTPRequest (Method r) (URL r) (Header r) bod in
        let '(w', res) := Client_Do w jar (IgnoreRedirects r) req in
        (w', Some req, Returns res)
    end in
  match Body r with
  | NilBody => send ""
  | BytesBody bod => send bod
  | StringBody _ | ValuesBody _ | OtherBody => (w, None, Panics)
  end.

Definition stepError (stepNb : Z) (name msg : string) : error :=
  errorString ("Step " +:+ pretty stepNb +:+ ".'" +:+ name +:+ "' " +:+ msg).

(** [func (s *Step) SanityCheck(stepNb int) error]. *)
Definition SanityCheck (s : Step) (stepNb : Z) : Outcome (option error) :=
  n ← countBody (Body (Step_Request s)) "{{";
  if n + strings_Count
           (fmt_Sprint_Header (Header (Step_Request s)) +:+ URL (Step_Request s)) "{{"
     <? Z.of_nat (length (KeysInput s))
  then Returns (Some (stepError stepNb (Step_Name s)
                        "request appears to not contain enough replacements"))
  else Returns None.

(** [func replaceInBytes(vals map[string]interface{}, bod []byte) ([]byte, error)]. *)
Definition replaceInBytes (vals : option (gmap string Value)) (bod : string)
    : string + error :=
  match template_Parse "replacement" bod with
  | inr err => inr err
  | inl tpl =>
      match template_Execute tpl vals with
      | inr err => inr err
      | inl output =>
          if (output =? bod)%string
          then inr (errorString "didn't replace anything in request, but should have")
          else inl output
      end
  end.

(** [func replaceInString(vals map[string]interface{}, str string) (string, error)]. *)
Definition replaceInString (vals : option (gmap string Value)) (str : string)
    : string + error :=
  match template_Parse "replacement" str with
  | inr err => inr err
  | inl tpl => template_Execute tpl vals
  end.

(** The [case url.Values] of [ReplaceInBody]: the loop over the entries of
    the form, with the map [tmp] and the bytes [bod] it leaves. *)
Fixpoint replaceInValues (vals : option (gmap string Value)) (stepNb : Z) (name : string)
    (t : MultiMap) (tmp : MultiMap) (bod : option string)
    : Outcome (option string * option error) :=
  match t with
  | [] => Returns (bod, None)
  | (k, v) :: t' =>
      match replaceInString vals k with
      | inr err => Returns (bod, Some (stepError stepNb name (Error err)))
      | inl newK =>
          x ← lastValue v;
          match replaceInString vals x with
          | inr err => Returns (bod, Some (stepError stepNb name (Error err)))
          | inl newV =>
              let tmp := mm_set tmp newK [newV] in
              replaceInValues vals stepNb name t' tmp (Some (Values_Encode tmp))
          end
      end
  end.

(** [func (s *Step) ReplaceInBody(vals map[string]interface{}, stepNb int) error]:
    the step as the call leaves it, and the error. *)
Definition ReplaceInBody (s : Step) (vals : option (gmap string Value)) (stepNb : Z)
    : Outcome (Step * option error) :=
  let finish (bod : option string) :=
    match bod with
    | Some b => Returns (setRequest s (setBody (Step_Request s) (BytesBody b)), None)
    | None => Returns (s, None)
    end in
  if negb (length (KeysInput s) =? 0)%nat
     && notNil (Body (Step_Request s)) then
    match Body (Step_Request s) with
    | StringBody t | BytesBody t =>
        match replaceInBytes vals t with
        | inr err => Returns (s, Some (stepError stepNb (Step_Name s) (Error err)))
        | inl bod => finish (Some bod)
        end
    | ValuesBody t =>
        '(bod, err) ← replaceInValues vals stepNb (Step_Name s) t [] None;
        match err with
        | Some err => Returns (s, Some err)
        | None => finish bod
        end
    | NilBody => Returns (s, None)
    | OtherBody => Panics
    end
  else finish None.

(** [func (s *Step) ReplaceInHeader(vals map[string]interface{}, stepNb int) error]:
    the loop over the keys that the header had when the loop began, with
    the header as the call leaves it. *)
Fixpoint replaceInHeaderKeys (name : string) (vals : option (gmap string Value))
    (keys : list string) (h : MultiMap) : MultiMap * option error :=
  match keys with
  | [] => (h, None)
  | k :: keys' =>
      match template_Parse name (Header_Get h k) with
      | inr err => (h, Some err)
      | inl tpl =>
          match template_Execute tpl vals with
          | inr err => (h, Some err)
          | inl output => replaceInHeaderKeys name vals keys' (Header_Set h k output)
          end
      end
  end.

Definition ReplaceInHeader (s : Step) (vals : option (gmap string Value)) (stepNb : Z)
    : Step * option error :=
  let '(h, err) :=
    replaceInHeaderKeys (Step_Name s) vals (map fst (Header (Step_Request s)))
      (Header (Step_Request s)) in
  (setRequest s (setHeader (Step_Request s) h), err).

(** [func (s *Step) ReplaceInURL(vals map[string]interface{}, stepNB int) error]. *)
Definition ReplaceInURL (s : Step) (vals : option (gmap string Value)) (stepNB : Z)
    : Step * option error :=
  match template_Parse (Step_Name s) (URL (Step_Request s)) with
  | inr err => (s, Some err)
  | inl tpl =>
      match template_Execute tpl vals with
      | inr err => (s, Some err)
      | inl output => (setRequest s (setURL (Step_Request s) output), None)
      end
  end.

End Steps.

(** ** Flows ([flows.go]) *)

Section Flows.
Context `{Libs}.

(** [type Flow struct].  [Values] and [CookieJar] are [None] when [nil]. *)
Record Flow : Type := mkFlow {
  RequiredValues : list string;
  Values : option (gmap string Value);
  Steps : list Step;
  CookieJar : option Jar
}.

Definition setValues (f : Flow) (v : option (gmap string Value)) : Flow :=
  mkFlow (RequiredValues f) v (Steps f) (CookieJar f).

Definition setSteps (f : Flow) (l : list Step) : Flow :=
  mkFlow (RequiredValues f) (Values f) l (CookieJar f).

Definition setCookieJar (f : Flow) (j : option Jar) : Flow :=
  mkFlow (RequiredValues f) (Values f) (Steps f) j.

(** [v, ok := values[k]]: reading a [nil] map finds nothing. *)
Definition lookupValue (values : option (gmap string Value)) (k : string)
    : option Value :=
  match values with
  | Some m => m !! k
  | None => None
  end.

(** The loop [for _, k := range keys { if v, ok := values[k]; !ok || v ==
    "" { return ... k } }]: the key at which it returns, if it does. *)
Fixpoint missingKey (values : option (gmap string Value)) (keys : list string)
    : option string :=
  match keys with
  | [] => None
  | k :: keys' =>
      match lookupValue values k with
      | Some v => if isEmptyString v then Some k else missingKey values keys'
      | None => Some k
      end
  end.

(** A run of [Execute]: the flow as it stands, the world, and the requests
    that went to the HTTP client so far, oldest first. *)
Record Exec : Type := mkExec {
  flow : Flow;
  world : World;
  sent : list HTTPRequest
}.

(** The loop "Extract important values (KeysOutput)" of step [i]: the value
    store as the loop leaves it, and the error it returns with, if any. *)
Fixpoint extractAll (i : Z) (name body : string) (outs : list Extracter)
    (values : option (gmap string Value))
    : option (gmap string Value) * Outcome (option error) :=
  match outs with
  | [] => (values, Returns None)
  | extract :: outs' =>
      match Extracter_Extract extract body values with
      | Panics => (values, Panics)
      | Stuck => (values, Stuck)
      | Returns (n, s, Some err) =>
          (values, Returns (Some (errorString
             ("Step " +:+ pretty i +:+ ".'" +:+ name +:+
              "' failed because couldn't extract '" +:+ n +:+ "': " +:+ Error err))))
      | Returns (n, s, None) =>
          if (n =? "")%string then
            (values, Returns (Some (errorString
               ("Step " +:+ pretty i +:+ ".'" +:+ name +:+
                "' failed because extracted value has no index " +:+ s))))
          else
            match values with
            | None => (values, Panics)
            | Some m => extractAll i name body outs' (Some (<[n := VString s]> m))
            end
      end
  end.

(** One iteration of the loop "Go through steps" of [Execute]: [step] is
    the copy of [f.Steps[i]] that [range] made.  The result is [Returns
    None] when the iteration ends and the loop goes on, and [Returns (Some
    err)] when [Execute] returns [err].

    A step holds its header by value here, and the request that goes out
    holds the header as it is when [Do] is called.  In the code the header
    is a map, which [ReplaceInHeader] writes in place: the writes of the
    iteration [i] show in [f.Steps[i]], which the model updates, and they
    would show in every other step that holds the same map, which the
    model does not follow.  So each step is taken to hold a header map of
    its own, as the steps of a [CompleteCopy] do; what the headers of a
    flow hold after a run is stated under that assumption only. *)
Definition runStep (jar : Jar) (i : nat) (step : Step) (st : Exec)
    : Exec * Outcome (option error) :=
  let f := flow st in
  let name := Step_Name step in
  (* Verify all needed values for this step are here *)
  match missingKey (Values f) (KeysInput step) with
  | Some k =>
      (st, Returns (Some (NewMVE
         ("Step " +:+ pretty (Z.of_nat i) +:+ ".'" +:+ name +:+ "' failed:") k)))
  | None =>
  (* Check that user didn't forget any input values *)
  match SanityCheck step (Z.of_nat i) with
  | Panics => (st, Panics)
  | Stuck => (st, Stuck)
  | Returns (Some err) => (st, Returns (Some err))
  | Returns None =>
  (* Replace needed values *)
  match ReplaceInBody step (Values f) (Z.of_nat i) with
  | Panics => (st, Panics)
  | Stuck => (st, Stuck)
  | Returns (step, Some err) => (st, Returns (Some err))
  | Returns (step, None) =>
  let '(step, err) := ReplaceInHeader step (Values f) (Z.of_nat i) in
  (* the header is a map: [f.Steps[i]] holds the one that was just written *)
  let f := setSteps f (alter (fun s => setRequest s
             (setHeader (Step_Request s) (Header (Step_Request step)))) i (Steps f)) in
  let st := mkExec f (world st) (sent st) in
  match err with
  | Some err => (st, Returns (Some err))
  | None =>
  match ReplaceInURL step (Values f) (Z.of_nat i) with
  | (step, Some err) => (st, Returns (Some err))
  | (step, None) =>
  (* Execute request *)
  let '(w, req, res) := Do (Step_Request step) jar (world st) in
  let st := mkExec f w (sent st ++ option_list req) in
  match res with
  | Panics => (st, Panics)
  | Stuck => (st, Stuck)
  | Returns (inr err) => (st, Returns (Some err))
  | Returns (inl resp) =>
  (* check if gzip *)
  match (if (Header_Get (resp_Header resp) "Content-Encoding" =? "gzip")%string
         then match gzip_NewReader (resp_Body resp) with
              | inl r => inl (mkHTTPResponse (StatusCode resp) (resp_Header resp) r)
              | inr err => inr err
              end
         else inl resp) with
  | inr err => (st, Returns (Some err))
  | inl resp =>
  match ioutil_ReadAll (resp_Body resp) with
  | (_, Some err) => (st, Returns (Some err))
  | (body, None) =>
  (* Store response *)
  let f := setSteps f (alter (fun s => setResponse s
             (Some (mkResponse resp body (resp_Header resp)))) i (Steps f)) in
  (* Extract important values (KeysOutput) *)
  let '(values, res) :=
    extractAll (Z.of_nat i) name body (KeysOutput step) (Values f) in
  let st := mkExec (setValues f values) w (sent st) in
  match res with
  | Panics => (st, Panics)
  | Stuck => (st, Stuck)
  | Returns (Some err) => (st, Returns (Some err))
  | Returns None =>
  (* Post hook / sanity check *)
  match PostHook step with
  | Some hook =>
      match hook (StatusCode resp) (resp_Header resp) body with
      | Some err => (st, Returns (Some (stepError (Z.of_nat i) name (Error err))))
      | None => (st, Returns None)
      end
  | None => (st, Returns None)
  end end end end end end end end end end.

(** The loop [for i, step := range f.Steps], from the index [i] on:
    [steps] are the elements not yet visited. *)
Fixpoint runSteps (jar : Jar) (i : nat) (steps : list Step) (st : Exec)
    : Exec * Outcome (option error) :=
  match steps with
  | [] => (st, Returns None)
  | step :: steps' =>
      match runStep jar i step st with
      | (st', Returns None) => runSteps jar (S i) steps' st'
      | stopped => stopped
      end
  end.

(** [func (f *Flow) Execute(values map[string]interface{}) error], run in
    the world [w]. *)
Definition Execute (f : Flow) (values : option (gmap string Value)) (w : World)
    : Exec * Outcome (option error) :=
  (* 1. Check that all values are given *)
  match missingKey values (RequiredValues f) with
  | Some k => (mkExec f w [], Returns (Some (NewMVE "" k)))
  | None =>
      let f := setValues f values in
      (* 2. Create cookie jar *)
      match CookieJar f with
      | Some jar => runSteps jar 0 (Steps f) (mkExec f w [])
      | None =>
          match cookiejar_New with
          | inr err => (mkExec f w [], Returns (Some err))
          | inl jar =>
              let f := setCookieJar f (Some jar) in
              (* 3. Create HTTP client; 4. Go through steps *)
              runSteps jar 0 (Steps f) (mkExec f w [])
          end
      end
  end.

End Flows.

(** ** Libraries and a scripted server for the examples

    The theorems hold for every [Libs].  The examples run on this one:
    small models of the library functions, and a world that is the list of
    the answers the server will give, in order. *)
Module Sim.

(** *** text/template, the fragment with text and [{{.Key}}] actions *)

Inductive segment : Type :=
| Text (s : string)
| Field (key : string).

Definition isSpace (c : ascii) : bool :=
  Ascii.eqb c " " || Ascii.eqb c (ascii_of_nat 9) ||
  Ascii.eqb c (ascii_of_nat 10) || Ascii.eqb c (ascii_of_nat 13).

Definition isAlnum (c : ascii) : bool :=
  let n := nat_of_ascii c in
  ((48 <=? n) && (n <=? 57) || (65 <=? n) && (n <=? 90) ||
   (97 <=? n) && (n <=? 122) || (n =? 95))%nat.

Fixpoint string_forallb (p : ascii -> bool) (s : string) : bool :=
  match s with
  | EmptyString => true
  | String c s' => p c && string_forallb p s'
  end.

Fixpoint trimLeft (s : string) : string :=
  match s with
  | String c s' => if isSpace c then trimLeft s' else s
  | EmptyString => s
  end.

Fixpoint trimRight (s : string) : string :=
  match s with
  | String c s' =>
      match trimRight s' with
      | EmptyString => if isSpace c then EmptyString else String c EmptyString
      | t => String c t
      end
  | EmptyString => s
  end.

Definition templateError (name why : string) : error :=
  LibError ("template: " +:+ name +:+ ":1: " +:+ why).

Fixpoint parseTemplate (fuel : nat) (name text : string) (acc : list segment)
    : list segment + error :=
  match fuel with
  | O => inl (acc ++ [Text text])%list
  | S fuel' =>
      match String.index 0 "{{" text with
      | None => inl (acc ++ [Text text])%list
      | Some i =>
          let rest := string_drop (i + 2) text in
          match String.index 0 "}}" rest with
          | None => inr (templateError name "unclosed action")
          | Some j =>
              match trimRight (trimLeft (String.substring 0 j rest)) with
              | EmptyString => inr (templateError name "missing value for command")
              | String "." key =>
                  if negb (key =? "")%string && string_forallb isAlnum key then
                    parseTemplate fuel' name (string_drop (j + 2) rest)
                      (acc ++ [Text (String.substring 0 i text); Field key])
                  else inr (templateError name "action outside this model")
              | _ => inr (templateError name "action outside this model")
              end
          end
      end
  end.

Definition showValue (v : option Value) : string :=
  match v with
  | Some (VString s) => s
  | Some (VOther shown) => shown
  | None => "<no value>"
  end.

Definition executeTemplate (tpl : list segment) (vals : option (gmap string Value))
    : string + error :=
  inl (fold_right (fun seg out =>
         match seg with
         | Text s => s +:+ out
         | Field key => showValue (match vals with Some m => m !! key | None => None end) +:+ out
         end) "" tpl).

(** *** Sorted keys, [url.Values.Encode], [fmt] of a header, canonical keys *)

Fixpoint insertSorted (e : string * list string) (m : MultiMap) : MultiMap :=
  match m with
  | [] => [e]
  | e' :: m' => if String.leb (fst e) (fst e') then e :: m else e' :: insertSorted e m'
  end.

Definition sortKeys (m : MultiMap) : MultiMap := fold_right insertSorted [] m.

Definition hexDigit (n : nat) : ascii :=
  if (n <? 10)%nat then ascii_of_nat (48 + n) else ascii_of_nat (55 + n).

Fixpoint QueryEscape (s : string) : string :=
  match s with
  | EmptyString => EmptyString
  | String c s' =>
      if isAlnum c || Ascii.eqb c "-" || Ascii.eqb c "." || Ascii.eqb c "~"
      then String c (QueryEscape s')
      else if Ascii.eqb c " " then String "+" (QueryEscape s')
      else
        let n := nat_of_ascii c in
        String "%" (String (hexDigit (n / 16)) (String (hexDigit (n mod 16)) (QueryEscape s')))
  end.

Fixpoint joinWith (sep : string) (l : list string) : string :=
  match l with
  | [] => ""
  | [x] => x
  | x :: l' => x +:+ sep +:+ joinWith sep l'
  end.

Definition Encode (v : MultiMap) : string :=
  joinWith "&"
    (flat_map (fun e => map (fun x => QueryEscape (fst e) +:+ "=" +:+ QueryEscape x) (snd e))
       (sortKeys v)).

Definition SprintHeader (h : MultiMap) : string :=
  "map[" +:+
  joinWith " " (map (fun e => fst e +:+ ":[" +:+ joinWith " " (snd e) +:+ "]") (sortKeys h))
  +:+ "]".

Definition upper (c : ascii) : ascii :=
  let n := nat_of_ascii c in
  if ((97 <=? n) && (n <=? 122))%nat then ascii_of_nat (n - 32) else c.

Definition lower (c : ascii) : ascii :=
  let n := nat_of_ascii c in
  if ((65 <=? n) && (n <=? 90))%nat then ascii_of_nat (n + 32) else c.

Fixpoint canonical (up : bool) (s : string) : string :=
  match s with
  | EmptyString => EmptyString
  | String c s' =>
      String (if up then upper c else lower c) (canonical (Ascii.eqb c "-") s')
  end.

Definition isToken (c : ascii) : bool :=
  isAlnum c ||
  existsb (Ascii.eqb c)
    ["!"; "#"; "$"; "%"; "&"; "'"; "*"; "+"; "-"; "."; "^"; "`"; "|"; "~"]%char.

Definition CanonicalKey (s : string) : string :=
  if string_forallb isToken s then canonical true s else s.

(** *** The body stream, the jar and the scripted server *)

(** A body stream: the bytes it gives, what it decompresses to if it is
    gzip data, and the error that reading it ends with, if any. *)
Record stream : Type := mkStream {
  bytes : string;
  gunzipped : option string;
  readError : option error
}.

Definition NewReader (s : stream) : stream + error :=
  match gunzipped s with
  | Some d => inl (mkStream d None (readError s))
  | None => inr (LibError "gzip: invalid header")
  end.

Definition ReadAll (s : stream) : string * option error :=
  (bytes s, readError s).

(** The world: the answers of the server to the requests to come. *)
Definition world : Type := list (HTTPResponse stream + error).

Definition clientDo (w : world) (jar : unit) (noRedirect : bool) (req : HTTPRequest)
    : world * (HTTPResponse stream + error) :=
  match w with
  | [] => ([], inr (LibError "dial tcp: connection refused"))
  | answer :: w' => (w', answer)
  end.

Definition libs : Libs :=
  {| libs_regexp := Re.lib;
     Template := list segment;
     template_Parse := fun name text => parseTemplate (String.length text) name text [];
     template_Execute := executeTemplate;
     CanonicalMIMEHeaderKey := CanonicalKey;
     Values_Encode := Encode;
     fmt_Sprint_Header := SprintHeader;
     Stream := stream;
     gzip_NewReader := NewReader;
     ioutil_ReadAll := ReadAll;
     World := world;
     Jar := unit;
     cookiejar_New := inl tt;
     http_NewRequest := fun _ _ => None;
     Client_Do := clientDo |}.

(** A plain answer of the server: status, header, body. *)
Definition answer (status : Z) (h : MultiMap) (b : string) : HTTPResponse stream + error :=
  inl (mkHTTPResponse status h (mkStream b None None)).

End Sim.

(** ** Cloning ([flows.go]): the flow with its references

    [CompleteCopy] is about which storage a flow shares with its copy, so
    this part keeps the references of a flow apart from what they refer
    to: a slice is the location of its backing array, a map the location of
    the map, and the heap holds the arrays and the maps.  ([Execute] above
    is modelled on the contents alone.) *)
Module Mem.

Abbreviation loc := positive.

(** The dynamic value of [Request.Body]: a string is immutable and is
    kept by value; a [[]byte] and a [url.Values] are references. *)
Inductive body : Type :=
| NilBody
| StringBody (t : string)
| BytesBody (t : loc)
| ValuesBody (t : loc)
| OtherBody.

(** [type Request struct]; [Header] is [None] for a [nil] map. *)
Record Request : Type := mkRequest {
  URL : string;
  Method : string;
  Header : option loc;
  Body : body;
  IgnoreRedirects : bool
}.

(** [type Step struct].  The response is a pointer, the keys are slices,
    the hook is a function value: references, [None] for [nil]. *)
Record Step : Type := mkStep {
  Name : string;
  Step_Request : Request;
  Response : option loc;
  KeysInput : option loc;
  KeysOutput : option loc;
  PostHook : option loc
}.

(** [type Flow struct]. *)
Record Flow : Type := mkFlow {
  RequiredValues : option loc;
  Values : option loc;
  Steps : option loc;
  CookieJar : option loc
}.

(** What a location holds: the backing array of a [[]string], of a
    [[]byte] or of a [[]Step], a [map[string][]string] with the slice of
    each key, or anything else (a response, a value store, a jar, the
    extracters, a function). *)
Inductive object : Type :=
| Strings (l : list string)
| Bytes (b : string)
| StepArray (l : list Step)
| Map (m : list (string * loc))
| Other.

Abbreviation heap := (gmap loc object).

(** [make] and composite literals: a location that the heap does not hold. *)
Definition alloc (h : heap) (o : object) : loc * heap :=
  let p := fresh (dom h) in (p, <[p := o]> h).

Definition readStrings (h : heap) (p : loc) : Outcome (list string) :=
  match h !! p with
  | Some (Strings l) => Returns l
  | _ => Stuck
  end.

Definition readBytes (h : heap) (p : loc) : Outcome string :=
  match h !! p with
  | Some (Bytes b) => Returns b
  | _ => Stuck
  end.

Definition readSteps (h : heap) (p : loc) : Outcome (list Step) :=
  match h !! p with
  | Some (StepArray l) => Returns l
  | _ => Stuck
  end.

Definition readMap (h : heap) (p : loc) : Outcome (list (string * loc)) :=
  match h !! p with
  | Some (Map m) => Returns m
  | _ => Stuck
  end.

(** The elements of a slice and the entries of a map that may be [nil]. *)
Definition stringsOf (h : heap) (p : option loc) : Outcome (list string) :=
  match p with
  | Some p => readStrings h p
  | None => Returns []
  end.

Definition stepsOf (h : heap) (p : option loc) : Outcome (list Step) :=
  match p with
  | Some p => readSteps h p
  | None => Returns []
  end.

Definition entriesOf (h : heap) (p : option loc) : Outcome (list (string * loc)) :=
  match p with
  | Some p => readMap h p
  | None => Returns []
  end.

Section Cloning.
Context `{Libs}.

(** [old.Get(key)] of [http.Header]. *)
Definition Header_Get (h : heap) (old : option loc) (key : string) : Outcome string :=
  m ← entriesOf h old;
  match mm_get m (CanonicalMIMEHeaderKey key) with
  | None => Returns ""
  | Some p =>
      v ← readStrings h p;
      Returns (match v with
               | x :: _ => x
               | [] => ""
               end)
  end.

(** [m[key] = []string{value}] on the map at [p]. *)
Definition setEntry (h : heap) (p : loc) (key value : string) : Outcome heap :=
  m ← readMap h p;
  let '(v, h) := alloc h (Strings [value]) in
  Returns (<[p := Map (mm_set m key v)]> h).

(** [newHeader.Set(key, value)]. *)
Definition Header_Set (h : heap) (newHeader : loc) (key value : string) : Outcome heap :=
  setEntry h newHeader (CanonicalMIMEHeaderKey key) value.

(** The loop [for k := range old { newHeader.Set(k, old.Get(k)) }]. *)
Fixpoint copyKeys (keys : list string) (old : option loc) (newHeader : loc) (h : heap)
    : Outcome heap :=
  match keys with
  | [] => Returns h
  | k :: keys' =>
      v ← Header_Get h old k;
      h ← Header_Set h newHeader k v;
      copyKeys keys' old newHeader h
  end.

(** [newHeader := make(http.Header, len(old))] and the loop over [old]. *)
Definition copyHeader (old : option loc) (h : heap) : Outcome (loc * heap) :=
  m ← entriesOf h old;
  let '(newHeader, h) := alloc h (Map []) in
  h ← copyKeys (map fst m) old newHeader h;
  Returns (newHeader, h).

(** The loop [for k, v := range t { newVals[k] = []string{v[len(v)-1]} }]. *)
Fixpoint copyValues (t : list (string * loc)) (newVals : loc) (h : heap) : Outcome heap :=
  match t with
  | [] => Returns h
  | (k, v) :: t' =>
      v ← readStrings h v;
      x ← lastValue v;
      h ← setEntry h newVals k x;
      copyValues t' newVals h
  end.

(** [func newBody(v interface{}) interface{}]. *)
Definition newBody (v : body) (h : heap) : Outcome (body * heap) :=
  match v with
  | BytesBody t =>
      b ← readBytes h t;
      let '(newBody, h) := alloc h (Bytes b) in
      Returns (BytesBody newBody, h)
  | StringBody t => Returns (StringBody t, h)
  | ValuesBody t =>
      m ← readMap h t;
      let '(newVals, h) := alloc h (Map []) in
      h ← copyValues m newVals h;
      Returns (ValuesBody newVals, h)
  | NilBody => Returns (NilBody, h)
  | OtherBody => Panics
  end.

(** The three assignments to [f.Steps[i]] at the end of an iteration. *)
Definition renew (s : Step) (b : body) (newHeader : loc) : Step :=
  {| Name := Name s;
     Step_Request :=
       {| URL := URL (Step_Request s); Method := Method (Step_Request s);
          Header := Some newHeader; Body := b;
          IgnoreRedirects := IgnoreRedirects (Step_Request s) |};
     Response := None;
     KeysInput := KeysInput s; KeysOutput := KeysOutput s; PostHook := PostHook s |}.

(** The loop [for i := range f.Steps], from the index [i] on, with [n]
    elements to go; [steps] is the location of the array of [f.Steps]. *)
Fixpoint copySteps (n i : nat) (steps : loc) (h : heap) : Outcome heap :=
  match n with
  | O => Returns h
  | S n' =>
      arr ← readSteps h steps;
      match arr !! i with
      | None => Stuck
      | Some s =>
          '(newHeader, h) ← copyHeader (Header (Step_Request s)) h;
          '(b, h) ← newBody (Body (Step_Request s)) h;
          arr ← readSteps h steps;
          copySteps n' (S i) steps
            (<[steps := StepArray (<[i := renew s b newHeader]> arr)]> h)
      end
  end.

(** [func (f Flow) CompleteCopy() Flow]: the copy, and the heap with what
    the call allocated. *)
Definition CompleteCopy (f : Flow) (h : heap) : Outcome (Flow * heap) :=
  required ← stringsOf h (RequiredValues f);
  let '(newRequired, h) := alloc h (Strings required) in
  steps ← stepsOf h (Steps f);
  let '(newSteps, h) := alloc h (StepArray steps) in
  let f := {| RequiredValues := Some newRequired; Values := None;
              Steps := Some newSteps; CookieJar := None |} in
  h ← copySteps (length steps) 0 newSteps h;
  Returns (f, h).

End Cloning.

(** *** What the heap holds behind a reference *)

(** The entries of a map with the elements of the slice of each key. *)
Fixpoint loadEntries (h : heap) (m : list (string * loc)) : option MultiMap :=
  match m with
  | [] => Some []
  | (k, p) :: m' =>
      match h !! p, loadEntries h m' with
      | Some (Strings l), Some mm => Some ((k, l) :: mm)
      | _, _ => None
      end
  end.

Definition loadMap (h : heap) (p : loc) : option MultiMap :=
  match h !! p with
  | Some (Map m) => loadEntries h m
  | _ => None
  end.

(** The same for a map that may be [nil]. *)
Definition loadHeader (h : heap) (p : option loc) : option MultiMap :=
  match p with
  | Some p => loadMap h p
  | None => Some []
  end.

(** The locations of the map at [p]: the map and the slices of its keys. *)
Definition mapLocs (h : heap) (p : loc) : list loc :=
  match h !! p with
  | Some (Map m) => p :: map snd m
  | _ => [p]
  end.

End Mem.

(** ** Definitions that the statements below use *)

(** The pattern that the regex check matches against, in the words of the
    specification: [^] is put in front when the pattern does not start with
    it, [$] at the end when the pattern does not end with it. *)
Definition anchored (p : string) : string :=
  let p' := if bool_decide (firstByte p = Some "^"%char) then p else "^" +:+ p in
  if bool_decide (lastByte p = Some "$"%char) then p' else p' +:+ "$".

(** The match at the occurrence index [n], in the words of the
    specification: "the substring strictly between the [n]-th match of
    AfterThis and the following BeforeThis", the matches of [AfterThis]
    counted from left to right, each search going on where the match
    before ended. *)
Fixpoint betweenN (body after before : string) (n : nat) : bool * string :=
  match n with
  | O => StringBetween body after before
  | S n' =>
      match String.index 0 after body with
      | None => (false, "")
      | Some i => betweenN (string_drop (i + String.length after) body) after before n'
      end
  end.

(** The three constraints on a candidate [bet], as propositions. *)
Definition tooLong (e : Extractable) (bet : string) : Prop :=
  MaxLength e <> -1 /\ MaxLength e < len bet.

Definition tooShort (e : Extractable) (bet : string) : Prop :=
  MinLength e <> -1 /\ len bet < MinLength e.

Definition noMatch `{RegexpLib} (e : Extractable) (bet : string) : Prop :=
  MatchRegexp e <> "" /\ fst (regexp_Match (anchored (MatchRegexp e)) bet) = false.

(** The errors of the three constraints, as [Extract] formats them. *)
Definition maxLengthError (e : Extractable) (bet : string) : error :=
  errorString ("max length of " +:+ pretty (MaxLength e) +:+ " reached: " +:+ bet).

Definition minLengthError (e : Extractable) (bet : string) : error :=
  errorString ("min length of " +:+ pretty (MinLength e) +:+ " reached: " +:+ bet).

Definition regexError (e : Extractable) (bet : string) : error :=
  errorString ("regex '" +:+ anchored (MatchRegexp e) +:+ "' not matched: " +:+ bet).

(** The candidate [bet] violates a constraint of the rule [e], and [err]
    is the error of the first constraint that it violates, in the order
    max length, min length, regex. *)
Definition violates `{RegexpLib} (e : Extractable) (bet : string) (err : error) : Prop :=
  (tooLong e bet /\ err = maxLengthError e bet)
  \/ (~ tooLong e bet /\ tooShort e bet /\ err = minLengthError e bet)
  \/ (~ tooLong e bet /\ ~ tooShort e bet /\ noMatch e bet /\ err = regexError e bet).

(** The method value [e.Again.Extract] that [Extract] hands to its loop. *)
Definition againOf `{RegexpLib} (e : Extractable) (v : option (gmap string Value))
    : option (string -> Outcome Extracted) :=
  match Again e with
  | Some a => Some (fun bet => Extract a bet v)
  | None => None
  end.

(** The body of [TestStringBetweenN] ([steps_test.go]). *)
Definition tab : string := String (ascii_of_nat 9) "".
Definition newline : string := String (ascii_of_nat 10) "".

Definition testBody : string :=
  newline +:+
  String.concat ""
    (map (fun i : nat => tab +:+ "-[" +:+ pretty i +:+ "]" +:+ newline) (seq 0 11))
  +:+ tab.

(** The body and the rule of [TestExtractable_Extract]. *)
Definition testCandidates : list string :=
  ["ASD12"; "asd123"; "asdfffadsfasdfasfasdfHTMLMTMHTLHMTHMLTHTMLTHMTL";
   "a"; "ASDfff"; "asdfff"].

Definition testBody2 : string :=
  newline +:+
  String.concat ""
    (map (fun c => tab +:+ tab +:+ "-[" +:+ c +:+ "]" +:+ newline) testCandidates)
  +:+ tab.

Definition testRule : Extractable :=
  {| AfterThis := "-["; BeforeThis := "]"; Name := "some string";
     Iterate := true; MaxLength := 10; MinLength := 3; MatchRegexp := "[a-z]+";
     IgnoreNotFound := false; Again := None |}.

(** Rules for the examples: [Iterate] and [IgnoreNotFound] off, one
    constraint each. *)
Definition rule (max min : Z) (pattern : string) : Extractable :=
  {| AfterThis := "-["; BeforeThis := "]"; Name := "tok";
     Iterate := false; MaxLength := max; MinLength := min; MatchRegexp := pattern;
     IgnoreNotFound := false; Again := None |}.

Definition setIterate (e : Extractable) (b : bool) : Extractable :=
  mkExtractable (AfterThis e) (BeforeThis e) (Name e) b
    (MaxLength e) (MinLength e) (MatchRegexp e) (IgnoreNotFound e) (Again e).

Definition setIgnoreNotFound (e : Extractable) (b : bool) : Extractable :=
  mkExtractable (AfterThis e) (BeforeThis e) (Name e) (Iterate e)
    (MaxLength e) (MinLength e) (MatchRegexp e) b (Again e).

(** The template library fails on [text]: parsing it fails, or executing
    the parsed template against [vals] does; [err] is the library's error. *)
Definition templateFails `{Libs} (name text : string)
    (vals : option (gmap string Value)) (err : error) : Prop :=
  template_Parse name text = inr err \/
  exists tpl, template_Parse name text = inl tpl /\ template_Execute tpl vals = inr err.

(** The template library resolves [text] to [output]. *)
Definition templateGives `{Libs} (name text : string)
    (vals : option (gmap string Value)) (output : string) : Prop :=
  exists tpl, template_Parse name text = inl tpl /\ template_Execute tpl vals = inl output.

(** The error of [replaceInBytes] for an output equal to the input, with
    the step in front as [ReplaceInBody] returns it. *)
Definition nothingReplaced (stepNb : Z) (name : string) : error :=
  stepError stepNb name "didn't replace anything in request, but should have".

(** The key [k] is absent from the map, or maps to the empty string. *)
Definition absentOrEmpty (values : option (gmap string Value)) (k : string) : Prop :=
  lookupValue values k = None \/ lookupValue values k = Some (VString "").

(** The error [err] identifies the step: its text starts with the index
    and the name of the step, as [Step i.'name']. *)
Definition namesStep (i : nat) (name : string) (err : error) : Prop :=
  exists rest,
    Error err = "Step " +:+ pretty (Z.of_nat i) +:+ ".'" +:+ name +:+ "'" +:+ rest.

(** The text that the loop of [ReplaceInHeader] hands to the template
    library at one of the keys of the header: [h.Get(k)], in the header [h]
    as the keys before [k] left it. *)
Definition headerTextAt `{Libs} (name : string) (vals : option (gmap string Value))
    (header : MultiMap) (text : string) : Prop :=
  exists before k after h,
    map fst header = before ++ k :: after
    /\ replaceInHeaderKeys name vals before header = (h, None)
    /\ text = Header_Get h k.

(** The error [err] is the error value of a library call that [Execute]
    made for the step [step], in the run that stood at [st1] when the step
    began and at [st] when it returned: a template of the header or of the
    URL, executed against the store of the run; [http.NewRequest] on the
    method of the step and the resolved URL; the client, on the world and
    the jar of the run and the request that the run sent; the gzip reader
    or the read of the body of the response that the client gave. *)
Definition libraryErrorAt `{Libs} (jar : Jar) (step : Step) (st1 st : Exec) (err : error)
    : Prop :=
  let name := Step_Name step in
  let r := Step_Request step in
  let vals := Values (flow st1) in
  (exists text, headerTextAt name vals (Header r) text /\ templateFails name text vals err)
  \/ templateFails name (URL r) vals err
  \/ exists url,
       templateGives name (URL r) vals url
       /\ (http_NewRequest (Method r) url = Some err
           \/ exists req res,
                sent st = sent st1 ++ [req]
                /\ req_Method req = Method r /\ req_URL req = url
                /\ Client_Do (world st1) jar (IgnoreRedirects r) req = (world st, res)
                /\ match res with
                   | inr e => err = e
                   | inl resp =>
                       if (Header_Get (resp_Header resp) "Content-Encoding" =? "gzip")%string
                       then match gzip_NewReader (resp_Body resp) with
                            | inr e => err = e
                            | inl s => exists b, ioutil_ReadAll s = (b, Some err)
                            end
                       else exists b, ioutil_ReadAll (resp_Body resp) = (b, Some err)
                   end).

(** The keys of a value store. *)
Definition storeKeys (values : option (gmap string Value)) : gset string :=
  match values with
  | Some m => dom m
  | None => ∅
  end.

(** The assignments [m[n] = s] of a list of extraction results, in order. *)
Definition putAll (m : gmap string Value) (writes : list (string * string))
    : gmap string Value :=
  fold_left (fun m w => <[fst w := VString (snd w)]> m) writes m.

(** The store [values'] is the store [values] after some assignments of
    extraction results, and nothing else: no key was removed. *)
Definition storeGrows (values values' : option (gmap string Value)) : Prop :=
  match values, values' with
  | Some m, Some m' => exists writes, m' = putAll m writes
  | None, None => True
  | _, _ => False
  end.

(** The run of [Execute] when its loop over the steps begins: the jar of
    the client, and the flow with the supplied map installed.  [None] when
    [Execute] returns before that. *)
Definition startOf `{Libs} (f : Flow) (values : option (gmap string Value)) (w : World)
    : option (Jar * Exec) :=
  match missingKey values (RequiredValues f) with
  | Some _ => None
  | None =>
      match CookieJar f with
      | Some jar => Some (jar, mkExec (setValues f values) w [])
      | None =>
          match cookiejar_New with
          | inr _ => None
          | inl jar =>
              Some (jar, mkExec (setCookieJar (setValues f values) (Some jar)) w [])
          end
      end
  end.

(** ** Steps and flows for the examples, on the libraries of [Sim] *)
Module Ex.
#[local] Existing Instance Sim.libs.

Definition post (body : body) : Request :=
  {| URL := "http://host/login"; Method := "POST"; Header := []; Body := body;
     IgnoreRedirects := false |}.

(** A step whose body is the placeholder of the key [x]. *)
Definition sameStep : Step :=
  {| Step_Name := "same"; Step_Request := post (StringBody "{{.x}}");
     Step_Response := None; KeysInput := ["x"]; KeysOutput := []; PostHook := None |}.

(** The key [x] stands for its own placeholder. *)
Definition sameVals : option (gmap string Value) :=
  Some {[ "x" := VString "{{.x}}" ]}.

(** A step with a form without placeholders. *)
Definition formStep : Step :=
  {| Step_Name := "form"; Step_Request := post (ValuesBody [("k", ["v"])]);
     Step_Response := None; KeysInput := ["x"]; KeysOutput := []; PostHook := None |}.

(** A step with a text body and no input keys. *)
Definition textStep : Step :=
  {| Step_Name := "text"; Step_Request := post (StringBody "hello");
     Step_Response := None; KeysInput := []; KeysOutput := []; PostHook := None |}.

Definition textFlow : Flow :=
  {| RequiredValues := []; Values := None; Steps := [textStep]; CookieJar := None |}.

(** A login of two steps: the first sends the user and extracts a token,
    the second sends the token and checks the status of the answer. *)
Definition token : Extractable :=
  {| AfterThis := "token="; BeforeThis := ";"; Name := "token";
     Iterate := false; MaxLength := -1; MinLength := -1; MatchRegexp := "";
     IgnoreNotFound := false; Again := None |}.

Definition login : Step :=
  {| Step_Name := "login"; Step_Request := post (StringBody "user={{.user}}");
     Step_Response := None; KeysInput := ["user"];
     KeysOutput := [Extractable_Extracter token]; PostHook := None |}.

Definition checkStatus (statusCode : Z) (h : MultiMap) (b : string) : option error :=
  if statusCode =? 200 then None else Some (errorString "unexpected status").

Definition home : Step :=
  {| Step_Name := "home";
     Step_Request :=
       {| URL := "http://host/home?t={{.token}}"; Method := "GET"; Header := [];
          Body := NilBody; IgnoreRedirects := true |};
     Step_Response := None; KeysInput := ["token"]; KeysOutput := [];
     PostHook := Some checkStatus |}.

Definition loginFlow : Flow :=
  {| RequiredValues := ["user"]; Values := None; Steps := [login; home];
     CookieJar := None |}.

Definition bob : option (gmap string Value) := Some {[ "user" := VString "bob" ]}.

Definition nobody : option (gmap string Value) := Some {[ "user" := VString "" ]}.

(** A server that answers the login with a token and the next request
    with the status 500. *)
Definition server : Sim.world :=
  [Sim.answer 200 [] "welcome token=abc; bye"; Sim.answer 500 [] "oops"].

End Ex.

(** ** Cloning: what a copy is *)

(** The step [s] can be copied: its header and its body are there in the
    heap, the body is of a type that [newBody] knows, and a form has
    distinct keys (it is a map) and a value for each key. *)
Definition bodyCopyable (h : Mem.heap) (b : Mem.body) : Prop :=
  match b with
  | Mem.BytesBody p => exists t, h !! p = Some (Mem.Bytes t)
  | Mem.ValuesBody p =>
      exists mm, Mem.loadMap h p = Some mm /\ NoDup (map fst mm)
                 /\ Forall (fun e => snd e <> []) mm
  | Mem.OtherBody => False
  | _ => True
  end.

Definition stepCopyable (h : Mem.heap) (s : Mem.Step) : Prop :=
  is_Some (Mem.loadHeader h (Mem.Header (Mem.Step_Request s)))
  /\ bodyCopyable h (Mem.Body (Mem.Step_Request s)).

Definition flowCopyable (h : Mem.heap) (f : Mem.Flow) : Prop :=
  (exists required, Mem.stringsOf h (Mem.RequiredValues f) = Returns required)
  /\ exists steps, Mem.stepsOf h (Mem.Steps f) = Returns steps
                   /\ Forall (stepCopyable h) steps.

(** The map at [p'] in the heap [h'] is storage that the heap [h] does
    not hold: the map, and the slice of each of its keys. *)
Definition newMap (h h' : Mem.heap) (p' : Mem.loc) : Prop :=
  Forall (fun q => h !! q = None) (Mem.mapLocs h' p').

(** The header of the copy: a new map that holds, for each key [k] of the
    old one, the one value [old.Get(k)] under the canonical form of [k],
    and no other key. *)
Definition headerCopied `{Libs} (h h' : Mem.heap) (old new : option Mem.loc) : Prop :=
  exists p' mm mm',
    new = Some p' /\ newMap h h' p'
    /\ Mem.loadHeader h old = Some mm /\ Mem.loadMap h' p' = Some mm'
    /\ (forall k, In k (map fst mm) ->
          mm_get mm' (CanonicalMIMEHeaderKey k) = Some [Header_Get mm k])
    /\ (forall k', In k' (map fst mm') ->
          exists k, In k (map fst mm) /\ k' = CanonicalMIMEHeaderKey k).

(** The body of the copy: [nil] and a string as they were; bytes in a new
    array with the same bytes; a form in a new map with the same keys,
    each with its last value only. *)
Definition bodyCopied (h h' : Mem.heap) (b b' : Mem.body) : Prop :=
  match b, b' with
  | Mem.NilBody, Mem.NilBody => True
  | Mem.StringBody t, Mem.StringBody t' => t' = t
  | Mem.BytesBody p, Mem.BytesBody p' =>
      h !! p' = None /\
      exists t, h !! p = Some (Mem.Bytes t) /\ h' !! p' = Some (Mem.Bytes t)
  | Mem.ValuesBody p, Mem.ValuesBody p' =>
      newMap h h' p' /\
      exists mm mm',
        Mem.loadMap h p = Some mm /\ Mem.loadMap h' p' = Some mm'
        /\ map fst mm' = map fst mm
        /\ forall k v, mm_get mm k = Some v ->
             exists x, last v = Some x /\ mm_get mm' k = Some [x]
  | _, _ => False
  end.

(** The step [s'] of the copy, for the step [s] of the flow. *)
Definition stepCopied `{Libs} (h h' : Mem.heap) (s s' : Mem.Step) : Prop :=
  Mem.Name s' = Mem.Name s
  /\ Mem.URL (Mem.Step_Request s') = Mem.URL (Mem.Step_Request s)
  /\ Mem.Method (Mem.Step_Request s') = Mem.Method (Mem.Step_Request s)
  /\ Mem.IgnoreRedirects (Mem.Step_Request s') = Mem.IgnoreRedirects (Mem.Step_Request s)
  /\ Mem.KeysInput s' = Mem.KeysInput s
  /\ Mem.KeysOutput s' = Mem.KeysOutput s
  /\ Mem.PostHook s' = Mem.PostHook s
  /\ Mem.Response s' = None
  /\ headerCopied h h' (Mem.Header (Mem.Step_Request s)) (Mem.Header (Mem.Step_Request s'))
  /\ bodyCopied h h' (Mem.Body (Mem.Step_Request s)) (Mem.Body (Mem.Step_Request s')).

(** What the loop over a header makes of its entries, by value. *)
Definition copiedHeader `{Libs} (mm : MultiMap) (keys : list string) (acc : MultiMap)
    : MultiMap :=
  fold_left (fun acc k => mm_set acc (CanonicalMIMEHeaderKey k) [Header_Get mm k]) keys acc.

(** The heap [h'] keeps what the heap [h] holds, the arrays of steps apart
    (the loop over the steps writes one in place). *)
Definition keeps (h h' : Mem.heap) : Prop :=
  forall q o, h !! q = Some o -> (forall l, o <> Mem.StepArray l) -> h' !! q = Some o.

(** The header of the step [i] of the flow [f], as the heap holds it. *)
Definition stepHeader (h : Mem.heap) (f : Mem.Flow) (i : nat) : option MultiMap :=
  match Mem.stepsOf h (Mem.Steps f) with
  | Returns steps =>
      match steps !! i with
      | Some s => Mem.loadHeader h (Mem.Header (Mem.Step_Request s))
      | None => None
      end
  | _ => None
  end.

(** A flow in a heap for the examples: one step, with a header of two
    values for [Accept] and a form of two values for [k]. *)
Module ExMem.
Import Mem.

Definition h0 : heap :=
  list_to_map
    [(1%positive, Strings ["user"]);
     (2%positive, StepArray
        [{| Name := "login";
            Step_Request :=
              {| URL := "http://host/login"; Method := "POST";
                 Header := Some 3%positive; Body := ValuesBody 5%positive;
                 IgnoreRedirects := false |};
            Response := Some 8%positive;
            KeysInput := None; KeysOutput := None; PostHook := None |}]);
     (3%positive, Map [("Accept", 4%positive)]);
     (4%positive, Strings ["text/html"; "text/plain"]);
     (5%positive, Map [("k", 6%positive); ("j", 7%positive)]);
     (6%positive, Strings ["1"; "2"]);
     (7%positive, Strings ["x"]);
     (8%positive, Other);
     (9%positive, Other)].

Definition f0 : Flow :=
  {| RequiredValues := Some 1%positive; Values := Some 9%positive;
     Steps := Some 2%positive; CookieJar := None |}.

End ExMem.

(** What the loop over a form makes of its entries, by value. *)
Definition lastOr (v : list string) : string :=
  match last v with
  | Some x => x
  | None => ""
  end.

Definition lastOnly (e : string * list string) : string * list string :=
  (fst e, [lastOr (snd e)]).

Definition copiedValues (t acc : MultiMap) : MultiMap :=
  fold_left (fun acc e => mm_set acc (fst e) [lastOr (snd e)]) t acc.

(** The form of the step [i] of the flow [f], as the heap holds it. *)
Definition stepForm (h : Mem.heap) (f : Mem.Flow) (i : nat) : option MultiMap :=
  match Mem.stepsOf h (Mem.Steps f) with
  | Returns steps =>
      match steps !! i with
      | Some s =>
          match Mem.Body (Mem.Step_Request s) with
          | Mem.ValuesBody p => Mem.loadMap h p
          | _ => None
          end
      | None => None
      end
  | _ => None
  end.

(** ** Definitions for the further properties *)

(** The candidate [bet] passes the three constraints of the rule [e]. *)
Definition conforms `{RegexpLib} (e : Extractable) (bet : string) : Prop :=
  ~ tooLong e bet /\ ~ tooShort e bet /\ ~ noMatch e bet.

(** The candidate at the index [i] is [bet], it conforms, and every index
    before [i] holds a candidate that does not. *)
Definition firstConforming `{RegexpLib} (e : Extractable) (body : string) (i : nat)
    (bet : string) : Prop :=
  stringBetweenN body (AfterThis e) (BeforeThis e) i = Returns (true, bet)
  /\ conforms e bet
  /\ (forall j, (j < i)%nat ->
        exists c, stringBetweenN body (AfterThis e) (BeforeThis e) j = Returns (true, c)
                  /\ ~ conforms e c).

(** The rules that a call of [Extract] on [e] can reach: [e], [e.Again],
    and so on. *)
Fixpoint chain (e : Extractable) : list Extractable :=
  e :: match e with
       | mkExtractable _ _ _ _ _ _ _ _ (Some a) => chain a
       | mkExtractable _ _ _ _ _ _ _ _ None => []
       end.

(** The rule [e] after the two anchoring assignments of the regex check. *)
Definition anchoredRule (e : Extractable) : Extractable :=
  setMatchRegexp e (anchored (MatchRegexp e)).

(** A body that [countBody] cannot count: a value of a type other than
    [nil], [string], [[]byte] and [url.Values], or a form with a key that
    has no value. *)
Definition uncountable (b : body) : Prop :=
  match b with
  | OtherBody => True
  | ValuesBody t => Exists (fun e => snd e = []) t
  | _ => False
  end.

(** A step whose body reaches [Do] as it is and is not a [[]byte]: a text
    or a form that [ReplaceInBody] does not resolve (the step has no input
    keys, or the form is empty), or a value of another type. *)
Definition unsendable `{Libs} (s : Step) : Prop :=
  match Body (Step_Request s) with
  | NilBody | BytesBody _ => False
  | StringBody _ => KeysInput s = []
  | ValuesBody t => KeysInput s = [] \/ t = []
  | OtherBody => True
  end.

(** [v[0]] when there is one, as [Header.Get] reads it. *)
Definition firstOr (v : list string) : string :=
  match v with
  | x :: _ => x
  | [] => ""
  end.

(** The step [s'] is the step [s] but for its header and its response. *)
Definition sameButHeaderAndResponse `{Libs} (s s' : Step) : Prop :=
  Step_Name s' = Step_Name s
  /\ URL (Step_Request s') = URL (Step_Request s)
  /\ Method (Step_Request s') = Method (Step_Request s)
  /\ Body (Step_Request s') = Body (Step_Request s)
  /\ IgnoreRedirects (Step_Request s') = IgnoreRedirects (Step_Request s)
  /\ KeysInput s' = KeysInput s
  /\ KeysOutput s' = KeysOutput s
  /\ PostHook s' = PostHook s.

(** What an iteration of the loop of [Execute] over the steps, at the
    index [i], makes of a run [st]: it writes the step [i] of the flow, its
    header and its response only, and hands at most one request to the
    client; when it ends without an error, the request went out with the
    method of the step, and the step holds a response. *)
Definition stepShape `{Libs} (i : nat) (step : Step) (st st' : Exec)
    (res : Outcome (option error)) : Prop :=
  exists (g : Step -> Step) (reqs : list HTTPRequest),
    RequiredValues (flow st') = RequiredValues (flow st)
    /\ Steps (flow st') = alter g i (Steps (flow st))
    /\ (forall s, sameButHeaderAndResponse s (g s))
    /\ sent st' = sent st ++ reqs
    /\ (length reqs <= 1)%nat
    /\ (res = Returns None ->
        exists req, reqs = [req]
          /\ req_Method req = Method (Step_Request step)
          /\ forall s, is_Some (Step_Response (g s))).

(** The extracter [x] returns on every body: it does not panic. *)
Definition extracterReturns (x : Extracter) : Prop :=
  forall body v, exists r, Extracter_Extract x body v = Returns r.

(** A step that [Execute] can run without a panic: its body can be counted
    and reaches [Do] as [nil] or as a [[]byte], and its extracters return. *)
Definition runnable `{Libs} (s : Step) : Prop :=
  ~ uncountable (Body (Step_Request s))
  /\ ~ unsendable s
  /\ Forall extracterReturns (KeysOutput s).

(** A body that [newBody] cannot copy, in the heap [h]: a value of a type
    other than [nil], [string], [[]byte] and [url.Values], or a form with a
    key that has no value. *)
Definition uncopyable (h : Mem.heap) (b : Mem.body) : Prop :=
  match b with
  | Mem.OtherBody => True
  | Mem.ValuesBody p =>
      exists mm, Mem.loadMap h p = Some mm /\ Exists (fun e => snd e = []) mm
  | _ => False
  end.

(** ** More rules, steps, flows and heaps for the examples *)
Module ExMore.
#[local] Existing Instance Sim.libs.

(** A rule that iterates until a candidate has three bytes or more. *)
Definition atLeastThree : Extractable := setIterate (rule (-1) 3 "") true.

(** A rule with a nested rule: the text between [<] and [>] of the text
    between [-[] and []]. *)
Definition inner : Extractable :=
  {| AfterThis := "<"; BeforeThis := ">"; Name := "inner";
     Iterate := false; MaxLength := -1; MinLength := -1; MatchRegexp := "";
     IgnoreNotFound := false; Again := None |}.

Definition outer : Extractable :=
  {| AfterThis := "-["; BeforeThis := "]"; Name := "outer";
     Iterate := false; MaxLength := -1; MinLength := -1; MatchRegexp := "";
     IgnoreNotFound := false; Again := Some inner |}.

(** A step with a form whose key has no value. *)
Definition emptyValueStep : Step :=
  {| Step_Name := "form"; Step_Request := Ex.post (ValuesBody [("k", [])]);
     Step_Response := None; KeysInput := ["x"]; KeysOutput := []; PostHook := None |}.

(** A step with placeholders in its header; [Accept] has two values. *)
Definition headerStep : Step :=
  {| Step_Name := "head";
     Step_Request :=
       {| URL := "http://host/"; Method := "GET";
          Header := [("Accept", ["{{.a}}"; "text/plain"]); ("X-Token", ["{{.t}}"])];
          Body := NilBody; IgnoreRedirects := false |};
     Step_Response := None; KeysInput := ["a"; "t"]; KeysOutput := []; PostHook := None |}.

Definition headerVals : option (gmap string Value) :=
  Some {[ "a" := VString "text/html"; "t" := VString "abc" ]}.

(** A step that needs nothing and extracts nothing, and its flow. *)
Definition ping : Step :=
  {| Step_Name := "ping";
     Step_Request :=
       {| URL := "http://host/ping"; Method := "GET"; Header := [];
          Body := NilBody; IgnoreRedirects := false |};
     Step_Response := None; KeysInput := []; KeysOutput := []; PostHook := None |}.

Definition pingFlow : Flow :=
  {| RequiredValues := []; Values := None; Steps := [ping]; CookieJar := None |}.

(** A step that needs a key that no step extracts. *)
Definition needsCsrf : Step :=
  {| Step_Name := "post"; Step_Request := Ex.post (StringBody "csrf={{.csrf}}");
     Step_Response := None; KeysInput := ["csrf"]; KeysOutput := []; PostHook := None |}.

(** A server that answers the login with a token and the next request
    with the status 200. *)
Definition goodServer : Sim.world :=
  [Sim.answer 200 [] "welcome token=abc; bye"; Sim.answer 200 [] "home"].

(** The run of the login flow for [bob] when the loop over its steps
    begins, and after its first step. *)
Definition start (w : Sim.world) : Exec :=
  mkExec (setCookieJar (setValues Ex.loginFlow Ex.bob) (Some tt)) w [].

Definition afterLogin (w : Sim.world) : Exec := fst (runSteps tt 0 [Ex.login] (start w)).

(** A flow in a heap: its second step has a form whose key has no value. *)
Definition plainStep : Mem.Step :=
  {| Mem.Name := "plain";
     Mem.Step_Request :=
       {| Mem.URL := "http://host/"; Mem.Method := "GET"; Mem.Header := None;
          Mem.Body := Mem.NilBody; Mem.IgnoreRedirects := false |};
     Mem.Response := None; Mem.KeysInput := None; Mem.KeysOutput := None;
     Mem.PostHook := None |}.

Definition formStep : Mem.Step :=
  {| Mem.Name := "form";
     Mem.Step_Request :=
       {| Mem.URL := "http://host/"; Mem.Method := "POST"; Mem.Header := None;
          Mem.Body := Mem.ValuesBody 3%positive; Mem.IgnoreRedirects := false |};
     Mem.Response := None; Mem.KeysInput := None; Mem.KeysOutput := None;
     Mem.PostHook := None |}.

Definition h1 : Mem.heap :=
  list_to_map
    [(1%positive, Mem.Strings []);
     (2%positive, Mem.StepArray [plainStep; formStep]);
     (3%positive, Mem.Map [("k", 4%positive)]);
     (4%positive, Mem.Strings [])].

Definition f1 : Mem.Flow :=
  {| Mem.RequiredValues := Some 1%positive; Mem.Values := None;
     Mem.Steps := Some 2%positive; Mem.CookieJar := None |}.

(** A second rule that extracts under the name [token]. *)
Definition idAsToken : Extractable :=
  {| AfterThis := "id="; BeforeThis := ";"; Name := "token";
     Iterate := false; MaxLength := -1; MinLength := -1; MatchRegexp := "";
     IgnoreNotFound := false; Again := None |}.

Definition twoTokens : list Extracter :=
  [Extractable_Extracter Ex.token; Extractable_Extracter idAsToken].

(** A flow in a heap whose two steps share one header map, and what
    [CompleteCopy] makes of it. *)
Definition sharing (name : string) : Mem.Step :=
  {| Mem.Name := name;
     Mem.Step_Request :=
       {| Mem.URL := "http://host/"; Mem.Method := "GET"; Mem.Header := Some 3%positive;
          Mem.Body := Mem.NilBody; Mem.IgnoreRedirects := false |};
     Mem.Response := None; Mem.KeysInput := None; Mem.KeysOutput := None;
     Mem.PostHook := None |}.

Definition h2 : Mem.heap :=
  list_to_map
    [(1%positive, Mem.Strings []);
     (2%positive, Mem.StepArray [sharing "a"; sharing "b"]);
     (3%positive, Mem.Map [("Accept", 4%positive)]);
     (4%positive, Mem.Strings ["{{.a}}"])].

Definition f2 : Mem.Flow :=
  {| Mem.RequiredValues := Some 1%positive; Mem.Values := None;
     Mem.Steps := Some 2%positive; Mem.CookieJar := None |}.

Definition copy2 : Mem.Flow * Mem.heap :=
  match Mem.CompleteCopy f2 h2 with
  | Returns copy => copy
  | _ => (f2, h2)
  end.

End ExMore.

(** The value of the last assignment to the key [k] in a list of
    extraction results, if there is one. *)
Definition lastWrite (writes : list (string * string)) (k : string) : option string :=
  fold_left (fun acc w => if (fst w =? k)%string then Some (snd w) else acc) writes None.

(** * Properties *)

(** ** The extraction engine *)

Lemma string_drop_length (n : nat) (s : string) :
  String.length (string_drop n s) = (String.length s - n)%nat.
Proof.
  revert s; induction n as [|n IH]; intros s; simpl; [lia|].
  destruct s as [|c s]; simpl; [reflexivity|apply IH].
Qed.

Lemma sliceFrom_length (s rest : string) (k : Z) :
  sliceFrom s k = Returns rest ->
  0 <= k <= len s /\ len rest = len s - k.
Proof.
  unfold sliceFrom, len.
  destruct (k <? 0) eqn:Hneg; simpl; [discriminate|].
  destruct (Z.of_nat (String.length s) <? k) eqn:Hbig; [discriminate|].
  intros [= <-]. rewrite string_drop_length. lia.
Qed.

Lemma strings_Index_range (s substr : string) :
  strings_Index s substr = -1 \/ 0 <= strings_Index s substr.
Proof.
  unfold strings_Index. destruct (String.index 0 substr s); lia.
Qed.

(** An occurrence is found at no index beyond the length of the body:
    every earlier occurrence takes at least one byte. *)
Lemma stringBetweenN_found_le (body bef aft : string) (occ : nat) (str : string) :
  stringBetweenN body bef aft occ = Returns (true, str) ->
  (occ <= String.length body)%nat.
Proof.
  revert body; induction occ as [|occ IH]; intros body; simpl; [lia|].
  destruct (strings_Index body bef =? -1) eqn:Hidx; [discriminate|].
  destruct (sliceFrom body (strings_Index body bef + len bef + 1)) as [rest| |] eqn:Hs;
    try discriminate.
  simpl. intros Hfound. apply IH in Hfound.
  apply sliceFrom_length in Hs. unfold len in *.
  destruct (strings_Index_range body bef); lia.
Qed.

Section ExtractionFacts.
Context `{RegexpLib}.

(** The check touches no field of the receiver but [MatchRegexp]. *)
Lemma checkConditions_fields (e e' : Extractable) (bet : string) (err : option error) :
  checkConditions e bet = (e', err) ->
  AfterThis e' = AfterThis e /\ BeforeThis e' = BeforeThis e /\ Name e' = Name e /\
  Iterate e' = Iterate e /\ MaxLength e' = MaxLength e /\ MinLength e' = MinLength e /\
  IgnoreNotFound e' = IgnoreNotFound e /\ Again e' = Again e.
Proof.
  unfold checkConditions.
  repeat match goal with
         | |- context [if ?b then _ else _] => destruct b
         | |- context [let '(_, _) := ?p in _] => destruct p
         end; intros [= <- <-]; simpl; repeat split; reflexivity.
Qed.

(** One iteration of the loop of [Extract], at the index [i]. *)
Lemma ExtractFrom_unfold again (e : Extractable) (body : string) (i : nat) :
  ExtractFrom again e body i =
  '(found, bet) ← stringBetweenN body (AfterThis e) (BeforeThis e) i;
  if negb found then
    if IgnoreNotFound e then Returns (Name e, "", None)
    else Returns (Name e, "", Some (errorString "not found"))
  else
    let '(e, err) := checkConditions e bet in
    match err with
    | Some err =>
        if Iterate e then ExtractFrom again e body (S i)
        else if IgnoreNotFound e then Returns (Name e, "", None)
        else Returns (Name e, "", Some err)
    | None =>
        match again with
        | Some extractAgain => extractAgain bet
        | None => Returns (Name e, bet, None)
        end
    end.
Proof.
  unfold ExtractFrom. cbn [ExtractLoop].
  destruct (stringBetweenN body (AfterThis e) (BeforeThis e) i)
    as [[found bet]| |] eqn:Hsb; [|reflexivity..].
  destruct found; [|reflexivity].
  pose proof (stringBetweenN_found_le _ _ _ _ _ Hsb) as Hle.
  replace (S (String.length body) - i)%nat
    with (S (S (String.length body) - S i))%nat by lia.
  reflexivity.
Qed.

Lemma Extract_unfold (e : Extractable) (body : string) (v : option (gmap string Value)) :
  Extract e body v = ExtractFrom (againOf e v) e body 0.
Proof. destruct e as [? ? ? ? ? ? ? ? [a|]]; reflexivity. Qed.

Lemma setMatchRegexp_same (e : Extractable) : setMatchRegexp e (MatchRegexp e) = e.
Proof. destruct e; reflexivity. Qed.

Lemma setMatchRegexp_twice (e : Extractable) (p q : string) :
  setMatchRegexp (setMatchRegexp e p) q = setMatchRegexp e q.
Proof. reflexivity. Qed.

Lemma lastByte_cons (c : ascii) (p : string) :
  p <> "" -> lastByte (String c p) = lastByte p.
Proof. destruct p; [congruence|reflexivity]. Qed.

(** The receiver's copy after the two anchoring assignments holds the
    pattern [anchored]. *)
Lemma anchoring (e : Extractable) :
  MatchRegexp e <> "" ->
  (let e1 := if negb (bool_decide (firstByte (MatchRegexp e) = Some "^"%char))
             then setMatchRegexp e ("^" +:+ MatchRegexp e) else e in
   if negb (bool_decide (lastByte (MatchRegexp e1) = Some "$"%char))
   then setMatchRegexp e1 (MatchRegexp e1 +:+ "$") else e1)
  = setMatchRegexp e (anchored (MatchRegexp e)).
Proof.
  intros Hne. unfold anchored. cbv zeta.
  destruct (bool_decide (firstByte (MatchRegexp e) = Some "^"%char)) eqn:Hf;
    cbn [negb MatchRegexp setMatchRegexp].
  - destruct (bool_decide (lastByte (MatchRegexp e) = Some "$"%char));
      cbn [negb]; [symmetry; apply setMatchRegexp_same|reflexivity].
  - change (lastByte ("^" +:+ MatchRegexp e)) with (lastByte (String "^" (MatchRegexp e))).
    rewrite (lastByte_cons _ _ Hne).
    destruct (bool_decide (lastByte (MatchRegexp e) = Some "$"%char)); reflexivity.
Qed.

Lemma not_tooLong (e : Extractable) (bet : string) :
  ~ tooLong e bet -> negb (MaxLength e =? -1) && (MaxLength e <? len bet) = false.
Proof.
  unfold tooLong. intros Hn.
  destruct (MaxLength e =? -1) eqn:E1; [reflexivity|simpl].
  destruct (MaxLength e <? len bet) eqn:E2; [|reflexivity].
  exfalso. apply Hn. split; lia.
Qed.

Lemma not_tooShort (e : Extractable) (bet : string) :
  ~ tooShort e bet -> negb (MinLength e =? -1) && (len bet <? MinLength e) = false.
Proof.
  unfold tooShort. intros Hn.
  destruct (MinLength e =? -1) eqn:E1; [reflexivity|simpl].
  destruct (len bet <? MinLength e) eqn:E2; [|reflexivity].
  exfalso. apply Hn. split; lia.
Qed.

Lemma is_tooLong (e : Extractable) (bet : string) :
  tooLong e bet -> negb (MaxLength e =? -1) && (MaxLength e <? len bet) = true.
Proof.
  intros [H1 H2]. apply andb_true_iff. split; [apply negb_true_iff|]; lia.
Qed.

Lemma is_tooShort (e : Extractable) (bet : string) :
  tooShort e bet -> negb (MinLength e =? -1) && (len bet <? MinLength e) = true.
Proof.
  intros [H1 H2]. apply andb_true_iff. split; [apply negb_true_iff|]; lia.
Qed.

Lemma string_eqb_empty (s : string) : (s =? "")%string = false <-> s <> "".
Proof. apply String.eqb_neq. Qed.

(** The check of a candidate within the length bounds, when a pattern is
    set: the pattern is anchored, and the candidate passes exactly when
    [regexp.Match] says that it matched.  The error [err2] of
    [regexp.Match] is never looked at: the test before [err = err2] reads
    [err], which is [nil] there. *)
Lemma checkConditions_regex (e : Extractable) (bet : string) :
  ~ tooLong e bet -> ~ tooShort e bet -> MatchRegexp e <> "" ->
  checkConditions e bet =
    (setMatchRegexp e (anchored (MatchRegexp e)),
     if fst (regexp_Match (anchored (MatchRegexp e)) bet) then None
     else Some (regexError e bet)).
Proof.
  intros HL HS Hne. unfold checkConditions.
  rewrite (not_tooLong _ _ HL), (not_tooShort _ _ HS).
  apply string_eqb_empty in Hne as Hne'. rewrite Hne'. cbn [negb].
  pose proof (anchoring e Hne) as Ha. cbv zeta in Ha. rewrite Ha. clear Ha.
  cbn [MatchRegexp setMatchRegexp].
  destruct (regexp_Match (anchored (MatchRegexp e)) bet) as [mat err2].
  cbn [fst]. rewrite bool_decide_eq_false_2 by (intros Hc; apply Hc; reflexivity).
  destruct mat; reflexivity.
Qed.

Lemma checkConditions_no_pattern (e : Extractable) (bet : string) :
  ~ tooLong e bet -> ~ tooShort e bet -> MatchRegexp e = "" ->
  checkConditions e bet = (e, None).
Proof.
  intros HL HS He. unfold checkConditions.
  rewrite (not_tooLong _ _ HL), (not_tooShort _ _ HS), He. reflexivity.
Qed.

End ExtractionFacts.

(** *** [stringBetweenN] *)

(** The test [TestStringBetweenN] of the repository: on its body, the
    occurrence [i] is the text of the number [i], for [i] from 0 to 10. *)
Lemma TestStringBetweenN :
  Forall (fun i : nat =>
            stringBetweenN testBody "-[" ("]" +:+ newline) i = Returns (true, pretty i)
            /\ betweenN testBody "-[" ("]" +:+ newline) i = (true, pretty i))
         (seq 0 11).
Proof. repeat constructor. Qed.

(** At the occurrence 0 the code is the specification. *)
Lemma stringBetweenN_first (body bef aft : string) :
  stringBetweenN body bef aft 0 = Returns (betweenN body bef aft 0).
Proof. reflexivity. Qed.

(** X3: whenever the first [bef] of the body ends the body, asking for a
    later occurrence panics: the search goes on from one byte after the
    delimiter, [body[befIndex+len(bef)+1:]], which is out of range. *)
Lemma stringBetweenN_slice_out_of_range (body bef aft : string) (occ : nat) :
  strings_Index body bef <> -1 ->
  strings_Index body bef + len bef = len body ->
  stringBetweenN body bef aft (S occ) = Panics.
Proof.
  intros Hidx Hend. simpl.
  destruct (strings_Index body bef =? -1) eqn:E; [lia|].
  unfold sliceFrom. rewrite Hend.
  destruct (len body + 1 <? 0) eqn:E1; [reflexivity|].
  destruct (len body <? len body + 1) eqn:E2; [reflexivity|lia].
Qed.

(** C1, at the failing input: the body ["-["] holds no match, and asking
    for the occurrence 1 between ["-["] and ["]"] does not report
    not-found: the call panics, before [StringBetween] is reached. *)
Theorem stringBetweenN_trailing_delimiter_panics :
  stringBetweenN "-[" "-[" "]" 1 = Panics.
Proof. reflexivity. Qed.

(** The same off-by-one byte on a body with two matches: the second
    ["-["] follows the first at once; the occurrence 1 is ["x"] in the
    words of the specification, and the code does not find it. *)
Lemma stringBetweenN_skips_a_byte :
  betweenN "-[-[x]" "-[" "]" 0 = (true, "-[x")
  /\ betweenN "-[-[x]" "-[" "]" 1 = (true, "x")
  /\ stringBetweenN "-[-[x]" "-[" "]" 0 = Returns (true, "-[x")
  /\ stringBetweenN "-[-[x]" "-[" "]" 1 = Returns (false, "").
Proof. repeat split. Qed.

(** *** [Extract] *)

Lemma stringBetweenN_not_stuck (body bef aft : string) (occ : nat) :
  stringBetweenN body bef aft occ <> Stuck.
Proof.
  revert body; induction occ as [|occ IH]; intros body; simpl; [discriminate|].
  destruct (strings_Index body bef =? -1); [discriminate|].
  unfold sliceFrom.
  destruct ((strings_Index body bef + len bef + 1 <? 0)
            || (len body <? strings_Index body bef + len bef + 1)); simpl;
    [discriminate|apply IH].
Qed.

Section ExtractTheorems.
Context `{RegexpLib}.

Lemma ExtractFrom_not_stuck (n : nat) again (e : Extractable) (body : string) (i : nat) :
  (S (S (String.length body)) - i <= n)%nat ->
  (forall g bet, again = Some g -> g bet <> Stuck) ->
  ExtractFrom again e body i <> Stuck.
Proof.
  revert e i; induction n as [|n IH]; intros e i Hn Hag;
    rewrite ExtractFrom_unfold;
    destruct (stringBetweenN body (AfterThis e) (BeforeThis e) i)
      as [[[] bet]| |] eqn:Hsb; simpl;
    try discriminate;
    try (destruct (IgnoreNotFound e); discriminate);
    try (exfalso; exact (stringBetweenN_not_stuck _ _ _ _ Hsb));
    apply stringBetweenN_found_le in Hsb.
  - lia.
  - destruct (checkConditions e bet) as [e' [err|]].
    + destruct (Iterate e'); [apply IH; [lia|exact Hag]|].
      destruct (IgnoreNotFound e'); discriminate.
    + destruct again as [g|]; [apply (Hag g); reflexivity|discriminate].
Qed.

(** X1: [Extract] returns or panics: its loop [for i := 0; ; i++] ends,
    at the latest when the occurrence index passes the length of the
    body. *)
Theorem Extract_returns_or_panics (e : Extractable) (body : string)
    (v : option (gmap string Value)) :
  Extract e body v <> Stuck.
Proof.
  revert e body. fix IH 1. intros e body. rewrite Extract_unfold.
  apply (ExtractFrom_not_stuck (S (S (String.length body)))); [lia|].
  intros g bet. unfold againOf. destruct e as [? ? ? ? ? ? ? ? [a|]]; simpl;
    [|discriminate].
  intros [= <-]. apply IH.
Qed.

(** C2: the constraints on a candidate [bet] are checked in the order
    max length (when [MaxLength] is not [-1]), min length (when [MinLength]
    is not [-1]), regex (when [MatchRegexp] is not empty, against the
    pattern with [^] and [$] put where they are missing), the check stops
    at the first one that is violated, and the error names that one; it is
    the error that [Extract] returns when it neither iterates nor ignores.
    ([Extract] is its loop from the index 0 on.) *)
Theorem Extract_constraint_order (e : Extractable) (bet : string) :
  (tooLong e bet -> checkConditions e bet = (e, Some (maxLengthError e bet)))
  /\ (~ tooLong e bet -> tooShort e bet ->
      checkConditions e bet = (e, Some (minLengthError e bet)))
  /\ (~ tooLong e bet -> ~ tooShort e bet -> noMatch e bet ->
      checkConditions e bet =
        (setMatchRegexp e (anchored (MatchRegexp e)), Some (regexError e bet)))
  /\ (~ tooLong e bet -> ~ tooShort e bet -> ~ noMatch e bet ->
      snd (checkConditions e bet) = None)
  /\ (forall again body i e' err,
        stringBetweenN body (AfterThis e) (BeforeThis e) i = Returns (true, bet) ->
        checkConditions e bet = (e', Some err) ->
        Iterate e = false -> IgnoreNotFound e = false ->
        ExtractFrom again e body i = Returns (Name e, "", Some err))
  /\ (forall body v, Extract e body v = ExtractFrom (againOf e v) e body 0).
Proof.
  split; [|split; [|split; [|split; [|split]]]]; [..|apply Extract_unfold].
  - intros HL. unfold checkConditions. rewrite (is_tooLong _ _ HL). reflexivity.
  - intros HL HS. unfold checkConditions.
    rewrite (not_tooLong _ _ HL), (is_tooShort _ _ HS). reflexivity.
  - intros HL HS [Hne Hno]. rewrite (checkConditions_regex _ _ HL HS Hne), Hno.
    reflexivity.
  - intros HL HS Hno.
    destruct (String.eqb_spec (MatchRegexp e) "") as [He|Hne].
    + rewrite (checkConditions_no_pattern _ _ HL HS He). reflexivity.
    + rewrite (checkConditions_regex _ _ HL HS Hne).
      destruct (fst (regexp_Match (anchored (MatchRegexp e)) bet)) eqn:Hm;
        [reflexivity|].
      exfalso. apply Hno. split; assumption.
  - intros again body i e' err Hsb Hck Hit Hig.
    rewrite ExtractFrom_unfold, Hsb. simpl. rewrite Hck.
    apply checkConditions_fields in Hck as (_ & _ & -> & -> & _ & _ & -> & _).
    rewrite Hit, Hig. reflexivity.
Qed.

(** C9, what the code does with a pattern that does not compile.
    [regexp.Match] answers [false] with its error [err2].  The code means
    to take the error up ([err = err2]), but guards the assignment with
    [err != nil], which tests the [err] of the constraints, [nil] there, so
    the assignment is never made.  The branch [!mat] runs instead: the
    candidate is turned down with the "not matched" error of the regex
    constraint, and [err2] is lost.  [Extract] then goes on at the next
    index if [Iterate], returns [(Name, "", nil)] if [IgnoreNotFound], and
    returns the "not matched" error otherwise; it never returns the
    candidate.  ([Extract] is its loop from the index 0 on.) *)
Theorem Extract_invalid_pattern_is_no_match (e : Extractable) (bet : string)
    (err2 : error) :
  ~ tooLong e bet -> ~ tooShort e bet -> MatchRegexp e <> "" ->
  regexp_Compile (anchored (MatchRegexp e)) = inr err2 ->
  checkConditions e bet =
    (setMatchRegexp e (anchored (MatchRegexp e)), Some (regexError e bet))
  /\ (forall again body i,
       stringBetweenN body (AfterThis e) (BeforeThis e) i = Returns (true, bet) ->
       ExtractFrom again e body i =
         if Iterate e
         then ExtractFrom again (setMatchRegexp e (anchored (MatchRegexp e))) body (S i)
         else if IgnoreNotFound e then Returns (Name e, "", None)
         else Returns (Name e, "", Some (regexError e bet)))
  /\ (forall body v, Extract e body v = ExtractFrom (againOf e v) e body 0).
Proof.
  intros HL HS Hne Hc.
  assert (Hck : checkConditions e bet =
                (setMatchRegexp e (anchored (MatchRegexp e)), Some (regexError e bet))).
  { rewrite (checkConditions_regex _ _ HL HS Hne).
    unfold regexp_Match. rewrite Hc. reflexivity. }
  split; [exact Hck|]. split; [|apply Extract_unfold].
  intros again body i Hsb. rewrite ExtractFrom_unfold, Hsb. simpl. rewrite Hck.
  reflexivity.
Qed.

End ExtractTheorems.

(** ** The substitution layer and the request *)

Section StepTheorems.
Context `{Libs}.

Lemma replaceInString_error (vals : option (gmap string Value)) (str : string) (err : error) :
  replaceInString vals str = inr err -> templateFails "replacement" str vals err.
Proof.
  unfold replaceInString, templateFails.
  destruct (template_Parse "replacement" str) as [tpl|e] eqn:Hp.
  - intros He. right. exists tpl. split; [reflexivity|exact He].
  - intros [= ->]. left. reflexivity.
Qed.

(** The loop over a form returns no error but the template library's, put
    behind the step. *)
Lemma replaceInValues_error vals stepNb name (t tmp : MultiMap) bod bod' err :
  replaceInValues vals stepNb name t tmp bod = Returns (bod', Some err) ->
  exists text e, templateFails "replacement" text vals e /\
                 err = stepError stepNb name (Error e).
Proof.
  revert tmp bod; induction t as [|[k v] t IH]; intros tmp bod; simpl; [discriminate|].
  destruct (replaceInString vals k) as [newK|e] eqn:Hk.
  - destruct (lastValue v) as [x| |]; simpl; try discriminate.
    destruct (replaceInString vals x) as [newV|e] eqn:Hv.
    + apply IH.
    + intros [= <- <-]. exists x, e. split; [|reflexivity].
      apply replaceInString_error, Hv.
  - intros [= <- <-]. exists k, e. split; [|reflexivity].
    apply replaceInString_error, Hk.
Qed.

Lemma replaceInHeaderKeys_error name vals keys (h h' : MultiMap) err :
  replaceInHeaderKeys name vals keys h = (h', Some err) ->
  exists text, templateFails name text vals err.
Proof.
  revert h; induction keys as [|k keys IH]; intros h; simpl; [discriminate|].
  destruct (template_Parse name (Header_Get h k)) as [tpl|e] eqn:Hp.
  - destruct (template_Execute tpl vals) as [output|e] eqn:He.
    + apply IH.
    + intros [= <- <-]. exists (Header_Get h k). right. exists tpl. split; assumption.
  - intros [= <- <-]. exists (Header_Get h k). left. exact Hp.
Qed.

(** C4, as the code has it.  A body that is a string or bytes, of a step
    with input keys: when the template resolves to the very text of the
    body, [ReplaceInBody] fails with the explicit error.  A form, the URL
    and the header: their substitution returns no error but one of the
    template library, so an output equal to the input is no failure.  A
    step without input keys: the body is not substituted at all. *)
Theorem ReplaceInBody_same_output (s : Step) (vals : option (gmap string Value))
    (stepNb : Z) :
  (forall t,
     KeysInput s <> [] ->
     Body (Step_Request s) = StringBody t \/ Body (Step_Request s) = BytesBody t ->
     templateGives "replacement" t vals t ->
     ReplaceInBody s vals stepNb =
       Returns (s, Some (nothingReplaced stepNb (Step_Name s))))
  /\ (forall t s' err,
        Body (Step_Request s) = ValuesBody t ->
        ReplaceInBody s vals stepNb = Returns (s', Some err) ->
        exists text e, templateFails "replacement" text vals e /\
                       err = stepError stepNb (Step_Name s) (Error e))
  /\ (KeysInput s = [] -> ReplaceInBody s vals stepNb = Returns (s, None))
  /\ (forall output,
        templateGives (Step_Name s) (URL (Step_Request s)) vals output ->
        ReplaceInURL s vals stepNb =
          (setRequest s (setURL (Step_Request s) output), None))
  /\ (forall s' err,
        ReplaceInHeader s vals stepNb = (s', Some err) ->
        exists text, templateFails (Step_Name s) text vals err).
Proof.
  split; [|split; [|split; [|split]]].
  - intros t Hkeys Hbody (tpl & Hp & He). unfold ReplaceInBody.
    destruct (KeysInput s) as [|k keys]; [congruence|]. cbn [length Nat.eqb negb andb].
    assert (Hr : replaceInBytes vals t =
                 inr (errorString "didn't replace anything in request, but should have")).
    { unfold replaceInBytes. rewrite Hp, He, String.eqb_refl. reflexivity. }
    destruct Hbody as [-> | ->]; cbn [notNil]; rewrite Hr; reflexivity.
  - intros t s' err Hbody. unfold ReplaceInBody. rewrite Hbody.
    destruct (negb (length (KeysInput s) =? 0)%nat && notNil (ValuesBody t)); [|discriminate].
    destruct (replaceInValues vals stepNb (Step_Name s) t [] None)
      as [[bod [e|]]| |] eqn:Hv; simpl; try discriminate.
    + intros [= <- <-]. exact (replaceInValues_error _ _ _ _ _ _ _ _ Hv).
    + destruct bod; discriminate.
  - intros Hkeys. unfold ReplaceInBody. rewrite Hkeys. reflexivity.
  - intros output (tpl & Hp & He). unfold ReplaceInURL. rewrite Hp, He. reflexivity.
  - intros s' err. unfold ReplaceInHeader.
    destruct (replaceInHeaderKeys (Step_Name s) vals (map fst (Header (Step_Request s)))
                (Header (Step_Request s))) as [h e] eqn:Hh.
    intros [= <- ->]. exact (replaceInHeaderKeys_error _ _ _ _ _ _ Hh).
Qed.

(** C8, the code at the failing inputs: [Do] asserts that a body that is
    not [nil] is a [[]byte], so a request whose body is still a string or
    a form panics, and nothing goes to the client. *)
Theorem Do_panics_unless_bytes (u m : string) (h : MultiMap) (ig : bool)
    (jar : Jar) (w : World) :
  (forall t, Do (mkRequest u m h (StringBody t) ig) jar w = (w, None, Panics))
  /\ (forall t, Do (mkRequest u m h (ValuesBody t) ig) jar w = (w, None, Panics)).
Proof. split; reflexivity. Qed.

(** Such a body reaches [Do] whenever the step declares no input keys:
    [ReplaceInBody] turns a body into bytes only inside its test
    [len(s.KeysInput) != 0]. *)
Lemma ReplaceInBody_keeps_body_without_keys (s : Step)
    (vals : option (gmap string Value)) (stepNb : Z) :
  KeysInput s = [] -> ReplaceInBody s vals stepNb = Returns (s, None).
Proof. intros Hk. unfold ReplaceInBody. rewrite Hk. reflexivity. Qed.

End StepTheorems.

(** ** The flow orchestrator *)


Lemma isEmptyString_true (v : Value) : isEmptyString v = true <-> v = VString "".
Proof.
  destruct v as [s|s]; simpl; [|split; discriminate].
  rewrite String.eqb_eq. split; [intros ->; reflexivity|intros [= ->]; reflexivity].
Qed.

(** The loop over the required keys returns at the first key that is
    absent or empty. *)
Lemma missingKey_Some (values : option (gmap string Value)) (keys : list string) (k : string) :
  missingKey values keys = Some k <->
  exists pre post, keys = pre ++ k :: post /\ absentOrEmpty values k /\
                   forall k', In k' pre -> ~ absentOrEmpty values k'.
Proof.
  revert k; induction keys as [|k0 keys IH]; intros k; simpl.
  - split; [discriminate|]. intros (pre & post & Hk & _). destruct pre; discriminate.
  - destruct (lookupValue values k0) as [v|] eqn:Hl.
    + destruct (isEmptyString v) eqn:Hv.
      * apply isEmptyString_true in Hv as ->. split.
        -- intros [= <-]. exists [], keys. repeat split; [right; exact Hl|intros ? []].
        -- intros ([|k1 pre] & post & Hk & Hab & Hpre); simpl in Hk.
           ++ congruence.
           ++ injection Hk as <- _. exfalso. apply (Hpre k0); [left; reflexivity|].
              right. exact Hl.
      * rewrite IH. split.
        -- intros (pre & post & -> & Hab & Hpre). exists (k0 :: pre), post.
           repeat split; [exact Hab|]. intros k' [<-|Hin]; [|apply Hpre, Hin].
           intros [Hc|Hc]; [congruence|]. rewrite Hl in Hc. injection Hc as ->.
           discriminate Hv.
        -- intros ([|k1 pre] & post & Hk & Hab & Hpre); simpl in Hk.
           ++ injection Hk as <- _. exfalso. destruct Hab as [Hc|Hc]; [congruence|].
              rewrite Hl in Hc. injection Hc as ->. discriminate Hv.
           ++ injection Hk as <- ->. exists pre, post.
              repeat split; [exact Hab|]. intros k' Hin. apply Hpre. right. exact Hin.
    + split.
      * intros [= <-]. exists [], keys. repeat split; [left; exact Hl|intros ? []].
      * intros ([|k1 pre] & post & Hk & Hab & Hpre); simpl in Hk.
        -- congruence.
        -- injection Hk as <- _. exfalso. apply (Hpre k0); [left; reflexivity|].
           left. exact Hl.
Qed.

Lemma missingKey_None (values : option (gmap string Value)) (keys : list string) :
  missingKey values keys = None <-> forall k, In k keys -> ~ absentOrEmpty values k.
Proof.
  induction keys as [|k0 keys IH]; simpl.
  - split; [intros _ ? []|reflexivity].
  - destruct (lookupValue values k0) as [v|] eqn:Hl.
    + destruct (isEmptyString v) eqn:Hv.
      * apply isEmptyString_true in Hv as ->. split; [discriminate|].
        intros Hall. exfalso. apply (Hall k0); [left; reflexivity|right; exact Hl].
      * rewrite IH. split.
        -- intros Hall k [<-|Hin]; [|apply Hall, Hin].
           intros [Hc|Hc]; [congruence|]. rewrite Hl in Hc. injection Hc as ->.
           discriminate Hv.
        -- intros Hall k Hin. apply Hall. right. exact Hin.
    + split; [discriminate|].
      intros Hall. exfalso. apply (Hall k0); [left; reflexivity|left; exact Hl].
Qed.

Section FlowTheorems.
Context `{Libs}.

(** C5: when a key of [RequiredValues] is absent from the supplied map or
    maps to the empty string, [Execute] returns the missing-value error of
    the first such key, with nothing in front; it has run no step and
    sent no request: the flow and the world are as they were. *)
Theorem Execute_missing_required_value (f : Flow) (values : option (gmap string Value))
    (w : World) (k0 : string) :
  In k0 (RequiredValues f) -> absentOrEmpty values k0 ->
  exists k pre post,
    RequiredValues f = pre ++ k :: post
    /\ absentOrEmpty values k
    /\ (forall k', In k' pre -> ~ absentOrEmpty values k')
    /\ Execute f values w = (mkExec f w [], Returns (Some (MissingValueError "" k)))
    /\ Error (MissingValueError "" k) = "Missing or empty key value: " +:+ k.
Proof.
  intros Hin Hab.
  destruct (missingKey values (RequiredValues f)) as [k|] eqn:Hm.
  - destruct (proj1 (missingKey_Some _ _ _) Hm) as (pre & post & Hk & Hk' & Hpre).
    exists k, pre, post. repeat split; try assumption.
    unfold Execute. rewrite Hm. reflexivity.
  - exfalso. exact (proj1 (missingKey_None _ _) Hm k0 Hin Hab).
Qed.

(** *** Which errors name the step *)






(** *** The value store only grows *)

Lemma putAll_app (m : gmap string Value) (ws ws' : list (string * string)) :
  putAll m (ws ++ ws') = putAll (putAll m ws) ws'.
Proof. apply fold_left_app. Qed.

Lemma storeGrows_refl (values : option (gmap string Value)) : storeGrows values values.
Proof. destruct values as [m|]; simpl; [exists []; reflexivity|exact I]. Qed.

Lemma storeGrows_trans (a b c : option (gmap string Value)) :
  storeGrows a b -> storeGrows b c -> storeGrows a c.
Proof.
  destruct a as [ma|], b as [mb|], c as [mc|]; simpl; try tauto.
  intros [ws ->] [ws' ->]. exists (ws ++ ws'). symmetry. apply putAll_app.
Qed.

Lemma putAll_keys (m : gmap string Value) (ws : list (string * string)) :
  dom m ⊆ dom (putAll m ws).
Proof.
  revert m; induction ws as [|[n s] ws IH]; intros m; simpl; [reflexivity|].
  etrans; [|apply IH]. rewrite dom_insert_L. set_solver.
Qed.

(** No key is removed, and a key that no assignment names keeps its value. *)
Lemma storeGrows_keys (a b : option (gmap string Value)) :
  storeGrows a b -> storeKeys a ⊆ storeKeys b.
Proof.
  destruct a as [ma|], b as [mb|]; simpl; try tauto; [|set_solver].
  intros [ws ->]. apply putAll_keys.
Qed.

Lemma extractAll_grows (i : Z) (name body : string) (outs : list Extracter)
    values values' res :
  extractAll i name body outs values = (values', res) -> storeGrows values values'.
Proof.
  revert values; induction outs as [|extract outs IH]; intros values; simpl.
  - intros [= <- _]. apply storeGrows_refl.
  - destruct (Extracter_Extract extract body values) as [[[n s] [e|]]| |];
      try (intros [= <- _]; apply storeGrows_refl).
    destruct (n =? "")%string; [intros [= <- _]; apply storeGrows_refl|].
    destruct values as [m|]; [|intros [= <- _]; exact I].
    intros Hx. apply IH in Hx. eapply storeGrows_trans; [|exact Hx].
    exists [(n, s)]. reflexivity.
Qed.

(** An iteration of the loop over the steps writes the store through the
    assignments of its extraction results only. *)
Lemma runStep_grows (jar : Jar) (i : nat) (step : Step) (st st' : Exec) res :
  runStep jar i step st = (st', res) ->
  storeGrows (Values (flow st)) (Values (flow st')).
Proof.
  unfold runStep.
  destruct (missingKey _ _); [intros [= <- _]; apply storeGrows_refl|].
  destruct (SanityCheck _ _) as [[e|]| |];
    try (intros [= <- _]; apply storeGrows_refl).
  destruct (ReplaceInBody _ _ _) as [[step1 [e|]]| |];
    try (intros [= <- _]; apply storeGrows_refl).
  destruct (ReplaceInHeader _ _ _) as [step2 [e|]];
    [intros [= <- _]; apply storeGrows_refl|].
  cbn [Values setSteps world sent].
  destruct (ReplaceInURL _ _ _) as [step3 [e|]];
    [intros [= <- _]; apply storeGrows_refl|].
  destruct (Do _ _ _) as [[w req] res0].
  destruct res0 as [[resp|e]| |];
    try (intros [= <- _]; apply storeGrows_refl).
  destruct (if (Header_Get (resp_Header resp) "Content-Encoding" =? "gzip")%string
            then _ else _) as [resp'|e];
    [|intros [= <- _]; apply storeGrows_refl].
  destruct (ioutil_ReadAll _) as [body [e|]];
    [intros [= <- _]; apply storeGrows_refl|].
  destruct (extractAll _ _ _ _ _) as [values res1] eqn:Hx.
  apply extractAll_grows in Hx.
  destruct res1 as [[e|]| |]; try (intros [= <- _]; exact Hx).
  destruct (PostHook _) as [hook|]; [|intros [= <- _]; exact Hx].
  destruct (hook _ _ _); intros [= <- _]; exact Hx.
Qed.

Lemma runSteps_grows (jar : Jar) (steps : list Step) (i : nat) (st st' : Exec) res :
  runSteps jar i steps st = (st', res) ->
  storeGrows (Values (flow st)) (Values (flow st')).
Proof.
  revert i st; induction steps as [|step steps IH]; intros i st; simpl.
  - intros [= <- _]. apply storeGrows_refl.
  - destruct (runStep jar i step st) as [st1 r] eqn:Hs.
    apply runStep_grows in Hs.
    destruct r as [[e|]| |]; try (intros [= <- _]; exact Hs).
    intros Hr. apply IH in Hr. eapply storeGrows_trans; eassumption.
Qed.

(** The loop over the steps [pre ++ post], when the steps [pre] end
    without an error, is the loop over [post] from the state they leave. *)
Lemma runSteps_app (jar : Jar) (pre post : list Step) (i : nat) (st st1 : Exec) :
  runSteps jar i pre st = (st1, Returns None) ->
  runSteps jar i (pre ++ post) st = runSteps jar (i + length pre) post st1.
Proof.
  revert i st; induction pre as [|step pre IH]; intros i st; simpl.
  - intros [= <-]. rewrite Nat.add_0_r. reflexivity.
  - destruct (runStep jar i step st) as [st2 [[e|]| |]]; try discriminate.
    intros Hr. rewrite (IH _ _ Hr). f_equal. lia.
Qed.

Lemma Execute_start (f : Flow) (values : option (gmap string Value)) (w : World)
    (jar : Jar) (st0 : Exec) :
  startOf f values w = Some (jar, st0) ->
  Values (flow st0) = values /\ Execute f values w = runSteps jar 0 (Steps f) st0.
Proof.
  unfold startOf, Execute.
  destruct (missingKey values (RequiredValues f)); [discriminate|].
  cbn [CookieJar setValues].
  destruct (CookieJar f) as [j|].
  - intros [= <- <-]. split; reflexivity.
  - destruct cookiejar_New as [j|e]; [|discriminate].
    intros [= <- <-]. split; reflexivity.
Qed.

(** C10: once the supplied map is installed, a run of [Execute] writes the
    value store through the assignments of extraction results only, so no
    key is ever removed.  In particular, whatever way the run ends (an
    error at a step, a panic, or the last step done), the store at the end
    holds every key that it held when the step [length pre] began: the
    supplied keys and the keys extracted by the steps before. *)
Theorem Execute_store_grows (f : Flow) (values : option (gmap string Value))
    (w : World) (jar : Jar) (st0 : Exec) :
  startOf f values w = Some (jar, st0) ->
  Values (flow st0) = values
  /\ forall pre post st1,
       Steps f = pre ++ post ->
       runSteps jar 0 pre st0 = (st1, Returns None) ->
       storeGrows values (Values (flow st1))
       /\ storeGrows (Values (flow st1)) (Values (flow (fst (Execute f values w))))
       /\ storeKeys values ⊆ storeKeys (Values (flow st1))
       /\ storeKeys (Values (flow st1)) ⊆ storeKeys (Values (flow (fst (Execute f values w)))).
Proof.
  intros Hstart. destruct (Execute_start _ _ _ _ _ Hstart) as [Hv He].
  split; [exact Hv|]. intros pre post st1 Hsteps Hpre.
  assert (H1 : storeGrows values (Values (flow st1))).
  { rewrite <- Hv. exact (runSteps_grows _ _ _ _ _ _ Hpre). }
  assert (H2 : storeGrows (Values (flow st1)) (Values (flow (fst (Execute f values w))))).
  { rewrite He, Hsteps, (runSteps_app _ _ _ _ _ _ Hpre).
    destruct (runSteps jar (0 + length pre) post st1) as [st res] eqn:Hr.
    exact (runSteps_grows _ _ _ _ _ _ Hr). }
  repeat split; [exact H1|exact H2|apply storeGrows_keys, H1|apply storeGrows_keys, H2].
Qed.

End FlowTheorems.

(** ** Cloning *)

Lemma alloc_spec (h h' : Mem.heap) (o : Mem.object) (p : Mem.loc) :
  Mem.alloc h o = (p, h') ->
  h !! p = None /\ h' = <[p := o]> h /\ h ⊆ h' /\ h' !! p = Some o.
Proof.
  unfold Mem.alloc. intros [= <- <-].
  assert (Hp : h !! fresh (dom h) = None).
  { apply not_elem_of_dom. apply is_fresh. }
  repeat split; [exact Hp|apply insert_subseteq, Hp|apply lookup_insert_eq].
Qed.

Lemma fresh_none (h : Mem.heap) : h !! fresh (dom h) = None.
Proof. apply not_elem_of_dom. apply is_fresh. Qed.

Lemma subseteq_none (h h' : Mem.heap) (q : Mem.loc) :
  h ⊆ h' -> h' !! q = None -> h !! q = None.
Proof.
  intros Hsub Hq. destruct (h !! q) as [o|] eqn:Ho; [|reflexivity].
  rewrite (lookup_weaken _ _ _ _ Ho Hsub) in Hq. discriminate.
Qed.

Lemma keeps_refl (h : Mem.heap) : keeps h h.
Proof. intros q o Hq _. exact Hq. Qed.

Lemma keeps_trans (h1 h2 h3 : Mem.heap) : keeps h1 h2 -> keeps h2 h3 -> keeps h1 h3.
Proof. intros H12 H23 q o Hq Ho. apply H23; [apply H12|]; assumption. Qed.

Lemma subseteq_keeps (h h' : Mem.heap) : h ⊆ h' -> keeps h h'.
Proof. intros Hsub q o Hq _. exact (lookup_weaken _ _ _ _ Hq Hsub). Qed.

(** Writing an array of steps over an array of steps keeps the rest. *)
Lemma insert_keeps (h : Mem.heap) (p : Mem.loc) (l l' : list Mem.Step) :
  h !! p = Some (Mem.StepArray l) -> keeps h (<[p := Mem.StepArray l']> h).
Proof.
  intros Hp q o Hq Ho. destruct (decide (p = q)) as [<-|Hne].
  - rewrite Hp in Hq. injection Hq as <-. exfalso. exact (Ho l eq_refl).
  - rewrite lookup_insert_ne by exact Hne. exact Hq.
Qed.

(** *** Loading, in a heap that keeps what was there *)

Lemma loadEntries_keeps (h h' : Mem.heap) (m : list (string * Mem.loc)) (mm : MultiMap) :
  keeps h h' -> Mem.loadEntries h m = Some mm -> Mem.loadEntries h' m = Some mm.
Proof.
  intros Hk. revert mm; induction m as [|[k p] m IH]; intros mm; simpl; [tauto|].
  destruct (h !! p) as [[l| | | |]|] eqn:Hp; try discriminate.
  destruct (Mem.loadEntries h m) as [mm0|]; [|discriminate].
  intros [= <-]. rewrite (Hk _ _ Hp) by discriminate. rewrite (IH _ eq_refl).
  reflexivity.
Qed.

Lemma loadMap_keeps (h h' : Mem.heap) (p : Mem.loc) (mm : MultiMap) :
  keeps h h' -> Mem.loadMap h p = Some mm -> Mem.loadMap h' p = Some mm.
Proof.
  intros Hk. unfold Mem.loadMap.
  destruct (h !! p) as [[| | |m|]|] eqn:Hp; try discriminate.
  rewrite (Hk _ _ Hp) by discriminate. apply loadEntries_keeps, Hk.
Qed.

Lemma loadHeader_keeps (h h' : Mem.heap) (p : option Mem.loc) (mm : MultiMap) :
  keeps h h' -> Mem.loadHeader h p = Some mm -> Mem.loadHeader h' p = Some mm.
Proof. destruct p as [p|]; simpl; [apply loadMap_keeps|tauto]. Qed.

Lemma mapLocs_keeps (h h' : Mem.heap) (p : Mem.loc) (mm : MultiMap) :
  keeps h h' -> Mem.loadMap h p = Some mm -> Mem.mapLocs h' p = Mem.mapLocs h p.
Proof.
  intros Hk. unfold Mem.loadMap, Mem.mapLocs.
  destruct (h !! p) as [[| | |m|]|] eqn:Hp; try discriminate.
  rewrite (Hk _ _ Hp) by discriminate. reflexivity.
Qed.

(** The entries by reference and by value have the same keys, and the
    slice of a key holds the values of the key. *)
Lemma loadEntries_keys (h : Mem.heap) (m : list (string * Mem.loc)) (mm : MultiMap) :
  Mem.loadEntries h m = Some mm -> map fst mm = map fst m.
Proof.
  revert mm; induction m as [|[k p] m IH]; intros mm; simpl.
  - intros [= <-]. reflexivity.
  - destruct (h !! p) as [[l| | | |]|]; try discriminate.
    destruct (Mem.loadEntries h m) as [mm0|]; [|discriminate].
    intros [= <-]. simpl. rewrite (IH _ eq_refl). reflexivity.
Qed.

Lemma loadEntries_get (h : Mem.heap) (m : list (string * Mem.loc)) (mm : MultiMap) (k : string) :
  Mem.loadEntries h m = Some mm ->
  match mm_get m k with
  | Some p => exists l, h !! p = Some (Mem.Strings l) /\ mm_get mm k = Some l
  | None => mm_get mm k = None
  end.
Proof.
  revert mm; induction m as [|[k0 p] m IH]; intros mm; simpl.
  - intros [= <-]. reflexivity.
  - destruct (h !! p) as [[l| | | |]|] eqn:Hp; try discriminate.
    destruct (Mem.loadEntries h m) as [mm0|]; [|discriminate].
    intros [= <-]. simpl. destruct (k0 =? k)%string.
    + exists l. split; [exact Hp|reflexivity].
    + apply IH. reflexivity.
Qed.

Lemma loadEntries_set (h : Mem.heap) (m : list (string * Mem.loc)) (mm : MultiMap)
    (k : string) (p : Mem.loc) (l : list string) :
  Mem.loadEntries h m = Some mm -> h !! p = Some (Mem.Strings l) ->
  Mem.loadEntries h (mm_set m k p) = Some (mm_set mm k l).
Proof.
  intros Hm Hp. revert mm Hm; induction m as [|[k0 p0] m IH]; intros mm; simpl.
  - intros [= <-]. simpl. rewrite Hp. reflexivity.
  - destruct (h !! p0) as [[l0| | | |]|] eqn:Hp0; try discriminate.
    destruct (Mem.loadEntries h m) as [mm0|] eqn:Hm0; [|discriminate].
    intros [= <-]. simpl. destruct (k0 =? k)%string; simpl.
    + rewrite Hp, Hm0. reflexivity.
    + rewrite Hp0, (IH _ eq_refl). reflexivity.
Qed.

(** The slices of the entries are where the heap holds something. *)
Lemma loadEntries_locs (h : Mem.heap) (m : list (string * Mem.loc)) (mm : MultiMap) :
  Mem.loadEntries h m = Some mm -> Forall (fun q => is_Some (h !! q)) (map snd m).
Proof.
  revert mm; induction m as [|[k p] m IH]; intros mm; simpl; [constructor|].
  destruct (h !! p) as [[l| | | |]|] eqn:Hp; try discriminate.
  destruct (Mem.loadEntries h m) as [mm0|]; [|discriminate].
  intros _. constructor; [rewrite Hp; eauto|eapply IH; reflexivity].
Qed.

Lemma mm_set_locs {V : Type} (P : V -> Prop) (m : list (string * V)) (k : string) (v : V) :
  Forall P (map snd m) -> P v -> Forall P (map snd (mm_set m k v)).
Proof.
  intros Hm Hv. induction m as [|[k0 v0] m IH]; simpl; [repeat constructor; exact Hv|].
  inversion Hm as [|? ? H0 Hrest]; subst.
  destruct (k0 =? k)%string; simpl; constructor; auto.
Qed.

Lemma loadEntries_agree (h h' : Mem.heap) (m : list (string * Mem.loc)) :
  Forall (fun q => h' !! q = h !! q) (map snd m) ->
  Mem.loadEntries h' m = Mem.loadEntries h m.
Proof.
  induction m as [|[k p] m IH]; simpl; [reflexivity|].
  intros Hall. inversion Hall as [|? ? Hp Hrest]; subst.
  rewrite Hp, (IH Hrest). reflexivity.
Qed.

(** *** Maps by value *)

Lemma mm_get_set_eq {V : Type} (m : list (string * V)) (k : string) (v : V) :
  mm_get (mm_set m k v) k = Some v.
Proof.
  induction m as [|[k0 v0] m IH]; simpl; [rewrite String.eqb_refl; reflexivity|].
  destruct (k0 =? k)%string eqn:E; simpl; [rewrite String.eqb_refl; reflexivity|].
  rewrite E. exact IH.
Qed.

Lemma mm_get_set_ne {V : Type} (m : list (string * V)) (k k' : string) (v : V) :
  k <> k' -> mm_get (mm_set m k v) k' = mm_get m k'.
Proof.
  intros Hne. induction m as [|[k0 v0] m IH]; simpl.
  - destruct (String.eqb_spec k k'); [contradiction|reflexivity].
  - destruct (String.eqb_spec k0 k) as [->|Hk0]; simpl.
    + destruct (String.eqb_spec k k'); [contradiction|reflexivity].
    + destruct (k0 =? k')%string; [reflexivity|exact IH].
Qed.

Lemma mm_set_keys {V : Type} (m : list (string * V)) (k k' : string) (v : V) :
  In k' (map fst (mm_set m k v)) -> k' = k \/ In k' (map fst m).
Proof.
  induction m as [|[k0 v0] m IH]; simpl.
  - intros [<-|[]]. left. reflexivity.
  - destruct (k0 =? k)%string; simpl.
    + intros [<-|Hin]; [left; reflexivity|right; right; exact Hin].
    + intros [<-|Hin]; [right; left; reflexivity|].
      destruct (IH Hin) as [->|Hin']; [left; reflexivity|right; right; exact Hin'].
Qed.

(** A key that the map does not hold goes to its end. *)
Lemma mm_set_new {V : Type} (m : list (string * V)) (k : string) (v : V) :
  ~ In k (map fst m) -> mm_set m k v = m ++ [(k, v)].
Proof.
  induction m as [|[k0 v0] m IH]; simpl; [reflexivity|].
  intros Hnin. destruct (String.eqb_spec k0 k) as [->|Hne].
  - exfalso. apply Hnin. left. reflexivity.
  - rewrite IH; [reflexivity|]. intros Hin. apply Hnin. right. exact Hin.
Qed.

Section CloningFacts.
Context `{Libs}.

(** [old.Get(k)] reads the same by reference and by value. *)
Lemma Header_Get_load (h : Mem.heap) (old : option Mem.loc) (mm : MultiMap) (k : string) :
  Mem.loadHeader h old = Some mm ->
  Mem.Header_Get h old k = Returns (Header_Get mm k).
Proof.
  unfold Mem.Header_Get, Header_Get. destruct old as [p|]; simpl.
  - unfold Mem.loadMap, Mem.readMap.
    destruct (h !! p) as [[| | |m|]|]; try discriminate.
    intros Hm. simpl.
    pose proof (loadEntries_get h m mm (CanonicalMIMEHeaderKey k) Hm) as Hg.
    destruct (mm_get m (CanonicalMIMEHeaderKey k)) as [q|].
    + destruct Hg as (l & Hq & ->). unfold Mem.readStrings. rewrite Hq. simpl.
      destruct l; reflexivity.
    + rewrite Hg. reflexivity.
  - intros [= <-]. reflexivity.
Qed.

(** The value of [old.Get(k)] depends on the canonical form of [k] only. *)
Lemma Header_Get_canonical (mm : MultiMap) (k k' : string) :
  CanonicalMIMEHeaderKey k = CanonicalMIMEHeaderKey k' ->
  Header_Get mm k = Header_Get mm k'.
Proof. unfold Header_Get. intros ->. reflexivity. Qed.

(** [m[key] = []string{value}] on a map under construction at [p]: the
    slice is new, the map is written in place, and nothing else changes. *)
Lemma setEntry_spec (hb h : Mem.heap) (p : Mem.loc) (key value : string)
    (acc : list (string * Mem.loc)) (accV : MultiMap) :
  hb ⊆ h -> hb !! p = None ->
  h !! p = Some (Mem.Map acc) -> Mem.loadEntries h acc = Some accV ->
  Forall (fun q => q <> p /\ hb !! q = None) (map snd acc) ->
  exists h' acc',
    Mem.setEntry h p key value = Returns h'
    /\ hb ⊆ h'
    /\ h' !! p = Some (Mem.Map acc')
    /\ Mem.loadEntries h' acc' = Some (mm_set accV key [value])
    /\ Forall (fun q => q <> p /\ hb !! q = None) (map snd acc').
Proof.
  intros Hsub Hbp Hp Hacc Hnew.
  unfold Mem.setEntry, Mem.readMap, Mem.alloc. rewrite Hp. simpl.
  set (q := fresh (dom h)).
  assert (Hq : h !! q = None) by apply fresh_none. clearbody q.
  assert (Hqp : q <> p) by (intros ->; rewrite Hp in Hq; discriminate).
  assert (Hbq : hb !! q = None) by (eapply subseteq_none; eassumption).
  eexists _, (mm_set acc key q). split; [reflexivity|].
  split; [|split; [|split]].
  - apply insert_subseteq_r; [exact Hbp|].
    apply insert_subseteq_r; [exact Hbq|exact Hsub].
  - apply lookup_insert_eq.
  - apply loadEntries_set.
    + rewrite <- Hacc. apply loadEntries_agree.
      pose proof (loadEntries_locs _ _ _ Hacc) as Hlocs.
      rewrite Forall_forall in Hlocs, Hnew |- *.
      intros x Hx. destruct (Hnew x Hx) as [Hxp _].
      rewrite lookup_insert_ne by congruence.
      rewrite lookup_insert_ne; [reflexivity|].
      intros <-. destruct (Hlocs _ Hx) as [o Ho]. congruence.
    + rewrite lookup_insert_ne by congruence. apply lookup_insert_eq.
  - apply mm_set_locs; [exact Hnew|]. split; assumption.
Qed.

Lemma copyKeys_spec (hb : Mem.heap) (old : option Mem.loc) (mm : MultiMap) (p : Mem.loc)
    (keys : list string) (h : Mem.heap) (acc : list (string * Mem.loc)) (accV : MultiMap) :
  hb ⊆ h -> hb !! p = None -> Mem.loadHeader hb old = Some mm ->
  h !! p = Some (Mem.Map acc) -> Mem.loadEntries h acc = Some accV ->
  Forall (fun q => q <> p /\ hb !! q = None) (map snd acc) ->
  exists h' acc',
    Mem.copyKeys keys old p h = Returns h'
    /\ hb ⊆ h'
    /\ h' !! p = Some (Mem.Map acc')
    /\ Mem.loadEntries h' acc' = Some (copiedHeader mm keys accV)
    /\ Forall (fun q => q <> p /\ hb !! q = None) (map snd acc').
Proof.
  intros Hsub Hbp Hold. revert h acc accV Hsub.
  induction keys as [|k keys IH]; intros h acc accV Hsub Hp Hacc Hnew; simpl.
  - exists h, acc. repeat split; assumption.
  - rewrite (Header_Get_load h old mm k)
      by (eapply loadHeader_keeps; [apply subseteq_keeps, Hsub|exact Hold]).
    simpl. unfold Mem.Header_Set.
    destruct (setEntry_spec hb h p (CanonicalMIMEHeaderKey k) (Header_Get mm k)
                acc accV Hsub Hbp Hp Hacc Hnew)
      as (h1 & acc1 & -> & Hsub1 & Hp1 & Hacc1 & Hnew1).
    simpl. exact (IH h1 acc1 _ Hsub1 Hp1 Hacc1 Hnew1).
Qed.

(** [copyHeader]: a new map with new slices, filled from the old one. *)
Lemma copyHeader_spec (h : Mem.heap) (old : option Mem.loc) (mm : MultiMap) :
  Mem.loadHeader h old = Some mm ->
  exists p h',
    Mem.copyHeader old h = Returns (p, h')
    /\ h ⊆ h'
    /\ newMap h h' p
    /\ Mem.loadMap h' p = Some (copiedHeader mm (map fst mm) []).
Proof.
  intros Hold. unfold Mem.copyHeader.
  assert (Hm : exists m, Mem.entriesOf h old = Returns m /\ map fst m = map fst mm).
  { destruct old as [p|]; simpl in *.
    - unfold Mem.loadMap in Hold. unfold Mem.readMap.
      destruct (h !! p) as [[| | |m|]|]; try discriminate.
      exists m. split; [reflexivity|]. symmetry. eapply loadEntries_keys, Hold.
    - injection Hold as <-. exists []. split; reflexivity. }
  destruct Hm as (m & -> & Hkeys). unfold Mem.alloc. simpl.
  set (p := fresh (dom h)).
  assert (Hp : h !! p = None) by apply fresh_none. clearbody p.
  assert (Hsub1 : h ⊆ <[p := Mem.Map []]> h) by (apply insert_subseteq, Hp).
  assert (Hp1 : <[p := Mem.Map []]> h !! p = Some (Mem.Map [])) by apply lookup_insert_eq.
  destruct (copyKeys_spec h old mm p (map fst m) (<[p := Mem.Map []]> h) [] []
              Hsub1 Hp Hold Hp1 eq_refl (Forall_nil_2 _))
    as (h' & acc' & -> & Hsub' & Hp' & Hacc' & Hnew').
  simpl. exists p, h'. split; [reflexivity|]. split; [exact Hsub'|]. split.
  - unfold newMap, Mem.mapLocs. rewrite Hp'. constructor; [exact Hp|].
    eapply Forall_impl; [exact Hnew'|]. intros q [_ Hq]. exact Hq.
  - unfold Mem.loadMap. rewrite Hp', Hacc', Hkeys. reflexivity.
Qed.

(** The header by value: each key of the old header is there in its
    canonical form, with the one value that [Get] gives. *)
Lemma copiedHeader_stable (mm : MultiMap) (keys : list string) (acc : MultiMap)
    (c : string) (v : list string) :
  mm_get acc c = Some v ->
  (forall k, In k keys -> CanonicalMIMEHeaderKey k = c -> [Header_Get mm k] = v) ->
  mm_get (copiedHeader mm keys acc) c = Some v.
Proof.
  revert acc; induction keys as [|k keys IH]; intros acc Hacc Hsame; simpl; [exact Hacc|].
  apply IH; [|intros k' Hin; apply Hsame; right; exact Hin].
  destruct (String.eqb_spec (CanonicalMIMEHeaderKey k) c) as [<-|Hne].
  - rewrite mm_get_set_eq. f_equal. apply Hsame; [left|]; reflexivity.
  - rewrite mm_get_set_ne by exact Hne. exact Hacc.
Qed.

Lemma copiedHeader_get (mm : MultiMap) (keys : list string) (acc : MultiMap) (k : string) :
  In k keys ->
  mm_get (copiedHeader mm keys acc) (CanonicalMIMEHeaderKey k) = Some [Header_Get mm k].
Proof.
  revert acc; induction keys as [|k0 keys IH]; intros acc; simpl; [tauto|].
  intros [->|Hin]; [|apply IH, Hin].
  apply copiedHeader_stable; [apply mm_get_set_eq|].
  intros k' _ Hc. f_equal. apply Header_Get_canonical, Hc.
Qed.

Lemma copiedHeader_keys (mm : MultiMap) (keys : list string) (acc : MultiMap) (k' : string) :
  In k' (map fst (copiedHeader mm keys acc)) ->
  In k' (map fst acc) \/ exists k, In k keys /\ k' = CanonicalMIMEHeaderKey k.
Proof.
  revert acc; induction keys as [|k0 keys IH]; intros acc; simpl; [tauto|].
  intros Hin. destruct (IH _ Hin) as [Hacc|(k & Hk & ->)].
  - destruct (mm_set_keys _ _ _ _ Hacc) as [->|Hacc']; [right|left; exact Hacc'].
    exists k0. split; [left|]; reflexivity.
  - right. exists k. split; [right; exact Hk|reflexivity].
Qed.

End CloningFacts.

(** *** Forms and bodies *)

Lemma last_nonempty {A : Type} (l : list A) : l <> [] -> exists x, last l = Some x.
Proof.
  intros Hl. destruct (last l) as [x|] eqn:E; [eauto|].
  apply last_None in E. contradiction.
Qed.

Lemma copyValues_spec (hb : Mem.heap) (p : Mem.loc) (t : list (string * Mem.loc)) (tV : MultiMap)
    (h : Mem.heap) (acc : list (string * Mem.loc)) (accV : MultiMap) :
  hb ⊆ h -> hb !! p = None ->
  Mem.loadEntries hb t = Some tV -> Forall (fun e => snd e <> []) tV ->
  h !! p = Some (Mem.Map acc) -> Mem.loadEntries h acc = Some accV ->
  Forall (fun q => q <> p /\ hb !! q = None) (map snd acc) ->
  exists h' acc',
    Mem.copyValues t p h = Returns h'
    /\ hb ⊆ h'
    /\ h' !! p = Some (Mem.Map acc')
    /\ Mem.loadEntries h' acc' = Some (copiedValues tV accV)
    /\ Forall (fun q => q <> p /\ hb !! q = None) (map snd acc').
Proof.
  intros Hsub Hbp. revert tV h acc accV Hsub.
  induction t as [|[k q] t IH]; intros tV h acc accV Hsub Ht Hne Hp Hacc Hnew; simpl.
  - injection Ht as <-. exists h, acc. repeat split; assumption.
  - simpl in Ht. destruct (hb !! q) as [[l| | | |]|] eqn:Hq; try discriminate.
    destruct (Mem.loadEntries hb t) as [tV'|] eqn:Ht'; [|discriminate].
    injection Ht as <-. inversion Hne as [|? ? Hl Hne']; subst. simpl in Hl.
    unfold Mem.readStrings. rewrite (lookup_weaken _ _ _ _ Hq Hsub). simpl.
    destruct (last_nonempty l Hl) as [x Hx]. unfold lastValue. rewrite Hx. simpl.
    destruct (setEntry_spec hb h p k x acc accV Hsub Hbp Hp Hacc Hnew)
      as (h1 & acc1 & -> & Hsub1 & Hp1 & Hacc1 & Hnew1).
    simpl.
    destruct (IH tV' h1 acc1 _ Hsub1 eq_refl Hne' Hp1 Hacc1 Hnew1)
      as (h' & acc' & Hc & Hrest).
    exists h', acc'. split; [exact Hc|].
    unfold copiedValues at 1. simpl. unfold lastOr at 2. simpl. rewrite Hx.
    exact Hrest.
Qed.

Lemma copiedValues_new (t acc : MultiMap) :
  NoDup (map fst t) -> (forall k, In k (map fst t) -> ~ In k (map fst acc)) ->
  copiedValues t acc = acc ++ map lastOnly t.
Proof.
  revert acc; induction t as [|[k v] t IH]; intros acc Hnd Hdisj; simpl.
  - rewrite app_nil_r. reflexivity.
  - inversion Hnd as [|? ? Hk Hnd']; subst.
    unfold copiedValues. simpl. fold (copiedValues t (mm_set acc k [lastOr v])).
    rewrite mm_set_new by (apply Hdisj; left; reflexivity).
    rewrite IH; [rewrite <- app_assoc; reflexivity|exact Hnd'|].
    intros k' Hin. rewrite map_app, in_app_iff. simpl.
    intros [Hacc|[<-|[]]]; [apply (Hdisj k'); [right|]; assumption|].
    apply Hk, list_elem_of_In, Hin.
Qed.

Lemma mm_get_lastOnly (t : MultiMap) (k : string) :
  mm_get (map lastOnly t) k =
  match mm_get t k with
  | Some v => Some [lastOr v]
  | None => None
  end.
Proof.
  induction t as [|[k0 v0] t IH]; simpl; [reflexivity|].
  destruct (k0 =? k)%string; [reflexivity|exact IH].
Qed.

Lemma mm_get_In {V : Type} (t : list (string * V)) (k : string) (v : V) :
  mm_get t k = Some v -> In (k, v) t.
Proof.
  induction t as [|[k0 v0] t IH]; simpl; [discriminate|].
  destruct (String.eqb_spec k0 k) as [->|Hne].
  - intros [= ->]. left. reflexivity.
  - intros Hg. right. apply IH, Hg.
Qed.

(** [newBody]: new storage for bytes and for a form, with the bytes of the
    old body, and with the last value of each key of the old form. *)
Lemma newBody_spec (h : Mem.heap) (b : Mem.body) :
  bodyCopyable h b ->
  exists b' h',
    Mem.newBody b h = Returns (b', h') /\ h ⊆ h' /\ bodyCopied h h' b b'.
Proof.
  destruct b as [|t|p|p|]; simpl.
  - intros _. exists Mem.NilBody, h. repeat split; reflexivity.
  - intros _. exists (Mem.StringBody t), h. repeat split; reflexivity.
  - intros [t Ht]. unfold Mem.readBytes, Mem.alloc. rewrite Ht. simpl.
    set (q := fresh (dom h)).
    assert (Hq : h !! q = None) by apply fresh_none. clearbody q.
    exists (Mem.BytesBody q), (<[q := Mem.Bytes t]> h).
    split; [reflexivity|]. split; [apply insert_subseteq, Hq|].
    simpl. split; [exact Hq|]. exists t. split; [reflexivity|apply lookup_insert_eq].
  - intros (mm & Hmm & Hnd & Hne). unfold Mem.loadMap in Hmm.
    unfold Mem.readMap, Mem.alloc.
    destruct (h !! p) as [[| | |m|]|] eqn:Hp; try discriminate. simpl.
    set (q := fresh (dom h)).
    assert (Hq : h !! q = None) by apply fresh_none. clearbody q.
    destruct (copyValues_spec h q m mm (<[q := Mem.Map []]> h) [] []
                (insert_subseteq _ _ _ Hq) Hq Hmm Hne (lookup_insert_eq _ _ _)
                eq_refl (Forall_nil_2 _))
      as (h' & acc' & -> & Hsub' & Hq' & Hacc' & Hnew').
    simpl. exists (Mem.ValuesBody q), h'.
    split; [reflexivity|]. split; [exact Hsub'|]. simpl. split.
    + unfold newMap, Mem.mapLocs. rewrite Hq'. constructor; [exact Hq|].
      eapply Forall_impl; [exact Hnew'|]. intros x [_ Hx]. exact Hx.
    + exists mm, (map lastOnly mm).
      rewrite copiedValues_new in Hacc' by (assumption || (intros ? ? [])).
      simpl in Hacc'.
      split; [unfold Mem.loadMap; rewrite ?Hp; exact Hmm|].
      split; [unfold Mem.loadMap; rewrite Hq'; exact Hacc'|].
      split; [rewrite map_map; reflexivity|].
      intros k v Hk. rewrite mm_get_lastOnly, Hk.
      apply mm_get_In, list_elem_of_In in Hk. rewrite Forall_forall in Hne.
      destruct (last_nonempty v (Hne _ Hk)) as [x Hx].
      exists x. split; [exact Hx|]. unfold lastOr. rewrite Hx. reflexivity.
  - intros [].
Qed.

(** *** Steps *)

Lemma bodyCopyable_keeps (h h' : Mem.heap) (b : Mem.body) :
  keeps h h' -> bodyCopyable h b -> bodyCopyable h' b.
Proof.
  intros Hk. destruct b as [|t|p|p|]; simpl; try tauto.
  - intros [t Ht]. exists t. apply Hk; [exact Ht|discriminate].
  - intros (mm & Hmm & Hrest). exists mm. split; [|exact Hrest].
    eapply loadMap_keeps; eassumption.
Qed.

Lemma newMap_base (hb h h' : Mem.heap) (p : Mem.loc) :
  hb ⊆ h -> newMap h h' p -> newMap hb h' p.
Proof.
  intros Hsub. unfold newMap. intros Hf. eapply Forall_impl; [exact Hf|].
  intros q Hq. eapply subseteq_none; eassumption.
Qed.

Lemma newMap_keeps (hb h h' : Mem.heap) (p : Mem.loc) (mm : MultiMap) :
  keeps h h' -> Mem.loadMap h p = Some mm -> newMap hb h p -> newMap hb h' p.
Proof.
  intros Hk Hl. unfold newMap. rewrite (mapLocs_keeps _ _ _ _ Hk Hl). tauto.
Qed.

Lemma bodyCopied_base (hb h h' : Mem.heap) (b b' : Mem.body) :
  hb ⊆ h -> bodyCopyable hb b -> bodyCopied h h' b b' -> bodyCopied hb h' b b'.
Proof.
  intros Hsub. destruct b as [|t|p|p|], b' as [|t'|p'|p'|]; simpl; try tauto.
  - intros [t0 Ht0] (Hp' & t & Ht & Ht').
    split; [eapply subseteq_none; eassumption|].
    exists t0. split; [exact Ht0|].
    pose proof (lookup_weaken _ _ _ _ Ht0 Hsub) as Ht1. congruence.
  - intros (mm0 & Hmm0 & _) (Hnew & mm & mm' & Hmm & Hmm' & Hrest).
    split; [eapply newMap_base; eassumption|].
    pose proof (loadMap_keeps _ _ _ _ (subseteq_keeps _ _ Hsub) Hmm0) as Hmm1.
    exists mm, mm'. split; [congruence|]. split; [exact Hmm'|exact Hrest].
Qed.

Lemma bodyCopied_keeps (hb h h' : Mem.heap) (b b' : Mem.body) :
  keeps h h' -> bodyCopied hb h b b' -> bodyCopied hb h' b b'.
Proof.
  intros Hk. destruct b as [|t|p|p|], b' as [|t'|p'|p'|]; simpl; try tauto.
  - intros (Hp' & t & Ht & Ht'). split; [exact Hp'|].
    exists t. split; [exact Ht|]. apply Hk; [exact Ht'|discriminate].
  - intros (Hnew & mm & mm' & Hmm & Hmm' & Hrest).
    split; [eapply newMap_keeps; eassumption|].
    exists mm, mm'. split; [exact Hmm|]. split; [|exact Hrest].
    eapply loadMap_keeps; eassumption.
Qed.

Section CloningTheorems.
Context `{Libs}.

Lemma headerCopied_keeps (hb h h' : Mem.heap) (old new : option Mem.loc) :
  keeps h h' -> headerCopied hb h old new -> headerCopied hb h' old new.
Proof.
  intros Hk (p' & mm & mm' & Hnew & Hmap & Hold & Hmm' & Hget & Hkeys).
  exists p', mm, mm'. split; [exact Hnew|].
  split; [eapply newMap_keeps; eassumption|].
  split; [exact Hold|]. split; [eapply loadMap_keeps; eassumption|].
  split; assumption.
Qed.

Lemma stepCopied_keeps (hb h h' : Mem.heap) (s s' : Mem.Step) :
  keeps h h' -> stepCopied hb h s s' -> stepCopied hb h' s s'.
Proof.
  intros Hk (H1 & H2 & H3 & H4 & H5 & H6 & H7 & H8 & Hh & Hb).
  repeat (split; [assumption|]).
  split; [eapply headerCopied_keeps|eapply bodyCopied_keeps]; eassumption.
Qed.

(** One step of the copy: its header and its body. *)
Lemma renew_copied (hb h : Mem.heap) (s : Mem.Step) :
  hb ⊆ h -> stepCopyable hb s ->
  exists p h1 b' h2,
    Mem.copyHeader (Mem.Header (Mem.Step_Request s)) h = Returns (p, h1)
    /\ Mem.newBody (Mem.Body (Mem.Step_Request s)) h1 = Returns (b', h2)
    /\ h ⊆ h2
    /\ stepCopied hb h2 s (Mem.renew s b' p).
Proof.
  intros Hsub [[mm Hold] Hbody].
  pose proof (loadHeader_keeps _ _ _ _ (subseteq_keeps _ _ Hsub) Hold) as Hold1.
  destruct (copyHeader_spec h _ mm Hold1) as (p & h1 & Hc & Hsub1 & Hnew1 & Hload1).
  assert (Hsubb1 : hb ⊆ h1) by (etrans; eassumption).
  destruct (newBody_spec h1 (Mem.Body (Mem.Step_Request s))
              (bodyCopyable_keeps _ _ _ (subseteq_keeps _ _ Hsubb1) Hbody))
    as (b' & h2 & Hn & Hsub2 & Hcopied).
  exists p, h1, b', h2. split; [exact Hc|]. split; [exact Hn|].
  split; [etrans; eassumption|].
  repeat (split; [reflexivity|]). split.
  - apply (headerCopied_keeps hb h1 h2); [apply subseteq_keeps, Hsub2|].
    exists p, mm, (copiedHeader mm (map fst mm) []).
    split; [reflexivity|]. split; [exact (newMap_base _ _ _ _ Hsub Hnew1)|].
    split; [exact Hold|]. split; [exact Hload1|]. split.
    + intros k Hk. apply copiedHeader_get, Hk.
    + intros k' Hk'. destruct (copiedHeader_keys _ _ _ _ Hk') as [[]|Hex]. exact Hex.
  - exact (bodyCopied_base _ _ _ _ _ Hsubb1 Hbody Hcopied).
Qed.

Lemma copySteps_step (n i : nat) (ps : Mem.loc) (h h1 h2 : Mem.heap)
    (arr arr2 : list Mem.Step) (s : Mem.Step) (p : Mem.loc) (b' : Mem.body) :
  h !! ps = Some (Mem.StepArray arr) -> arr !! i = Some s ->
  Mem.copyHeader (Mem.Header (Mem.Step_Request s)) h = Returns (p, h1) ->
  Mem.newBody (Mem.Body (Mem.Step_Request s)) h1 = Returns (b', h2) ->
  h2 !! ps = Some (Mem.StepArray arr2) ->
  Mem.copySteps (S n) i ps h =
  Mem.copySteps n (S i) ps (<[ps := Mem.StepArray (<[i := Mem.renew s b' p]> arr2)]> h2).
Proof.
  intros Hps Hs Hc Hn Hps2. simpl. unfold Mem.readSteps. rewrite Hps. simpl.
  rewrite Hs, Hc. simpl. rewrite Hn. simpl. rewrite Hps2. reflexivity.
Qed.

(** The loop over the steps, from the index [i] on: the steps before [i]
    stay, the steps from [i] on are copied, in the array at [ps]. *)
Lemma copySteps_spec (hb : Mem.heap) (ps : Mem.loc) (n : nat) :
  forall (i : nat) (h : Mem.heap) (arr : list Mem.Step),
    hb ⊆ h -> hb !! ps = None -> h !! ps = Some (Mem.StepArray arr) ->
    length arr = (i + n)%nat ->
    (forall j s, (i <= j)%nat -> arr !! j = Some s -> stepCopyable hb s) ->
    exists h' arr',
      Mem.copySteps n i ps h = Returns h'
      /\ hb ⊆ h' /\ keeps h h'
      /\ h' !! ps = Some (Mem.StepArray arr')
      /\ length arr' = length arr
      /\ (forall j, (j < i)%nat -> arr' !! j = arr !! j)
      /\ (forall j s, (i <= j)%nat -> arr !! j = Some s ->
            exists s', arr' !! j = Some s' /\ stepCopied hb h' s s').
Proof.
  induction n as [|n IH]; intros i h arr Hsub Hbps Hps Hlen Hok.
  - exists h, arr. split; [reflexivity|]. split; [exact Hsub|].
    split; [apply keeps_refl|]. split; [exact Hps|]. split; [reflexivity|].
    split; [reflexivity|].
    intros j s Hj Hs. apply lookup_lt_Some in Hs. lia.
  - destruct (lookup_lt_is_Some_2 arr i ltac:(lia)) as [s Hs].
    destruct (renew_copied hb h s Hsub (Hok i s (le_n _) Hs))
      as (p & h1 & b' & h2 & Hc & Hn & Hsub2 & Hcopied).
    pose proof (lookup_weaken _ _ _ _ Hps Hsub2) as Hps2.
    rewrite (copySteps_step n i ps h h1 h2 arr arr s p b' Hps Hs Hc Hn Hps2).
    set (arr3 := <[i := Mem.renew s b' p]> arr).
    set (h3 := <[ps := Mem.StepArray arr3]> h2).
    assert (Hsub3 : hb ⊆ h3).
    { apply insert_subseteq_r; [exact Hbps|]. etrans; eassumption. }
    assert (Hk23 : keeps h2 h3) by (eapply insert_keeps; exact Hps2).
    destruct (IH (S i) h3 arr3 Hsub3 Hbps (lookup_insert_eq _ _ _))
      as (h' & arr' & -> & Hsub' & Hk' & Hps' & Hlen' & Hbefore & Hcopies).
    { unfold arr3. rewrite length_insert. lia. }
    { intros j s0 Hj Hs0. unfold arr3 in Hs0.
      rewrite list_lookup_insert_ne in Hs0 by lia. apply (Hok j s0); [lia|exact Hs0]. }
    exists h', arr'. split; [reflexivity|]. split; [exact Hsub'|].
    split; [|split; [exact Hps'|split; [|split]]].
    + eapply keeps_trans; [apply subseteq_keeps, Hsub2|].
      eapply keeps_trans; eassumption.
    + rewrite Hlen'. unfold arr3. apply length_insert.
    + intros j Hj. rewrite Hbefore by lia. unfold arr3.
      apply list_lookup_insert_ne. lia.
    + intros j s0 Hj Hs0. destruct (decide (j = i)) as [->|Hne].
      * rewrite Hs in Hs0. injection Hs0 as <-.
        exists (Mem.renew s b' p). split.
        -- rewrite Hbefore by lia. unfold arr3. apply list_lookup_insert_eq.
           apply lookup_lt_Some in Hs. exact Hs.
        -- apply (stepCopied_keeps hb h2 h'); [|exact Hcopied].
           eapply keeps_trans; eassumption.
      * apply Hcopies; [lia|]. unfold arr3.
        rewrite list_lookup_insert_ne by lia. exact Hs0.
Qed.

(** C7, as the code has it.  [CompleteCopy] returns, for a flow that the
    heap holds and whose bodies [newBody] can copy, a flow whose
    [RequiredValues] and [Steps] are new arrays, the first with the elements
    of the old one; whose [Values] and [CookieJar] are [nil]; and whose
    steps are the steps of the old flow with [Response] set to [nil], with
    [KeysInput], [KeysOutput] and [PostHook] the same references, and with
    a header and a body in storage that the old heap does not hold.  The
    old heap is untouched.  The new header holds the first value of each
    key, under its canonical form; new bytes are the old bytes; a new form
    holds the last value of each key. *)
Theorem CompleteCopy_copies (f : Mem.Flow) (h : Mem.heap) :
  flowCopyable h f ->
  exists f' h' required steps steps' pr ps,
    Mem.CompleteCopy f h = Returns (f', h')
    /\ h ⊆ h'
    /\ Mem.stringsOf h (Mem.RequiredValues f) = Returns required
    /\ Mem.stepsOf h (Mem.Steps f) = Returns steps
    /\ f' = {| Mem.RequiredValues := Some pr; Mem.Values := None;
               Mem.Steps := Some ps; Mem.CookieJar := None |}
    /\ h !! pr = None /\ h' !! pr = Some (Mem.Strings required)
    /\ h !! ps = None /\ h' !! ps = Some (Mem.StepArray steps')
    /\ Forall2 (stepCopied h h') steps steps'.
Proof.
  intros [[required Hreq] (steps & Hsteps & Hok)].
  unfold Mem.CompleteCopy, Mem.alloc. rewrite Hreq. simpl.
  set (pr := fresh (dom h)).
  assert (Hpr : h !! pr = None) by apply fresh_none. clearbody pr.
  set (h1 := <[pr := Mem.Strings required]> h).
  assert (Hsub1 : h ⊆ h1) by (apply insert_subseteq, Hpr).
  assert (Hsteps1 : Mem.stepsOf h1 (Mem.Steps f) = Returns steps).
  { destruct (Mem.Steps f) as [p|]; simpl in *; [|exact Hsteps].
    unfold Mem.readSteps in *.
    destruct (h !! p) as [[| |l| |]|] eqn:Hp; try discriminate.
    rewrite (lookup_weaken _ _ _ _ Hp Hsub1). exact Hsteps. }
  rewrite Hsteps1. simpl.
  set (ps := fresh (dom h1)).
  assert (Hps1 : h1 !! ps = None) by apply fresh_none. clearbody ps.
  set (h2 := <[ps := Mem.StepArray steps]> h1).
  assert (Hsub2 : h ⊆ h2).
  { etrans; [exact Hsub1|]. apply insert_subseteq, Hps1. }
  assert (Hps : h !! ps = None) by exact (subseteq_none _ _ _ Hsub1 Hps1).
  destruct (copySteps_spec h ps (length steps) 0 h2 steps Hsub2 Hps
              (lookup_insert_eq _ _ _) eq_refl)
    as (h' & steps' & -> & Hsub' & Hk' & Hps' & Hlen' & _ & Hcopies).
  { intros j s _ Hs. rewrite Forall_forall in Hok. apply Hok.
    eapply list_elem_of_lookup_2, Hs. }
  simpl. eexists _, h', required, steps, steps', pr, ps.
  split; [reflexivity|]. split; [exact Hsub'|].
  split; [reflexivity|]. split; [exact Hsteps|]. split; [reflexivity|].
  split; [exact Hpr|]. split.
  { apply Hk'; [|discriminate]. unfold h2.
    rewrite lookup_insert_ne by (intros <-; unfold h1 in Hps1;
                                 rewrite lookup_insert_eq in Hps1; discriminate).
    apply lookup_insert_eq. }
  split; [exact Hps|]. split; [exact Hps'|].
  apply Forall2_same_length_lookup_2; [symmetry; exact Hlen'|].
  intros j s s' Hs Hs'.
  destruct (Hcopies j s (Nat.le_0_l _) Hs) as (s'' & Hs'' & Hc).
  rewrite Hs' in Hs''. injection Hs'' as <-. exact Hc.
Qed.

End CloningTheorems.

(** *** More on [stringBetweenN] *)

(** X2: every occurrence that [stringBetweenN] skips takes the delimiter
    [bef] and one byte more.  So when an occurrence is found at the index
    [occ], the body is at least [occ * (len(bef) + 1)] bytes long. *)
Theorem stringBetweenN_found_bound (body bef aft : string) (occ : nat) (str : string) :
  stringBetweenN body bef aft occ = Returns (true, str) ->
  Z.of_nat occ * (len bef + 1) <= len body.
Proof.
  revert body; induction occ as [|occ IH]; intros body; cbn [stringBetweenN].
  - intros _. unfold len. lia.
  - destruct (strings_Index body bef =? -1) eqn:Hidx; [discriminate|].
    destruct (sliceFrom body (strings_Index body bef + len bef + 1)) as [rest| |] eqn:Hs;
      try discriminate.
    cbn [mbind Outcome_bind]. intros Hfound. apply IH in Hfound.
    apply sliceFrom_length in Hs as [_ Hlen].
    destruct (strings_Index_range body bef) as [Hc|Hge]; [lia|].
    unfold len in *. nia.
Qed.

Lemma index_None_tail (sep : string) (c : ascii) (s : string) :
  String.index 0 sep (String c s) = None -> String.index 0 sep s = None.
Proof.
  cbn [String.index]. destruct (String.prefix sep (String c s)); [discriminate|].
  destruct (String.index 0 sep s); [discriminate|reflexivity].
Qed.

Lemma index_None_drop (sep : string) (k : nat) (s : string) :
  String.index 0 sep s = None -> String.index 0 sep (string_drop k s) = None.
Proof.
  revert s; induction k as [|k IH]; intros s Hs; [exact Hs|].
  destruct s as [|c s]; [exact Hs|]. cbn [string_drop]. apply IH.
  eapply index_None_tail, Hs.
Qed.

Lemma sliceFrom_drop (s rest : string) (k : Z) :
  sliceFrom s k = Returns rest -> rest = string_drop (Z.to_nat k) s.
Proof.
  unfold sliceFrom. destruct ((k <? 0) || (len s <? k)); [discriminate|].
  intros [= <-]. reflexivity.
Qed.

(** In a body without [aft], no index holds an occurrence. *)
Lemma stringBetweenN_without_aft (body bef aft : string) (occ : nat) :
  String.index 0 aft body = None ->
  stringBetweenN body bef aft occ = Panics
  \/ exists s, stringBetweenN body bef aft occ = Returns (false, s).
Proof.
  revert body; induction occ as [|occ IH]; intros body Haft; cbn [stringBetweenN].
  - right. unfold StringBetween. destruct (String.index 0 bef body) as [i|]; [|eauto].
    rewrite (index_None_drop aft _ _ Haft). eauto.
  - destruct (strings_Index body bef =? -1); [eauto|].
    destruct (sliceFrom body (strings_Index body bef + len bef + 1)) as [rest| |] eqn:Hs;
      cbn [mbind Outcome_bind]; [|auto|].
    + apply IH. apply sliceFrom_drop in Hs as ->. apply index_None_drop, Haft.
    + unfold sliceFrom in Hs. destruct (_ || _); discriminate.
Qed.

(** X4: an index without an occurrence is the end of the search.  When
    [stringBetweenN] reports at the index [occ] that nothing is found,
    it finds nothing at any later index either: it reports the same, or it
    panics.  So the loop of [Extract], which stops at the first index where
    nothing is found, passes over no candidate. *)
Theorem stringBetweenN_not_found_is_final (body bef aft : string) (occ occ' : nat)
    (str : string) :
  stringBetweenN body bef aft occ = Returns (false, str) ->
  (occ <= occ')%nat ->
  stringBetweenN body bef aft occ' = Panics
  \/ exists s, stringBetweenN body bef aft occ' = Returns (false, s).
Proof.
  revert body occ'; induction occ as [|occ IH]; intros body occ'.
  - cbn [stringBetweenN]. intros Hsb _. destruct occ' as [|occ'].
    { right. exists str. exact Hsb. }
    cbn [stringBetweenN]. unfold StringBetween, strings_Index in *.
    destruct (String.index 0 bef body) as [i|]; [|right; eexists; reflexivity].
    destruct (Z.of_nat i =? -1); [eauto|].
    destruct (String.index 0 aft (string_drop (i + String.length bef) body)) eqn:Haft;
      [discriminate|].
    destruct (sliceFrom body (Z.of_nat i + len bef + 1)) as [rest| |] eqn:Hs;
      cbn [mbind Outcome_bind]; [|auto|].
    + apply stringBetweenN_without_aft. apply sliceFrom_drop in Hs as ->.
      unfold len.
      replace (Z.to_nat (Z.of_nat i + Z.of_nat (String.length bef) + 1))
        with (S (i + String.length bef)) by lia.
      clear -Haft. revert Haft. generalize (i + String.length bef)%nat. intros n.
      revert body. induction n as [|n IHn]; intros body Haft.
      * apply (index_None_drop aft 1). exact Haft.
      * destruct body as [|c body]; [exact Haft|]. cbn [string_drop] in *.
        apply IHn, Haft.
    + unfold sliceFrom in Hs. destruct (_ || _); discriminate.
  - intros Hsb Hle. destruct occ' as [|occ']; [lia|].
    revert Hsb. cbn [stringBetweenN].
    destruct (strings_Index body bef =? -1); [eauto|].
    destruct (sliceFrom body (strings_Index body bef + len bef + 1)) as [rest| |];
      cbn [mbind Outcome_bind]; [|auto|discriminate].
    intros Hsb. apply (IH rest occ' Hsb). lia.
Qed.

(** ** More on the extraction engine *)

Lemma lastByte_app_dollar (p : string) : lastByte (p +:+ "$") = Some "$"%char.
Proof.
  induction p as [|c p IH]; [reflexivity|].
  change (String c p +:+ "$") with (String c (p +:+ "$")).
  rewrite lastByte_cons; [exact IH|]. destruct p; discriminate.
Qed.

Lemma firstByte_app (p q : string) : p <> "" -> firstByte (p +:+ q) = firstByte p.
Proof. destruct p; [congruence|reflexivity]. Qed.

Lemma lastByte_Some_ne (p : string) (c : ascii) : lastByte p = Some c -> p <> "".
Proof. destruct p; [discriminate|discriminate]. Qed.

Lemma firstByte_anchored (p : string) : firstByte (anchored p) = Some "^"%char.
Proof.
  unfold anchored.
  destruct (bool_decide (firstByte p = Some "^"%char)) eqn:Hf.
  - apply bool_decide_eq_true in Hf.
    destruct (bool_decide (lastByte p = Some "$"%char)); [exact Hf|].
    rewrite firstByte_app; [exact Hf|]. destruct p; discriminate.
  - destruct (bool_decide (lastByte p = Some "$"%char)); reflexivity.
Qed.

Lemma lastByte_anchored (p : string) : lastByte (anchored p) = Some "$"%char.
Proof.
  unfold anchored.
  destruct (bool_decide (lastByte p = Some "$"%char)) eqn:Hl.
  - apply bool_decide_eq_true in Hl.
    destruct (bool_decide (firstByte p = Some "^"%char)); [exact Hl|].
    change ("^" +:+ p) with (String "^" p).
    rewrite lastByte_cons; [exact Hl|]. eapply lastByte_Some_ne; exact Hl.
  - apply lastByte_app_dollar.
Qed.

Lemma anchored_idem (p : string) : anchored (anchored p) = anchored p.
Proof.
  unfold anchored at 1.
  rewrite firstByte_anchored, lastByte_anchored.
  rewrite !bool_decide_eq_true_2 by reflexivity. reflexivity.
Qed.

Lemma anchored_nonempty (p : string) : anchored p <> "".
Proof.
  intros Hc. pose proof (firstByte_anchored p) as Hf. rewrite Hc in Hf. discriminate.
Qed.

Section ExtractMore.
Context `{RegexpLib}.

Lemma tooLong_dec (e : Extractable) (bet : string) : tooLong e bet \/ ~ tooLong e bet.
Proof. unfold tooLong. lia. Qed.

Lemma tooShort_dec (e : Extractable) (bet : string) : tooShort e bet \/ ~ tooShort e bet.
Proof. unfold tooShort. lia. Qed.

(** The check of a candidate, case by case. *)
Lemma checkConditions_cases (e : Extractable) (bet : string) :
  (tooLong e bet /\ checkConditions e bet = (e, Some (maxLengthError e bet)))
  \/ (~ tooLong e bet /\ tooShort e bet
      /\ checkConditions e bet = (e, Some (minLengthError e bet)))
  \/ (~ tooLong e bet /\ ~ tooShort e bet /\ MatchRegexp e = ""
      /\ checkConditions e bet = (e, None))
  \/ (~ tooLong e bet /\ ~ tooShort e bet /\ MatchRegexp e <> ""
      /\ checkConditions e bet =
           (anchoredRule e,
            if fst (regexp_Match (anchored (MatchRegexp e)) bet) then None
            else Some (regexError e bet))).
Proof.
  destruct (tooLong_dec e bet) as [HL|HL].
  { left. split; [exact HL|]. unfold checkConditions. rewrite (is_tooLong _ _ HL).
    reflexivity. }
  right. destruct (tooShort_dec e bet) as [HS|HS].
  { left. split; [exact HL|]. split; [exact HS|]. unfold checkConditions.
    rewrite (not_tooLong _ _ HL), (is_tooShort _ _ HS). reflexivity. }
  right. destruct (String.eqb_spec (MatchRegexp e) "") as [He|Hne].
  - left. split; [exact HL|]. split; [exact HS|]. split; [exact He|].
    apply checkConditions_no_pattern; assumption.
  - right. split; [exact HL|]. split; [exact HS|]. split; [exact Hne|].
    apply checkConditions_regex; assumption.
Qed.

(** The check leaves no error exactly on a candidate that conforms. *)
Lemma checkConditions_conforms (e : Extractable) (bet : string) :
  snd (checkConditions e bet) = None <-> conforms e bet.
Proof.
  unfold conforms, noMatch.
  destruct (checkConditions_cases e bet)
    as [(HL & ->)|[(HL & HS & ->)|[(HL & HS & He & ->)|(HL & HS & Hne & ->)]]];
    cbn [snd].
  - split; [discriminate|]. intros (Hn & _). contradiction.
  - split; [discriminate|]. intros (_ & Hn & _). contradiction.
  - split; [|reflexivity]. intros _. split; [exact HL|]. split; [exact HS|].
    intros (Hne & _). contradiction.
  - destruct (fst (regexp_Match (anchored (MatchRegexp e)) bet)) eqn:Hm.
    + split; [|reflexivity]. intros _. split; [exact HL|]. split; [exact HS|].
      intros (_ & Hc). discriminate.
    + split; [discriminate|]. intros (_ & _ & Hn). exfalso. apply Hn.
      split; [assumption|reflexivity].
Qed.

(** The check on the rule with its pattern anchored: the same error, and
    the rule stays as it is. *)
Lemma checkConditions_anchoredRule (e : Extractable) (bet : string) :
  MatchRegexp e <> "" ->
  checkConditions (anchoredRule e) bet = (anchoredRule e, snd (checkConditions e bet)).
Proof.
  intros Hne.
  assert (HL : tooLong (anchoredRule e) bet <-> tooLong e bet) by reflexivity.
  assert (HS : tooShort (anchoredRule e) bet <-> tooShort e bet) by reflexivity.
  destruct (checkConditions_cases e bet)
    as [(H1 & ->)|[(H1 & H2 & ->)|[(H1 & H2 & He & ->)|(H1 & H2 & _ & ->)]]];
    destruct (checkConditions_cases (anchoredRule e) bet)
    as [(G1 & ->)|[(G1 & G2 & ->)|[(G1 & G2 & Ge & ->)|(G1 & G2 & _ & ->)]]];
    cbn [snd]; try tauto; try reflexivity.
  - exfalso. exact (anchored_nonempty _ Ge).
  - unfold anchoredRule, regexError. cbn [MatchRegexp setMatchRegexp].
    rewrite anchored_idem. reflexivity.
Qed.
End ExtractMore.

Section ExtractLoopFacts.
Context `{RegexpLib}.

Lemma checkConditions_rule (e : Extractable) (bet : string) :
  fst (checkConditions e bet) = e
  \/ (MatchRegexp e <> "" /\ fst (checkConditions e bet) = anchoredRule e).
Proof.
  destruct (checkConditions_cases e bet)
    as [(HL & ->)|[(HL & HS & ->)|[(HL & HS & He & ->)|(HL & HS & Hne & ->)]]];
    cbn [fst]; auto.
Qed.

(** The anchoring of the pattern on the receiver's copy changes nothing
    of what the later iterations return. *)
Lemma ExtractFrom_anchoredRule (n : nat) again (e : Extractable) (body : string) (i : nat) :
  MatchRegexp e <> "" ->
  (S (S (String.length body)) - i <= n)%nat ->
  ExtractFrom again (anchoredRule e) body i = ExtractFrom again e body i.
Proof.
  intros Hne. revert i. induction n as [|n IH]; intros i Hn;
    rewrite !ExtractFrom_unfold;
    change (AfterThis (anchoredRule e)) with (AfterThis e);
    change (BeforeThis (anchoredRule e)) with (BeforeThis e);
    change (Name (anchoredRule e)) with (Name e);
    change (IgnoreNotFound (anchoredRule e)) with (IgnoreNotFound e);
    destruct (stringBetweenN body (AfterThis e) (BeforeThis e) i)
      as [[[] bet]| |] eqn:Hsb; try reflexivity;
    apply stringBetweenN_found_le in Hsb; [lia|].
  cbn [mbind Outcome_bind negb].
  rewrite (checkConditions_anchoredRule e bet Hne).
  destruct (checkConditions e bet) as [e' err] eqn:Hck. cbn [snd].
  pose proof (checkConditions_fields _ _ _ _ Hck) as (_ & _ & Hnm & Hit & _ & _ & Hig & _).
  pose proof (checkConditions_rule e bet) as Hrule. rewrite Hck in Hrule. cbn [fst] in Hrule.
  change (Name (anchoredRule e)) with (Name e);
    change (IgnoreNotFound (anchoredRule e)) with (IgnoreNotFound e);
    change (Iterate (anchoredRule e)) with (Iterate e).
  rewrite Hnm, Hit, Hig.
  destruct err as [err|]; [|reflexivity].
  destruct (Iterate e); [|reflexivity].
  destruct Hrule as [->|[_ ->]]; [|reflexivity].
  apply IH. lia.
Qed.

(** One iteration of the loop of [Extract] at the index [i], in terms of
    the rule [e] as it was given. *)
Lemma ExtractFrom_step again (e : Extractable) (body : string) (i : nat) :
  ExtractFrom again e body i =
  '(found, bet) ← stringBetweenN body (AfterThis e) (BeforeThis e) i;
  if negb found then
    Returns (Name e, "", if IgnoreNotFound e then None else Some (errorString "not found"))
  else
    match snd (checkConditions e bet) with
    | Some err =>
        if Iterate e then ExtractFrom again e body (S i)
        else Returns (Name e, "", if IgnoreNotFound e then None else Some err)
    | None =>
        match again with
        | Some extractAgain => extractAgain bet
        | None => Returns (Name e, bet, None)
        end
    end.
Proof.
  rewrite ExtractFrom_unfold.
  destruct (stringBetweenN body (AfterThis e) (BeforeThis e) i)
    as [[[] bet]| |] eqn:Hsb; try reflexivity; cbn [mbind Outcome_bind negb].
  - destruct (checkConditions e bet) as [e' err] eqn:Hck. cbn [snd].
    pose proof (checkConditions_fields _ _ _ _ Hck) as (_ & _ & Hnm & Hit & _ & _ & Hig & _).
    pose proof (checkConditions_rule e bet) as Hrule. rewrite Hck in Hrule.
    cbn [fst] in Hrule. rewrite Hnm, Hit, Hig.
    destruct err as [err|]; [|reflexivity].
    destruct (Iterate e); [|destruct (IgnoreNotFound e); reflexivity].
    destruct Hrule as [->|[Hne ->]]; [reflexivity|].
    apply (ExtractFrom_anchoredRule (S (S (String.length body)))); [exact Hne|lia].
  - destruct (IgnoreNotFound e); reflexivity.
Qed.

End ExtractLoopFacts.

(** Induction along the chain of [Again]. *)
Lemma Extractable_chain_ind (P : Extractable -> Prop) :
  (forall e, (forall a, Again e = Some a -> P a) -> P e) -> forall e, P e.
Proof.
  intros Hstep. fix IH 1. intros e. apply Hstep.
  destruct e as [? ? ? ? ? ? ? ? [a|]]; cbn [Again]; intros a' Ha.
  - injection Ha as <-. apply IH.
  - discriminate.
Qed.

Lemma chain_head (e : Extractable) : In e (chain e).
Proof. destruct e; left; reflexivity. Qed.

Lemma chain_Again (e a r : Extractable) : Again e = Some a -> In r (chain a) -> In r (chain e).
Proof. destruct e as [? ? ? ? ? ? ? ? [a'|]]; cbn [Again]; intros [= <-] Hin. right. exact Hin. Qed.

Section ExtractMoreTheorems.
Context `{RegexpLib}.

Lemma ExtractFrom_skip again (e : Extractable) (body : string) (i k : nat) :
  Iterate e = true ->
  (forall j, (k <= j < i)%nat ->
     exists c, stringBetweenN body (AfterThis e) (BeforeThis e) j = Returns (true, c)
               /\ ~ conforms e c) ->
  (k <= i)%nat ->
  ExtractFrom again e body k = ExtractFrom again e body i.
Proof.
  intros Hit Hbad Hki. induction Hki as [|i Hki IH]; [reflexivity|].
  rewrite IH by (intros j Hj; apply Hbad; lia).
  destruct (Hbad i ltac:(lia)) as (c & Hsb & Hnc).
  rewrite (ExtractFrom_step again e body i), Hsb. cbn [mbind Outcome_bind negb].
  destruct (snd (checkConditions e c)) as [err|] eqn:Hck.
  - rewrite Hit. reflexivity.
  - exfalso. apply Hnc, checkConditions_conforms, Hck.
Qed.

(** X5: [Extract] settles on the first candidate that conforms.  When the
    candidate at the index [i] passes the constraints of the rule and every
    candidate before it is found and fails them (with [Iterate] set, if
    there is one before it), [Extract] returns that candidate under the
    name of the rule, or, with [Again], what the nested rule extracts from
    that candidate. *)
Theorem Extract_first_conforming (e : Extractable) (body : string)
    (v : option (gmap string Value)) (i : nat) (bet : string) :
  firstConforming e body i bet ->
  i = 0%nat \/ Iterate e = true ->
  Extract e body v =
    match Again e with
    | Some a => Extract a bet v
    | None => Returns (Name e, bet, None)
    end.
Proof.
  intros (Hsb & Hc & Hbad) Hit. rewrite Extract_unfold.
  assert (Hgo : ExtractFrom (againOf e v) e body 0 = ExtractFrom (againOf e v) e body i).
  { destruct Hit as [->|Hit]; [reflexivity|].
    apply ExtractFrom_skip; [exact Hit| |lia]. intros j Hj. apply Hbad. lia. }
  rewrite Hgo, ExtractFrom_step, Hsb. cbn [mbind Outcome_bind negb].
  apply checkConditions_conforms in Hc. rewrite Hc.
  unfold againOf. destruct (Again e); reflexivity.
Qed.

Lemma ExtractFrom_sound (n : nat) (e : Extractable) (body : string) (i : nat)
    (name value : string) :
  (S (S (String.length body)) - i <= n)%nat ->
  (forall j, (j < i)%nat ->
     exists c, stringBetweenN body (AfterThis e) (BeforeThis e) j = Returns (true, c)
               /\ ~ conforms e c) ->
  i = 0%nat \/ Iterate e = true ->
  ExtractFrom None e body i = Returns (name, value, None) ->
  name = Name e
  /\ ((IgnoreNotFound e = true /\ value = "")
      \/ exists k, firstConforming e body k value /\ (k = 0%nat \/ Iterate e = true)).
Proof.
  revert i. induction n as [|n IH]; intros i Hn Hbad Hit;
    rewrite ExtractFrom_step;
    destruct (stringBetweenN body (AfterThis e) (BeforeThis e) i)
      as [[[] bet]| |] eqn:Hsb; cbn [mbind Outcome_bind negb]; try discriminate;
    try solve [destruct (IgnoreNotFound e); [intros [= <- <-]; auto|discriminate]];
    pose proof (stringBetweenN_found_le _ _ _ _ _ Hsb) as Hle; [lia|].
  destruct (snd (checkConditions e bet)) as [err|] eqn:Hck.
  - destruct (Iterate e) eqn:Hi.
    + apply IH; [lia| |right; reflexivity].
      intros j Hj. destruct (decide (j = i)) as [->|Hji]; [|apply Hbad; lia].
      exists bet. split; [exact Hsb|]. intros Hc.
      apply checkConditions_conforms in Hc. congruence.
    + destruct (IgnoreNotFound e); [intros [= <- <-]; auto|discriminate].
  - intros [= <- <-]. split; [reflexivity|]. right. exists i. split; [|exact Hit].
    split; [exact Hsb|]. split; [|exact Hbad]. apply checkConditions_conforms, Hck.
Qed.

(** X6: what a rule without [Again] returns with no error is the first
    candidate that conforms, under the name of the rule: the candidate at
    some index passes the constraints, and every candidate before it was
    found and fails them (so [Iterate] is set if there is one).  The one
    other case is a rule with [IgnoreNotFound], which returns the empty
    value. *)
Theorem Extract_success_is_first_conforming (e : Extractable) (body : string)
    (v : option (gmap string Value)) (name value : string) :
  Again e = None ->
  Extract e body v = Returns (name, value, None) ->
  name = Name e
  /\ ((IgnoreNotFound e = true /\ value = "")
      \/ exists i, firstConforming e body i value /\ (i = 0%nat \/ Iterate e = true)).
Proof.
  intros Hag. rewrite Extract_unfold. unfold againOf. rewrite Hag.
  apply (ExtractFrom_sound (S (S (String.length body)))); [lia| |left; reflexivity].
  intros j Hj. lia.
Qed.

(** What a call of the loop returns: the result of the nested rule, or a
    result under the name of this rule. *)
Lemma ExtractFrom_result (n : nat) again (e : Extractable) (body : string) (i : nat)
    (r : Extracted) :
  (S (S (String.length body)) - i <= n)%nat ->
  ExtractFrom again e body i = Returns r ->
  (exists g bet, again = Some g /\ g bet = Returns r)
  \/ (IgnoreNotFound e = true /\ r = (Name e, "", None))
  \/ (IgnoreNotFound e = false /\ exists err, r = (Name e, "", Some err))
  \/ (again = None /\ exists bet, r = (Name e, bet, None)).
Proof.
  revert i. induction n as [|n IH]; intros i Hn;
    rewrite ExtractFrom_step;
    destruct (stringBetweenN body (AfterThis e) (BeforeThis e) i)
      as [[[] bet]| |] eqn:Hsb; cbn [mbind Outcome_bind negb]; try discriminate;
    try solve [destruct (IgnoreNotFound e) eqn:Hig; intros [= <-]; eauto 6];
    pose proof (stringBetweenN_found_le _ _ _ _ _ Hsb) as Hle; [lia|].
  destruct (snd (checkConditions e bet)) as [err|] eqn:Hck.
  - destruct (Iterate e) eqn:Hi; [apply IH; lia|].
    destruct (IgnoreNotFound e) eqn:Hig; intros [= <-]; eauto 6.
  - destruct again as [g|]; [eauto 6|]. intros [= <-]. eauto 8.
Qed.

(** X7: the name that [Extract] returns is the [Name] of a rule of the
    chain [e], [e.Again], ...; and an error comes with the empty value,
    from a rule that does not have [IgnoreNotFound].  So a chain of rules
    that all have [IgnoreNotFound] never returns an error. *)
Theorem Extract_result_shape (e : Extractable) (body : string)
    (v : option (gmap string Value)) (name value : string) (err : option error) :
  Extract e body v = Returns (name, value, err) ->
  exists r, In r (chain e) /\ name = Name r
            /\ (err <> None -> value = "" /\ IgnoreNotFound r = false).
Proof.
  revert body. induction e as [e IH] using Extractable_chain_ind. intros body.
  rewrite Extract_unfold. intros Hex.
  apply (ExtractFrom_result (S (S (String.length body)))) in Hex; [|lia].
  destruct Hex as [(g & bet & Hg & Hr)|[(Hig & Hr)|[(Hig & err' & Hr)|(_ & bet & Hr)]]].
  - unfold againOf in Hg. destruct (Again e) as [a|] eqn:Ha; [|discriminate].
    injection Hg as <-. apply (IH a eq_refl) in Hr as (r & Hin & Hnm & Herr).
    exists r. split; [exact (chain_Again _ _ _ Ha Hin)|]. split; assumption.
  - injection Hr as -> -> ->. exists e. split; [apply chain_head|].
    split; [reflexivity|]. intros Hc. contradiction.
  - injection Hr as -> -> ->. exists e. split; [apply chain_head|].
    split; [reflexivity|]. intros _. split; [reflexivity|exact Hig].
  - injection Hr as -> -> ->. exists e. split; [apply chain_head|].
    split; [reflexivity|]. intros Hc. contradiction.
Qed.

Lemma ExtractLoop_ext (fuel : nat) (g g' : string -> Outcome Extracted)
    (e : Extractable) (body : string) (i : nat) :
  (forall bet, g bet = g' bet) ->
  ExtractLoop fuel (Some g) e body i = ExtractLoop fuel (Some g') e body i.
Proof.
  intros Hg. revert e i. induction fuel as [|fuel IH]; intros e i; [reflexivity|].
  cbn [ExtractLoop].
  destruct (stringBetweenN body (AfterThis e) (BeforeThis e) i) as [[[] bet]| |];
    try reflexivity. cbn [mbind Outcome_bind negb].
  destruct (checkConditions e bet) as [e' [err|]]; [|apply Hg].
  destruct (Iterate e'); [apply IH|reflexivity].
Qed.

(** X8: [Extract] of an [Extractable] does not read the map of values: the
    result is the same for any two maps, a [nil] map included. *)
Theorem Extract_ignores_values (e : Extractable) (body : string)
    (v v' : option (gmap string Value)) :
  Extract e body v = Extract e body v'.
Proof.
  revert body. induction e as [e IH] using Extractable_chain_ind. intros body.
  rewrite !Extract_unfold. unfold againOf.
  destruct (Again e) as [a|]; [|reflexivity].
  unfold ExtractFrom. apply ExtractLoop_ext. intros bet. apply (IH a eq_refl).
Qed.

End ExtractMoreTheorems.
Section ExtractNoPanic.
Context `{RegexpLib}.

(** X9: a rule that does not iterate does not panic.  When [Iterate] is
    off in the rule and in the rules of its chain of [Again], [Extract]
    looks at the occurrence 0 only and returns, on every body. *)
Theorem Extract_returns_without_Iterate (e : Extractable) (body : string)
    (v : option (gmap string Value)) :
  Forall (fun r => Iterate r = false) (chain e) ->
  exists r, Extract e body v = Returns r.
Proof.
  revert body. induction e as [e IH] using Extractable_chain_ind. intros body Hall.
  assert (Hit : Iterate e = false).
  { rewrite Forall_forall in Hall. apply Hall, list_elem_of_In, chain_head. }
  rewrite Extract_unfold, ExtractFrom_step. cbn [stringBetweenN mbind Outcome_bind].
  destruct (StringBetween body (AfterThis e) (BeforeThis e)) as [[] bet];
    cbn [negb]; [|eauto].
  destruct (snd (checkConditions e bet)); [rewrite Hit; eauto|].
  unfold againOf. destruct (Again e) as [a|] eqn:Ha; [|eauto].
  apply (IH a eq_refl). rewrite Forall_forall in Hall |- *.
  intros r Hr. apply Hall. rewrite list_elem_of_In in Hr |- *.
  exact (chain_Again _ _ _ Ha Hr).
Qed.

End ExtractNoPanic.

(** ** More on the steps *)

Lemma strings_Count_go_nonneg (fuel : nat) (s sep : string) :
  0 <= strings_Count_go fuel s sep.
Proof.
  revert s; induction fuel as [|fuel IH]; intros s; cbn [strings_Count_go]; [lia|].
  destruct (String.index 0 sep s); [|lia]. specialize (IH (string_drop (n + String.length sep) s)). lia.
Qed.

Lemma strings_Count_nonneg (s sep : string) : 0 <= strings_Count s sep.
Proof. apply strings_Count_go_nonneg. Qed.

Lemma lastValue_Panics (v : list string) : lastValue v = Panics <-> v = [].
Proof.
  unfold lastValue. destruct v as [|x v]; [split; reflexivity|].
  destruct (last_nonempty (x :: v)) as [y ->]; [discriminate|].
  split; discriminate.
Qed.

Lemma lastValue_not_Stuck (v : list string) : lastValue v <> Stuck.
Proof. unfold lastValue. destruct (last v); discriminate. Qed.

Lemma countValues_Returns (t : MultiMap) (c : string) (total n : Z) :
  countValues t c total = Returns n -> total <= n.
Proof.
  revert total; induction t as [|[k v] t IH]; intros total; cbn [countValues].
  - intros [= <-]. lia.
  - destruct (lastValue v) as [x| |]; cbn [mbind Outcome_bind]; try discriminate.
    intros Hn. apply IH in Hn.
    pose proof (strings_Count_nonneg k c). pose proof (strings_Count_nonneg x c). lia.
Qed.

Lemma countValues_Panics (t : MultiMap) (c : string) (total : Z) :
  countValues t c total = Panics <-> Exists (fun e => snd e = []) t.
Proof.
  revert total; induction t as [|[k v] t IH]; intros total; cbn [countValues].
  - split; [discriminate|]. intros Hex. inversion Hex.
  - rewrite Exists_cons. cbn [snd]. rewrite <- (lastValue_Panics v).
    destruct (lastValue v) as [x| |] eqn:Hv; cbn [mbind Outcome_bind].
    + rewrite IH. split; [auto|]. intros [Hc|Hex]; [discriminate|exact Hex].
    + split; auto.
    + exfalso. exact (lastValue_not_Stuck _ Hv).
Qed.

Lemma countValues_not_Stuck (t : MultiMap) (c : string) (total : Z) :
  countValues t c total <> Stuck.
Proof.
  revert total; induction t as [|[k v] t IH]; intros total; cbn [countValues];
    [discriminate|].
  destruct (lastValue v) as [x| |] eqn:Hv; cbn [mbind Outcome_bind];
    [apply IH|discriminate|]. exfalso. exact (lastValue_not_Stuck _ Hv).
Qed.

Lemma countBody_Panics (b : body) (c : string) : countBody b c = Panics <-> uncountable b.
Proof.
  destruct b as [|t|t|t|]; cbn [countBody uncountable];
    try (split; [discriminate|contradiction]); [apply countValues_Panics|].
  split; auto.
Qed.

Lemma countBody_Returns (b : body) (c : string) (n : Z) :
  countBody b c = Returns n -> 0 <= n.
Proof.
  destruct b as [|t|t|t|]; cbn [countBody]; try discriminate;
    try (intros [= <-]; first [apply strings_Count_nonneg|lia]).
  apply countValues_Returns.
Qed.

Lemma countBody_not_Stuck (b : body) (c : string) : countBody b c <> Stuck.
Proof.
  destruct b as [|t|t|t|]; cbn [countBody]; try discriminate. apply countValues_not_Stuck.
Qed.

Section StepMore.
Context `{Libs}.

(** X10: [SanityCheck] panics exactly on a body that [countBody] cannot
    count: a value of a type other than [nil], [string], [[]byte] and
    [url.Values], or a form with a key that has no value.  On any other
    body, a step without input keys passes the check. *)
Theorem SanityCheck_panics_iff (s : Step) (stepNb : Z) :
  (SanityCheck s stepNb = Panics <-> uncountable (Body (Step_Request s)))
  /\ (~ uncountable (Body (Step_Request s)) -> KeysInput s = [] ->
      SanityCheck s stepNb = Returns None).
Proof.
  unfold SanityCheck.
  pose proof (countBody_Panics (Body (Step_Request s)) "{{") as Hp.
  pose proof (countBody_Returns (Body (Step_Request s)) "{{") as Hr.
  pose proof (countBody_not_Stuck (Body (Step_Request s)) "{{") as Hs.
  destruct (countBody (Body (Step_Request s)) "{{") as [n| |];
    cbn [mbind Outcome_bind].
  - split.
    + rewrite <- Hp. destruct (_ <? _); split; discriminate.
    + intros _ ->. specialize (Hr n eq_refl).
      pose proof (strings_Count_nonneg
        (fmt_Sprint_Header (Header (Step_Request s)) +:+ URL (Step_Request s)) "{{").
      destruct (_ <? _) eqn:E; [|reflexivity].
      apply Z.ltb_lt in E. cbn [length] in E. lia.
  - split; [rewrite <- Hp; split; reflexivity|].
    intros Hn. exfalso. apply Hn, Hp. reflexivity.
  - contradiction.
Qed.

Lemma replaceInValues_Panics vals stepNb name (t tmp : MultiMap) bod :
  replaceInValues vals stepNb name t tmp bod = Panics -> Exists (fun e => snd e = []) t.
Proof.
  revert tmp bod; induction t as [|[k v] t IH]; intros tmp bod;
    cbn [replaceInValues]; [discriminate|].
  destruct (replaceInString vals k) as [newK|err]; [|discriminate].
  destruct (lastValue v) as [x| |] eqn:Hv; cbn [mbind Outcome_bind].
  - destruct (replaceInString vals x) as [newV|err]; [|discriminate].
    intros Hp. right. eapply IH, Hp.
  - intros _. left. apply lastValue_Panics, Hv.
  - exfalso. exact (lastValue_not_Stuck _ Hv).
Qed.

Lemma replaceInValues_not_Stuck vals stepNb name (t tmp : MultiMap) bod :
  replaceInValues vals stepNb name t tmp bod <> Stuck.
Proof.
  revert tmp bod; induction t as [|[k v] t IH]; intros tmp bod;
    cbn [replaceInValues]; [discriminate|].
  destruct (replaceInString vals k) as [newK|err]; [|discriminate].
  destruct (lastValue v) as [x| |] eqn:Hv; cbn [mbind Outcome_bind].
  - destruct (replaceInString vals x) as [newV|err]; [apply IH|discriminate].
  - discriminate.
  - exfalso. exact (lastValue_not_Stuck _ Hv).
Qed.

Lemma ReplaceInBody_Panics (s : Step) vals (stepNb : Z) :
  ReplaceInBody s vals stepNb = Panics -> uncountable (Body (Step_Request s)).
Proof.
  unfold ReplaceInBody.
  destruct (negb (length (KeysInput s) =? 0)%nat && notNil (Body (Step_Request s)));
    [|discriminate].
  destruct (Body (Step_Request s)) as [|t|t|t|]; cbn [uncountable];
    try discriminate; try (destruct (replaceInBytes vals t); discriminate); [|auto].
  destruct (replaceInValues vals stepNb (Step_Name s) t [] None)
    as [[bod [err|]]| |] eqn:Hv; cbn [mbind Outcome_bind]; try discriminate.
  - destruct bod; discriminate.
  - intros _. eapply replaceInValues_Panics, Hv.
Qed.

(** X11: [ReplaceInBody] panics only on a step on which [SanityCheck]
    panics too.  [Execute] calls [SanityCheck] first, so none of its panics
    comes from [ReplaceInBody]. *)
Theorem ReplaceInBody_panics_only_after_SanityCheck (s : Step)
    (vals : option (gmap string Value)) (stepNb stepNb' : Z) :
  ReplaceInBody s vals stepNb = Panics -> SanityCheck s stepNb' = Panics.
Proof.
  intros Hp. apply ReplaceInBody_Panics in Hp.
  unfold SanityCheck. apply (countBody_Panics _ "{{") in Hp. rewrite Hp. reflexivity.
Qed.

End StepMore.

Section BodyThenDo.
Context `{Libs}.

Lemma replaceInValues_bod vals stepNb name (t tmp : MultiMap) bod bod' :
  replaceInValues vals stepNb name t tmp bod = Returns (bod', None) ->
  (t = [] /\ bod' = bod) \/ (t <> [] /\ exists b, bod' = Some b).
Proof.
  revert tmp bod; induction t as [|[k v] t IH]; intros tmp bod; cbn [replaceInValues].
  - intros [= <-]. left. split; reflexivity.
  - destruct (replaceInString vals k) as [newK|err]; [|discriminate].
    destruct (lastValue v) as [x| |]; cbn [mbind Outcome_bind]; try discriminate.
    destruct (replaceInString vals x) as [newV|err]; [|discriminate].
    intros Hr. right. split; [discriminate|].
    apply IH in Hr as [[_ ->]|[_ Hb]]; [eexists; reflexivity|exact Hb].
Qed.

(** The body that [ReplaceInBody] leaves when it returns without an
    error: [nil] or a [[]byte], but for a step that is [unsendable]. *)
Lemma ReplaceInBody_body (s s' : Step) (vals : option (gmap string Value)) (stepNb : Z) :
  ReplaceInBody s vals stepNb = Returns (s', None) ->
  match Body (Step_Request s') with
  | NilBody | BytesBody _ => ~ unsendable s
  | _ => unsendable s
  end.
Proof.
  unfold ReplaceInBody, unsendable.
  destruct (KeysInput s) as [|k ks] eqn:Hk; cbn [length Nat.eqb negb andb].
  - intros [= <-]. destruct (Body (Step_Request s)); auto.
  - destruct (Body (Step_Request s)) as [|t|t|t|] eqn:Hb; cbn [notNil].
    + intros [= <-]. rewrite Hb. auto.
    + destruct (replaceInBytes vals t) as [bod|err]; [|discriminate].
      intros [= <-]. cbn. discriminate.
    + destruct (replaceInBytes vals t) as [bod|err]; [|discriminate].
      intros [= <-]. cbn. auto.
    + destruct (replaceInValues vals stepNb (Step_Name s) t [] None)
        as [[bod [err|]]| |] eqn:Hv; cbn [mbind Outcome_bind]; try discriminate.
      apply replaceInValues_bod in Hv as [[-> ->]|[Hne [b ->]]]; intros [= <-].
      * rewrite Hb. auto.
      * cbn. intros [Hc|Hc]; [discriminate|contradiction].
    + discriminate.
Qed.

(** [Do] panics on a body that is neither [nil] nor a [[]byte], and on
    no other. *)
Lemma Do_Panics (r : Request) (jar : Jar) (w : World) :
  snd (Do r jar w) = Panics <->
  match Body r with
  | NilBody | BytesBody _ => False
  | _ => True
  end.
Proof.
  unfold Do. destruct (Body r) as [|t|t|t|];
    try (split; [auto|reflexivity]);
    (split; [|contradiction]);
    (destruct (http_NewRequest (Method r) (URL r)); [discriminate|]);
    destruct (Client_Do _ _ _ _); discriminate.
Qed.

Lemma Do_not_Stuck (r : Request) (jar : Jar) (w : World) : snd (Do r jar w) <> Stuck.
Proof.
  unfold Do. destruct (Body r) as [|t|t|t|]; try discriminate;
    (destruct (http_NewRequest (Method r) (URL r)); [discriminate|]);
    destruct (Client_Do _ _ _ _); discriminate.
Qed.

Lemma ReplaceInBody_not_Stuck (s : Step) vals (stepNb : Z) :
  ReplaceInBody s vals stepNb <> Stuck.
Proof.
  unfold ReplaceInBody.
  destruct (negb (length (KeysInput s) =? 0)%nat && notNil (Body (Step_Request s)));
    [|discriminate].
  destruct (Body (Step_Request s)) as [|t|t|t|]; try discriminate;
    try (destruct (replaceInBytes vals t); discriminate).
  pose proof (replaceInValues_not_Stuck vals stepNb (Step_Name s) t [] None) as Hns.
  destruct (replaceInValues vals stepNb (Step_Name s) t [] None) as [[bod [err|]]| |];
    cbn [mbind Outcome_bind]; try discriminate; [destruct bod; discriminate|contradiction].
Qed.

Lemma SanityCheck_not_Stuck (s : Step) (stepNb : Z) : SanityCheck s stepNb <> Stuck.
Proof.
  unfold SanityCheck.
  pose proof (countBody_not_Stuck (Body (Step_Request s)) "{{") as Hs.
  destruct (countBody (Body (Step_Request s)) "{{") as [n| |]; cbn [mbind Outcome_bind];
    [destruct (_ <? _); discriminate|discriminate|contradiction].
Qed.

(** X12: when [ReplaceInBody] returns without an error, the body that it
    leaves makes [Do] panic exactly for a step that is [unsendable]: a text
    or a form of a step without input keys, an empty form, or a body of
    another type.  In every other case the body is [nil] or the resolved
    [[]byte], and [Do] goes on to build the request. *)
Theorem ReplaceInBody_then_Do (s s' : Step) (vals : option (gmap string Value))
    (stepNb : Z) (jar : Jar) (w : World) :
  ReplaceInBody s vals stepNb = Returns (s', None) ->
  snd (Do (Step_Request s') jar w) = Panics <-> unsendable s.
Proof.
  intros Hb. apply ReplaceInBody_body in Hb. rewrite Do_Panics.
  destruct (Body (Step_Request s')); tauto.
Qed.

End BodyThenDo.

Lemma mm_set_same_keys {V : Type} (m : list (string * V)) (k : string) (v : V) :
  In k (map fst m) -> map fst (mm_set m k v) = map fst m.
Proof.
  induction m as [|[k0 v0] m IH]; cbn [mm_set map fst In]; [tauto|].
  destruct (String.eqb_spec k0 k) as [->|Hne]; [reflexivity|].
  intros [Hc|Hin]; [contradiction|]. cbn [map fst]. rewrite IH by exact Hin. reflexivity.
Qed.

Lemma mm_get_key {V : Type} (m : list (string * V)) (k : string) :
  In k (map fst m) -> exists v, mm_get m k = Some v.
Proof.
  induction m as [|[k0 v0] m IH]; cbn [mm_get map fst In]; [tauto|].
  destruct (String.eqb_spec k0 k) as [->|Hne]; [eauto|].
  intros [Hc|Hin]; [contradiction|apply IH, Hin].
Qed.

Lemma mm_get_Some_key {V : Type} (m : list (string * V)) (k : string) (v : V) :
  mm_get m k = Some v -> In k (map fst m).
Proof.
  induction m as [|[k0 v0] m IH]; cbn [mm_get map fst In]; [discriminate|].
  destruct (String.eqb_spec k0 k) as [->|Hne]; [auto|]. intros Hg. right. apply IH, Hg.
Qed.

Section HeaderMore.
Context `{Libs}.

Lemma replaceInHeaderKeys_canonical (name : string) (vals : option (gmap string Value))
    (keys : list string) :
  forall hcur h' : MultiMap,
    NoDup keys ->
    Forall (fun k => CanonicalMIMEHeaderKey k = k) keys ->
    (forall k, In k keys -> In k (map fst hcur)) ->
    replaceInHeaderKeys name vals keys hcur = (h', None) ->
    map fst h' = map fst hcur
    /\ (forall k, ~ In k keys -> mm_get h' k = mm_get hcur k)
    /\ (forall k v, In k keys -> mm_get hcur k = Some v ->
          exists out, templateGives name (firstOr v) vals out
                      /\ mm_get h' k = Some [out]).
Proof.
  induction keys as [|k keys IH]; intros hcur h' Hnd Hcan Hin; cbn [replaceInHeaderKeys].
  - intros [= <-]. split; [reflexivity|]. split; [reflexivity|]. intros k v [].
  - apply NoDup_cons in Hnd as [Hk Hnd]. rewrite list_elem_of_In in Hk.
    apply Forall_cons in Hcan as [Hck Hcan].
    destruct (mm_get_key hcur k (Hin k (or_introl eq_refl))) as [v0 Hv0].
    assert (Hget : Header_Get hcur k = firstOr v0).
    { unfold Header_Get. rewrite Hck, Hv0. destruct v0; reflexivity. }
    rewrite Hget.
    destruct (template_Parse name (firstOr v0)) as [tpl|err] eqn:Hparse; [|discriminate].
    destruct (template_Execute tpl vals) as [out|err] eqn:Hexec; [|discriminate].
    unfold Header_Set. rewrite Hck. intros Hrest.
    apply IH in Hrest as (Hkeys & Hother & Hdone); [|exact Hnd|exact Hcan|].
    2:{ intros k' Hk'. rewrite mm_set_same_keys by (apply Hin; left; reflexivity).
        apply Hin. right. exact Hk'. }
    rewrite mm_set_same_keys in Hkeys by (apply Hin; left; reflexivity).
    split; [exact Hkeys|]. split.
    + intros k' Hk'. rewrite Hother by (intros Hc; apply Hk'; right; exact Hc).
      apply mm_get_set_ne. intros ->. apply Hk'. left. reflexivity.
    + intros k' v [<-|Hk'] Hv.
      * rewrite Hv in Hv0. injection Hv0 as <-. exists out.
        split; [exists tpl; split; assumption|].
        rewrite (Hother k Hk). apply mm_get_set_eq.
      * apply Hdone; [exact Hk'|]. rewrite mm_get_set_ne; [exact Hv|].
        intros ->. contradiction.
Qed.

(** X13: on a header whose keys are in canonical form (as [Header.Set] and
    [Header.Add] write them), [ReplaceInHeader] without an error keeps the
    keys and leaves one value under each: what the template library makes
    of the first value of the key.  The other values of a key are dropped.
    Nothing of the step but the header changes. *)
Theorem ReplaceInHeader_canonical (s s' : Step) (vals : option (gmap string Value))
    (stepNb : Z) :
  NoDup (map fst (Header (Step_Request s))) ->
  Forall (fun k => CanonicalMIMEHeaderKey k = k) (map fst (Header (Step_Request s))) ->
  ReplaceInHeader s vals stepNb = (s', None) ->
  s' = setRequest s (setHeader (Step_Request s) (Header (Step_Request s')))
  /\ map fst (Header (Step_Request s')) = map fst (Header (Step_Request s))
  /\ (forall k v, mm_get (Header (Step_Request s)) k = Some v ->
        exists out, templateGives (Step_Name s) (firstOr v) vals out
                    /\ mm_get (Header (Step_Request s')) k = Some [out]).
Proof.
  intros Hnd Hcan. unfold ReplaceInHeader.
  destruct (replaceInHeaderKeys (Step_Name s) vals (map fst (Header (Step_Request s)))
              (Header (Step_Request s))) as [h' err] eqn:Hloop.
  intros [= <- ->]. cbn [Step_Request setRequest setHeader Header].
  split; [reflexivity|].
  apply replaceInHeaderKeys_canonical in Hloop as (Hkeys & _ & Hdone);
    [|exact Hnd|exact Hcan|auto].
  split; [exact Hkeys|]. intros k v Hv. apply Hdone; [|exact Hv].
  eapply mm_get_Some_key, Hv.
Qed.

End HeaderMore.

(** ** More on the flows *)

Section FlowFrame.
Context `{Libs}.

Lemma sameBut_refl (s : Step) : sameButHeaderAndResponse s s.
Proof. repeat split. Qed.

Lemma sameBut_trans (a b c : Step) :
  sameButHeaderAndResponse a b -> sameButHeaderAndResponse b c ->
  sameButHeaderAndResponse a c.
Proof.
  intros (A1 & A2 & A3 & A4 & A5 & A6 & A7 & A8) (B1 & B2 & B3 & B4 & B5 & B6 & B7 & B8).
  repeat split; congruence.
Qed.

Lemma Forall2_sameBut_refl (l : list Step) : Forall2 sameButHeaderAndResponse l l.
Proof. induction l; constructor; [apply sameBut_refl|assumption]. Qed.

Lemma Forall2_sameBut_trans (a b c : list Step) :
  Forall2 sameButHeaderAndResponse a b -> Forall2 sameButHeaderAndResponse b c ->
  Forall2 sameButHeaderAndResponse a c.
Proof.
  intros Hab; revert c; induction Hab as [|x y a b Hxy Hab IH]; intros c Hbc;
    inversion Hbc; subst; constructor; [eapply sameBut_trans; eassumption|auto].
Qed.

Lemma Forall2_sameBut_alter (g : Step -> Step) (i : nat) (l : list Step) :
  (forall s, sameButHeaderAndResponse s (g s)) ->
  Forall2 sameButHeaderAndResponse l (alter g i l).
Proof.
  intros Hg. revert i; induction l as [|x l IH]; intros i; [constructor|].
  destruct i as [|i]; cbn; constructor; auto using sameBut_refl, Forall2_sameBut_refl.
Qed.

(** What the three substitutions leave of the step. *)
Lemma ReplaceInBody_frame (s s' : Step) vals (stepNb : Z) (err : option error) :
  ReplaceInBody s vals stepNb = Returns (s', err) ->
  s' = s \/ exists b, s' = setRequest s (setBody (Step_Request s) (BytesBody b)).
Proof.
  unfold ReplaceInBody.
  destruct (negb (length (KeysInput s) =? 0)%nat && notNil (Body (Step_Request s)));
    [|intros [= <- _]; left; reflexivity].
  destruct (Body (Step_Request s)) as [|t|t|t|]; try discriminate;
    try (intros [= <- _]; left; reflexivity);
    try (destruct (replaceInBytes vals t); intros [= <- _]; eauto).
  destruct (replaceInValues vals stepNb (Step_Name s) t [] None) as [[bod [e|]]| |];
    cbn [mbind Outcome_bind]; try discriminate; [intros [= <- _]; auto|].
  destruct bod; intros [= <- _]; eauto.
Qed.

Lemma ReplaceInHeader_frame (s s' : Step) vals (stepNb : Z) (err : option error) :
  ReplaceInHeader s vals stepNb = (s', err) ->
  s' = setRequest s (setHeader (Step_Request s) (Header (Step_Request s'))).
Proof.
  unfold ReplaceInHeader. destruct (replaceInHeaderKeys _ _ _ _) as [h e].
  intros [= <- _]. reflexivity.
Qed.

Lemma ReplaceInURL_frame (s s' : Step) vals (stepNb : Z) (err : option error) :
  ReplaceInURL s vals stepNb = (s', err) ->
  s' = s \/ exists u, s' = setRequest s (setURL (Step_Request s) u).
Proof.
  unfold ReplaceInURL. destruct (template_Parse _ _) as [tpl|e]; [|intros [= <- _]; auto].
  destruct (template_Execute _ _) as [out|e]; intros [= <- _]; eauto.
Qed.

(** The request that [Do] hands to the client. *)
Lemma Do_request (r : Request) (jar : Jar) (w w' : World) (req : option HTTPRequest) res :
  Do r jar w = (w', req, res) ->
  match req with
  | Some q => req_Method q = Method r /\ req_URL q = URL r /\ req_Header q = Header r
  | None => w' = w /\ forall resp, res <> Returns (inl resp)
  end.
Proof.
  unfold Do.
  destruct (Body r) as [|t|t|t|];
    try (intros [= <- <- <-]; split; [reflexivity|discriminate]);
    (destruct (http_NewRequest (Method r) (URL r));
     [intros [= <- <- <-]; split; [reflexivity|discriminate]|]);
    destruct (Client_Do _ _ _ _) as [w1 r1]; intros [= <- <- <-]; repeat split.
Qed.

End FlowFrame.
Section FlowShape.
Context `{Libs}.

Lemma runStep_shape (jar : Jar) (i : nat) (step : Step) (st st' : Exec) res :
  runStep jar i step st = (st', res) -> stepShape i step st st' res.
Proof.
  assert (Hstop : forall r : Outcome (option error), r <> Returns None ->
            stepShape i step st st r).
  { intros r Hr. exists id, []. split; [reflexivity|].
    split; [symmetry; apply list_alter_id; reflexivity|].
    split; [apply sameBut_refl|]. split; [symmetry; apply app_nil_r|].
    split; [cbn; lia|]. intros Hc. contradiction. }
  unfold runStep.
  destruct (missingKey _ _); [intros [= <- <-]; apply Hstop; discriminate|].
  destruct (SanityCheck _ _) as [[e|]| |];
    try (intros [= <- <-]; apply Hstop; discriminate).
  destruct (ReplaceInBody _ _ _) as [[step1 [e|]]| |] eqn:Hbody;
    try (intros [= <- <-]; apply Hstop; discriminate).
  destruct (ReplaceInHeader _ _ _) as [step2 err2] eqn:Hhead.
  cbn [Values setSteps world sent flow].
  set (A := fun s : Step => setRequest s
              (setHeader (Step_Request s) (Header (Step_Request step2)))).
  assert (Hmid : forall (w' : World) reqs (r : Outcome (option error)),
    (length reqs <= 1)%nat -> r <> Returns None ->
    stepShape i step st
      (mkExec (setSteps (flow st) (alter A i (Steps (flow st)))) w' (sent st ++ reqs)) r).
  { intros w' reqs r Hlen Hr. exists A, reqs. split; [reflexivity|].
    split; [reflexivity|]. split; [intros s; repeat split|].
    split; [reflexivity|]. split; [exact Hlen|]. intros Hc. contradiction. }
  destruct err2 as [e|].
  { intros [= <- <-]. rewrite <- (app_nil_r (sent st)).
    apply Hmid; [cbn; lia|discriminate]. }
  destruct (ReplaceInURL _ _ _) as [step3 [e|]] eqn:Hurl.
  { intros [= <- <-]. rewrite <- (app_nil_r (sent st)).
    apply Hmid; [cbn; lia|discriminate]. }
  destruct (Do _ _ _) as [[w req] res0] eqn:Hdo.
  assert (Hreq : (length (option_list req) <= 1)%nat) by (destruct req; cbn; lia).
  destruct res0 as [[resp|e]| |];
    try (intros [= <- <-]; apply Hmid; [exact Hreq|discriminate]).
  destruct (if (Header_Get (resp_Header resp) "Content-Encoding" =? "gzip")%string
            then _ else _) as [resp'|e];
    [|intros [= <- <-]; apply Hmid; [exact Hreq|discriminate]].
  destruct (ioutil_ReadAll _) as [body [e|]];
    [intros [= <- <-]; apply Hmid; [exact Hreq|discriminate]|].
  cbn [Steps setSteps].
  set (B := fun s : Step => setResponse s (Some (mkResponse resp' body (resp_Header resp')))).
  destruct (extractAll _ _ _ _ _) as [values res1].
  assert (Hend : forall r : Outcome (option error),
    stepShape i step st
      (mkExec (setValues (setSteps (flow st) (alter B i (alter A i (Steps (flow st)))))
                 values) w (sent st ++ option_list req)) r).
  { intros r. exists (B ∘ A), (option_list req).
    split; [reflexivity|]. split; [apply list_alter_alter_eq|].
    split; [intros s; repeat split|]. split; [reflexivity|]. split; [exact Hreq|].
    intros _. apply Do_request in Hdo. destruct req as [q|].
    - destruct Hdo as (Hm & _ & Hh). exists q. split; [reflexivity|].
      apply ReplaceInURL_frame in Hurl. apply ReplaceInHeader_frame in Hhead.
      apply ReplaceInBody_frame in Hbody.
      split.
      + rewrite Hm. destruct Hurl as [->|[u ->]], Hbody as [->|[b ->]];
          rewrite Hhead; reflexivity.
      + intros s. eexists. reflexivity.
    - destruct Hdo as [_ Hno]. exfalso. exact (Hno resp eq_refl). }
  destruct res1 as [[e|]| |]; try (intros [= <- <-]; apply Hend).
  destruct (PostHook _) as [hook|]; [destruct (hook _ _ _)|];
    intros [= <- <-]; apply Hend.
Qed.

End FlowShape.
Section FlowMore.
Context `{Libs}.

Lemma runSteps_frame (jar : Jar) (steps : list Step) (i : nat) (st st' : Exec) res :
  runSteps jar i steps st = (st', res) ->
  RequiredValues (flow st') = RequiredValues (flow st)
  /\ Forall2 sameButHeaderAndResponse (Steps (flow st)) (Steps (flow st'))
  /\ exists reqs, sent st' = sent st ++ reqs /\ (length reqs <= length steps)%nat.
Proof.
  revert i st; induction steps as [|step steps IH]; intros i st; cbn [runSteps].
  - intros [= <- _]. split; [reflexivity|]. split; [apply Forall2_sameBut_refl|].
    exists []. split; [symmetry; apply app_nil_r|reflexivity].
  - destruct (runStep jar i step st) as [st1 r] eqn:Hs.
    apply runStep_shape in Hs as (g & reqs & Hreq & Hsteps & Hg & Hsent & Hlen & _).
    assert (Hone : RequiredValues (flow st1) = RequiredValues (flow st)
                   /\ Forall2 sameButHeaderAndResponse (Steps (flow st)) (Steps (flow st1))
                   /\ exists reqs, sent st1 = sent st ++ reqs
                                   /\ (length reqs <= length (step :: steps))%nat).
    { split; [exact Hreq|]. split; [rewrite Hsteps; apply Forall2_sameBut_alter, Hg|].
      exists reqs. split; [exact Hsent|]. cbn [length]. lia. }
    destruct r as [[e|]| |]; try (intros [= <- _]; exact Hone).
    intros Hr. apply IH in Hr as (Hreq' & Hsteps' & reqs' & Hsent' & Hlen').
    split; [congruence|]. split.
    + eapply Forall2_sameBut_trans; [|exact Hsteps'].
      rewrite Hsteps. apply Forall2_sameBut_alter, Hg.
    + exists (reqs ++ reqs'). split; [rewrite Hsent', Hsent, app_assoc; reflexivity|].
      rewrite length_app. cbn [length]. lia.
Qed.

(** X14: [Execute] never changes what a flow is made of.  However the run
    ends, the flow has its [RequiredValues] and as many steps as before,
    and each step has its name, URL, method, body, redirect flag, input
    keys, extracters and hook: the substitutions are made on a copy of the
    step.  Only the header of a step (a map, written in place) and its
    response are written. *)
Theorem Execute_keeps_steps (f : Flow) (values : option (gmap string Value)) (w : World) :
  RequiredValues (flow (fst (Execute f values w))) = RequiredValues f
  /\ Forall2 sameButHeaderAndResponse (Steps f) (Steps (flow (fst (Execute f values w)))).
Proof.
  unfold Execute.
  destruct (missingKey values (RequiredValues f));
    [split; [reflexivity|apply Forall2_sameBut_refl]|].
  cbn [CookieJar setValues Steps].
  destruct (CookieJar f) as [jar|].
  - match goal with
      | |- context [runSteps ?j ?n ?l ?s] =>
          destruct (runSteps j n l s) as [st res] eqn:Hr
      end.
    apply runSteps_frame in Hr as (Hreq & Hsteps & _). split; assumption.
  - destruct cookiejar_New as [jar|e];
      [|split; [reflexivity|apply Forall2_sameBut_refl]].
    cbn [setCookieJar Steps].
    match goal with
      | |- context [runSteps ?j ?n ?l ?s] =>
          destruct (runSteps j n l s) as [st res] eqn:Hr
      end.
    apply runSteps_frame in Hr as (Hreq & Hsteps & _). split; assumption.
Qed.

Lemma runSteps_success (jar : Jar) (steps : list Step) :
  forall (i : nat) (st st' : Exec),
    runSteps jar i steps st = (st', Returns None) ->
    length (sent st) = i ->
    (i + length steps <= length (Steps (flow st)))%nat ->
    length (sent st') = (i + length steps)%nat
    /\ (forall j, (j < i)%nat ->
          Steps (flow st') !! j = Steps (flow st) !! j /\ sent st' !! j = sent st !! j)
    /\ (forall j s, steps !! j = Some s ->
          exists s' req,
            Steps (flow st') !! (i + j)%nat = Some s'
            /\ sent st' !! (i + j)%nat = Some req
            /\ is_Some (Step_Response s')
            /\ req_Method req = Method (Step_Request s)).
Proof.
  induction steps as [|step steps IH]; intros i st st'; cbn [runSteps].
  - intros [= <-] Hi _. cbn [length]. split; [lia|]. split; [auto|].
    intros j s Hs. discriminate.
  - destruct (runStep jar i step st) as [st1 r] eqn:Hs.
    destruct r as [[e|]| |]; try discriminate.
    apply runStep_shape in Hs as (g & reqs & _ & Hsteps & _ & Hsent & _ & Hok).
    destruct (Hok eq_refl) as (req & -> & Hmeth & Hg). clear Hok.
    intros Hr Hi Hlen. cbn [length] in Hlen.
    apply IH in Hr as (Hlen' & Hbefore & Hdone);
      [|rewrite Hsent, length_app; cbn [length]; lia
       |rewrite Hsteps, length_alter; lia].
    split; [cbn [length]; lia|]. split.
    + intros j Hj. destruct (Hbefore j ltac:(lia)) as [-> ->].
      rewrite Hsteps, Hsent. split; [apply list_lookup_alter_ne; lia|].
      apply lookup_app_l. lia.
    + intros [|j] s Hj.
      * injection Hj as <-. rewrite Nat.add_0_r.
        destruct (Hbefore i ltac:(lia)) as [-> ->].
        destruct (lookup_lt_is_Some_2 (Steps (flow st)) i ltac:(lia)) as [s0 Hs0].
        exists (g s0), req. rewrite Hsteps, list_lookup_alter_eq, Hs0.
        split; [reflexivity|]. split.
        { rewrite Hsent, lookup_app_r by lia. rewrite Hi, Nat.sub_diag. reflexivity. }
        split; [exact (Hg s0)|exact Hmeth].
      * replace (i + S j)%nat with (S i + j)%nat by lia. apply Hdone. exact Hj.
Qed.

(** X15: [Execute] hands at most one request per step to the client.  When
    it returns [nil], it has handed over exactly one for each step, in the
    order of the steps; the request of a step went out with the method of
    the step, and the step holds a response. *)
Theorem Execute_requests (f : Flow) (values : option (gmap string Value)) (w : World)
    (st : Exec) (res : Outcome (option error)) :
  Execute f values w = (st, res) ->
  (length (sent st) <= length (Steps f))%nat
  /\ (res = Returns None ->
      length (sent st) = length (Steps f)
      /\ forall i s, Steps f !! i = Some s ->
           exists s' req,
             Steps (flow st) !! i = Some s'
             /\ sent st !! i = Some req
             /\ is_Some (Step_Response s')
             /\ req_Method req = Method (Step_Request s)).
Proof.
  assert (Hloop : forall jar f0, Steps f0 = Steps f ->
            runSteps jar 0 (Steps f) (mkExec f0 w []) = (st, res) ->
            (length (sent st) <= length (Steps f))%nat
            /\ (res = Returns None ->
                length (sent st) = length (Steps f)
                /\ forall i s, Steps f !! i = Some s ->
                     exists s' req,
                       Steps (flow st) !! i = Some s'
                       /\ sent st !! i = Some req
                       /\ is_Some (Step_Response s')
                       /\ req_Method req = Method (Step_Request s))).
  { intros jar f0 Hf0 Hr. split.
    - apply runSteps_frame in Hr as (_ & _ & reqs & Hsent & Hlen).
      rewrite Hsent. cbn [sent app]. exact Hlen.
    - intros ->. apply runSteps_success in Hr as (Hlen & _ & Hdone);
        [|reflexivity|cbn [flow]; rewrite Hf0; lia].
      split; [exact Hlen|]. intros i s Hs. exact (Hdone i s Hs). }
  unfold Execute.
  destruct (missingKey values (RequiredValues f)).
  { intros [= <- <-]. split; [cbn; lia|discriminate]. }
  cbn [CookieJar setValues Steps].
  destruct (CookieJar f) as [jar|]; [apply Hloop; reflexivity|].
  destruct cookiejar_New as [jar|e].
  - cbn [setCookieJar Steps]. apply Hloop. reflexivity.
  - intros [= <- <-]. split; [cbn; lia|discriminate].
Qed.

(** X16: [Execute] stops at the first step that does not end well.  When
    the steps [pre] end without an error and the step after them returns
    an error or panics, that is how the loop over [pre], that step and any
    steps [post] ends, in the state that this step leaves: no step of
    [post] is run. *)
Theorem runSteps_stops_at_failure (jar : Jar) (pre post : list Step) (step : Step)
    (i : nat) (st0 st1 st2 : Exec) (res : Outcome (option error)) :
  runSteps jar i pre st0 = (st1, Returns None) ->
  runStep jar (i + length pre) step st1 = (st2, res) ->
  res <> Returns None ->
  runSteps jar i (pre ++ step :: post) st0 = (st2, res).
Proof.
  intros Hpre Hstep Hres. rewrite (runSteps_app _ _ _ _ _ _ Hpre).
  cbn [runSteps]. rewrite Hstep.
  destruct res as [[e|]| |]; try reflexivity. contradiction.
Qed.

End FlowMore.
Section FlowMore2.
Context `{Libs}.

(** X17: a step whose input key is absent from the store, or empty in it,
    stops the flow before anything of the step is done.  When the steps
    [pre] end without an error, the loop over [pre], the step and any
    steps [post] returns the missing-value error of the first such key of
    the step, with the index and the name of the step in front, in the
    state that [pre] leaves: no request of the step goes out. *)
Theorem runSteps_missing_input (jar : Jar) (pre post : list Step) (step : Step)
    (i : nat) (st0 st1 : Exec) (k0 : string) :
  runSteps jar i pre st0 = (st1, Returns None) ->
  In k0 (KeysInput step) -> absentOrEmpty (Values (flow st1)) k0 ->
  exists k before after,
    KeysInput step = before ++ k :: after
    /\ absentOrEmpty (Values (flow st1)) k
    /\ (forall k', In k' before -> ~ absentOrEmpty (Values (flow st1)) k')
    /\ runSteps jar i (pre ++ step :: post) st0 =
         (st1, Returns (Some (MissingValueError
            ("Step " +:+ pretty (Z.of_nat (i + length pre)) +:+ ".'" +:+
             Step_Name step +:+ "' failed:") k))).
Proof.
  intros Hpre Hin Hab.
  destruct (missingKey (Values (flow st1)) (KeysInput step)) as [k|] eqn:Hm.
  - destruct (proj1 (missingKey_Some _ _ _) Hm) as (before & after & Hk & Hk' & Hbefore).
    exists k, before, after. split; [exact Hk|]. split; [exact Hk'|].
    split; [exact Hbefore|].
    rewrite (runSteps_app _ _ _ _ _ _ Hpre). cbn [runSteps]. unfold runStep.
    rewrite Hm. reflexivity.
  - exfalso. exact (proj1 (missingKey_None _ _) Hm k0 Hin Hab).
Qed.

Lemma missingKey_nil (keys : list string) : missingKey None keys = None -> keys = [].
Proof. destruct keys; [reflexivity|discriminate]. Qed.

Lemma extractAll_nil (i : Z) (name body : string) (outs : list Extracter) values :
  extractAll i name body outs None = (values, Returns None) -> outs = [].
Proof.
  destruct outs as [|x outs]; [reflexivity|]. cbn [extractAll].
  destruct (Extracter_Extract x body None) as [[[n s] [e|]]| |]; try discriminate.
  destruct (n =? "")%string; discriminate.
Qed.

Lemma runStep_nil (jar : Jar) (i : nat) (step : Step) (st st' : Exec) :
  Values (flow st) = None ->
  runStep jar i step st = (st', Returns None) ->
  KeysInput step = [] /\ KeysOutput step = [] /\ Values (flow st') = None.
Proof.
  intros Hnil Hrun.
  assert (Hv : Values (flow st') = None).
  { apply runStep_grows in Hrun. rewrite Hnil in Hrun.
    destruct (Values (flow st')); [contradiction|reflexivity]. }
  revert Hrun. unfold runStep. rewrite Hnil.
  destruct (missingKey None (KeysInput step)) eqn:Hm; [discriminate|].
  apply missingKey_nil in Hm.
  destruct (SanityCheck _ _) as [[e|]| |]; try discriminate.
  destruct (ReplaceInBody _ _ _) as [[step1 [e|]]| |] eqn:Hbody; try discriminate.
  destruct (ReplaceInHeader _ _ _) as [step2 [e|]] eqn:Hhead; [discriminate|].
  cbn [Values setSteps world sent flow]. rewrite Hnil.
  destruct (ReplaceInURL _ _ _) as [step3 [e|]] eqn:Hurl; [discriminate|].
  destruct (Do _ _ _) as [[w req] res0].
  destruct res0 as [[resp|e]| |]; try discriminate.
  destruct (if (Header_Get (resp_Header resp) "Content-Encoding" =? "gzip")%string
            then _ else _) as [resp'|e]; [|discriminate].
  destruct (ioutil_ReadAll _) as [body [e|]]; [discriminate|].
  destruct (extractAll _ _ _ _ _) as [values res1] eqn:Hx.
  destruct res1 as [[e|]| |]; try discriminate.
  apply extractAll_nil in Hx. intros _.
  apply ReplaceInURL_frame in Hurl. apply ReplaceInHeader_frame in Hhead.
  apply ReplaceInBody_frame in Hbody.
  split; [exact Hm|]. split; [|exact Hv].
  rewrite <- Hx. destruct Hurl as [->|[u ->]], Hbody as [->|[b ->]];
    rewrite Hhead; reflexivity.
Qed.

Lemma runSteps_nil (jar : Jar) (steps : list Step) (i : nat) (st st' : Exec) :
  Values (flow st) = None ->
  runSteps jar i steps st = (st', Returns None) ->
  Forall (fun s => KeysInput s = [] /\ KeysOutput s = []) steps.
Proof.
  revert i st; induction steps as [|step steps IH]; intros i st Hnil; cbn [runSteps];
    [constructor|].
  destruct (runStep jar i step st) as [st1 r] eqn:Hs.
  destruct r as [[e|]| |]; try discriminate.
  apply (runStep_nil _ _ _ _ _ Hnil) in Hs as (Hin & Hout & Hnil1).
  intros Hr. constructor; [split; assumption|]. eapply IH; eassumption.
Qed.

(** X18: with a [nil] map of values, [Execute] returns [nil] only for a
    flow that asks for no value and extracts none: no required value, and
    no input key and no extracter in any step.  (Reading a [nil] map finds
    nothing, and storing an extracted value in it panics.) *)
Theorem Execute_nil_values (f : Flow) (w : World) (st : Exec) :
  Execute f None w = (st, Returns None) ->
  RequiredValues f = []
  /\ Forall (fun s => KeysInput s = [] /\ KeysOutput s = []) (Steps f).
Proof.
  unfold Execute.
  destruct (missingKey None (RequiredValues f)) eqn:Hm; [discriminate|].
  apply missingKey_nil in Hm. cbn [CookieJar setValues Steps].
  destruct (CookieJar f) as [jar|].
  - intros Hr. split; [exact Hm|]. eapply runSteps_nil; [|exact Hr]. reflexivity.
  - destruct cookiejar_New as [jar|e]; [|discriminate]. cbn [setCookieJar Steps].
    intros Hr. split; [exact Hm|]. eapply runSteps_nil; [|exact Hr]. reflexivity.
Qed.

Lemma extractAll_Returns (i : Z) (name body : string) (outs : list Extracter)
    (m : gmap string Value) :
  Forall extracterReturns outs ->
  exists r, snd (extractAll i name body outs (Some m)) = Returns r.
Proof.
  revert m; induction outs as [|x outs IH]; intros m Hall; cbn [extractAll];
    [eexists; reflexivity|].
  apply Forall_cons in Hall as [Hx Hall].
  destruct (Hx body (Some m)) as [[[n s] err] ->].
  destruct err as [e|]; [eexists; reflexivity|].
  destruct (n =? "")%string; [eexists; reflexivity|]. apply IH, Hall.
Qed.

Lemma runStep_Returns (jar : Jar) (i : nat) (step : Step) (st : Exec) :
  runnable step -> is_Some (Values (flow st)) ->
  exists r, snd (runStep jar i step st) = Returns r.
Proof.
  intros (Hcount & Hsend & Hx) [m Hm]. unfold runStep.
  destruct (missingKey _ _); [eexists; reflexivity|].
  pose proof (SanityCheck_not_Stuck step (Z.of_nat i)) as Hs1.
  pose proof (ReplaceInBody_Panics step (Values (flow st)) (Z.of_nat i)) as Hp2.
  pose proof (ReplaceInBody_not_Stuck step (Values (flow st)) (Z.of_nat i)) as Hs2.
  destruct (SanityCheck step (Z.of_nat i)) as [[e|]| |] eqn:Hsc;
    [eexists; reflexivity| | |contradiction].
  2:{ exfalso. apply Hcount. unfold SanityCheck in Hsc.
      apply (countBody_Panics _ "{{").
      destruct (countBody _ _); cbn [mbind Outcome_bind] in Hsc;
        [destruct (_ <? _); discriminate|reflexivity|discriminate]. }
  destruct (ReplaceInBody _ _ _) as [[step1 [e|]]| |] eqn:Hb;
    [eexists; reflexivity| |exfalso; apply Hcount, Hp2; reflexivity|contradiction].
  pose proof (ReplaceInBody_frame _ _ _ _ _ Hb) as Hf.
  apply ReplaceInBody_body in Hb.
  destruct (ReplaceInHeader _ _ _) as [step2 [e|]] eqn:Hhead; [eexists; reflexivity|].
  cbn [Values setSteps world sent flow].
  destruct (ReplaceInURL _ _ _) as [step3 [e|]] eqn:Hurl; [eexists; reflexivity|].
  pose proof (Do_Panics (Step_Request step3) jar (world st)) as Hdp.
  pose proof (Do_not_Stuck (Step_Request step3) jar (world st)) as Hds.
  assert (Hbody3 : Body (Step_Request step3) = Body (Step_Request step1)).
  { apply ReplaceInURL_frame in Hurl. apply ReplaceInHeader_frame in Hhead.
    destruct Hurl as [->|[u ->]]; rewrite Hhead; reflexivity. }
  rewrite Hbody3 in Hdp.
  destruct (Do _ _ _) as [[w req] res0]. cbn [snd] in Hdp, Hds.
  destruct res0 as [[resp|e]| |];
    [|eexists; reflexivity| |contradiction].
  2:{ exfalso. destruct (Body (Step_Request step1)); tauto. }
  destruct (if (Header_Get (resp_Header resp) "Content-Encoding" =? "gzip")%string
            then _ else _) as [resp'|e]; [|eexists; reflexivity].
  destruct (ioutil_ReadAll _) as [body [e|]]; [eexists; reflexivity|].
  cbn [Values setSteps]. rewrite Hm.
  assert (Hout : KeysOutput step3 = KeysOutput step).
  { apply ReplaceInURL_frame in Hurl. apply ReplaceInHeader_frame in Hhead.
    destruct Hurl as [->|[u ->]]; rewrite Hhead; cbn [KeysOutput setRequest];
      destruct Hf as [->|[b ->]]; reflexivity. }
  destruct (extractAll_Returns (Z.of_nat i) (Step_Name step) body (KeysOutput step3) m)
    as [r Hr]; [rewrite Hout; exact Hx|].
  destruct (extractAll _ _ _ _ _) as [values res1]. cbn [snd] in Hr. subst res1.
  destruct r as [e|]; [eexists; reflexivity|].
  destruct (PostHook _) as [hook|]; [destruct (hook _ _ _)|]; eexists; reflexivity.
Qed.

Lemma runSteps_Returns (jar : Jar) (steps : list Step) (i : nat) (st : Exec) :
  Forall runnable steps -> is_Some (Values (flow st)) ->
  exists r, snd (runSteps jar i steps st) = Returns r.
Proof.
  revert i st; induction steps as [|step steps IH]; intros i st Hall Hv; cbn [runSteps];
    [eexists; reflexivity|].
  apply Forall_cons in Hall as [Hstep Hall].
  destruct (runStep_Returns jar i step st Hstep Hv) as [r Hr].
  destruct (runStep jar i step st) as [st1 r1] eqn:Hs. cbn [snd] in Hr. subst r1.
  destruct r as [e|]; [eexists; reflexivity|].
  apply IH; [exact Hall|]. apply runStep_grows in Hs.
  destruct Hv as [m Hm]. rewrite Hm in Hs.
  destruct (Values (flow st1)); [eexists; reflexivity|contradiction].
Qed.

(** X19: [Execute] returns, with an error or with [nil], and does not
    panic, when it is given a map that is not [nil] and every step of the
    flow is [runnable]: the body of the step is [nil], a [[]byte], or a
    text or a non-empty form (with a value for each key) of a step that
    has input keys, and the extracters of the step do not panic. *)
Theorem Execute_returns (f : Flow) (m : gmap string Value) (w : World) :
  Forall runnable (Steps f) ->
  exists r, snd (Execute f (Some m) w) = Returns r.
Proof.
  intros Hall. unfold Execute.
  destruct (missingKey (Some m) (RequiredValues f)); [eexists; reflexivity|].
  cbn [CookieJar setValues Steps].
  destruct (CookieJar f) as [jar|].
  - apply runSteps_Returns; [exact Hall|eexists; reflexivity].
  - destruct cookiejar_New as [jar|e]; [|eexists; reflexivity].
    cbn [setCookieJar Steps]. apply runSteps_Returns; [exact Hall|eexists; reflexivity].
Qed.

End FlowMore2.
Section FlowJar.
Context `{Libs}.

Lemma runStep_jar (jar : Jar) (i : nat) (step : Step) (st st' : Exec) res :
  runStep jar i step st = (st', res) -> CookieJar (flow st') = CookieJar (flow st).
Proof.
  unfold runStep.
  destruct (missingKey _ _); [intros [= <- _]; reflexivity|].
  destruct (SanityCheck _ _) as [[e|]| |]; try (intros [= <- _]; reflexivity).
  destruct (ReplaceInBody _ _ _) as [[step1 [e|]]| |];
    try (intros [= <- _]; reflexivity).
  destruct (ReplaceInHeader _ _ _) as [step2 [e|]]; [intros [= <- _]; reflexivity|].
  cbn [Values setSteps world sent].
  destruct (ReplaceInURL _ _ _) as [step3 [e|]]; [intros [= <- _]; reflexivity|].
  destruct (Do _ _ _) as [[w req] res0].
  destruct res0 as [[resp|e]| |]; try (intros [= <- _]; reflexivity).
  destruct (if (Header_Get (resp_Header resp) "Content-Encoding" =? "gzip")%string
            then _ else _) as [resp'|e]; [|intros [= <- _]; reflexivity].
  destruct (ioutil_ReadAll _) as [body [e|]]; [intros [= <- _]; reflexivity|].
  destruct (extractAll _ _ _ _ _) as [values res1].
  destruct res1 as [[e|]| |]; try (intros [= <- _]; reflexivity).
  destruct (PostHook _) as [hook|]; [destruct (hook _ _ _)|];
    intros [= <- _]; reflexivity.
Qed.

Lemma runSteps_jar (jar : Jar) (steps : list Step) (i : nat) (st st' : Exec) res :
  runSteps jar i steps st = (st', res) -> CookieJar (flow st') = CookieJar (flow st).
Proof.
  revert i st; induction steps as [|step steps IH]; intros i st; cbn [runSteps].
  - intros [= <- _]. reflexivity.
  - destruct (runStep jar i step st) as [st1 r] eqn:Hs. apply runStep_jar in Hs.
    destruct r as [[e|]| |]; try (intros [= <- _]; exact Hs).
    intros Hr. apply IH in Hr. congruence.
Qed.

(** X21: the cookie jar of a flow.  Once the required values are there,
    a flow that has a jar keeps it through [Execute], however the run ends;
    a flow without one gets the jar that [cookiejar.New] makes, and holds it
    from then on (so a second [Execute] on the flow goes on with the same
    jar); and when [cookiejar.New] fails, [Execute] returns its error with
    the map installed and no step run. *)
Theorem Execute_cookie_jar (f : Flow) (values : option (gmap string Value)) (w : World) :
  (forall k, In k (RequiredValues f) -> ~ absentOrEmpty values k) ->
  match CookieJar f, cookiejar_New with
  | Some jar, _ => CookieJar (flow (fst (Execute f values w))) = Some jar
  | None, inl jar => CookieJar (flow (fst (Execute f values w))) = Some jar
  | None, inr err =>
      Execute f values w = (mkExec (setValues f values) w [], Returns (Some err))
  end.
Proof.
  intros Hreq. apply missingKey_None in Hreq. unfold Execute. rewrite Hreq.
  cbn [CookieJar setValues Steps].
  destruct (CookieJar f) as [jar|] eqn:Hjar.
  - match goal with
    | |- context [runSteps ?j ?n ?l ?s] => destruct (runSteps j n l s) as [st res] eqn:Hr
    end.
    apply runSteps_jar in Hr. cbn [fst]. rewrite Hr. exact Hjar.
  - destruct cookiejar_New as [jar|e]; [|reflexivity]. cbn [setCookieJar Steps].
    match goal with
    | |- context [runSteps ?j ?n ?l ?s] => destruct (runSteps j n l s) as [st res] eqn:Hr
    end.
    apply runSteps_jar in Hr. cbn [fst]. rewrite Hr. reflexivity.
Qed.

End FlowJar.
Lemma putAll_lookup (m : gmap string Value) (writes : list (string * string)) (k : string) :
  putAll m writes !! k =
  match lastWrite writes k with
  | Some s => Some (VString s)
  | None => m !! k
  end.
Proof.
  induction writes as [|[n s] writes IH] using rev_ind; [reflexivity|].
  unfold putAll, lastWrite in *. rewrite !fold_left_app. cbn [fold_left fst snd].
  destruct (String.eqb_spec n k) as [->|Hne].
  - apply lookup_insert_eq.
  - rewrite lookup_insert_ne by exact Hne. exact IH.
Qed.

Section ExtractAllMore.
Context `{Libs}.

(** X23: what the extraction loop of a step leaves in the store.  When
    the loop ends without an error, every extracter has returned a name
    that is not empty, with no error; the store holds, under each of these
    names, the value of the last extracter that returned the name, and
    under any other key what it held before. *)
Theorem extractAll_lookup (i : Z) (name body : string) (outs : list Extracter)
    (m : gmap string Value) (values' : option (gmap string Value)) :
  extractAll i name body outs (Some m) = (values', Returns None) ->
  exists writes m',
    values' = Some m'
    /\ Forall2 (fun x w => fst w <> ""
                  /\ exists v, Extracter_Extract x body v = Returns (fst w, snd w, None))
         outs writes
    /\ forall k, m' !! k = match lastWrite writes k with
                           | Some s => Some (VString s)
                           | None => m !! k
                           end.
Proof.
  assert (Hgen : forall m0,
    extractAll i name body outs (Some m0) = (values', Returns None) ->
    exists writes,
      values' = Some (putAll m0 writes)
      /\ Forall2 (fun x w => fst w <> ""
                    /\ exists v, Extracter_Extract x body v = Returns (fst w, snd w, None))
           outs writes).
  { induction outs as [|x outs IH]; intros m0; cbn [extractAll].
    - intros [= <-]. exists []. split; [reflexivity|constructor].
    - destruct (Extracter_Extract x body (Some m0)) as [[[n s] [e|]]| |] eqn:Hx;
        try discriminate.
      destruct (String.eqb_spec n "") as [->|Hne]; [discriminate|].
      intros Hrest. apply IH in Hrest as (writes & -> & Hall).
      exists ((n, s) :: writes). split; [reflexivity|].
      constructor; [|exact Hall]. split; [exact Hne|]. exists (Some m0). exact Hx. }
  intros Hx. apply Hgen in Hx as (writes & -> & Hall).
  exists writes, (putAll m writes). split; [reflexivity|]. split; [exact Hall|].
  intros k. apply putAll_lookup.
Qed.

End ExtractAllMore.

(** ** More on cloning *)

Lemma copyValues_Panics (hb : Mem.heap) (p : Mem.loc) (t : list (string * Mem.loc))
    (tV : MultiMap) (h : Mem.heap) (acc : list (string * Mem.loc)) (accV : MultiMap) :
  hb ⊆ h -> hb !! p = None ->
  Mem.loadEntries hb t = Some tV -> Exists (fun e => snd e = []) tV ->
  h !! p = Some (Mem.Map acc) -> Mem.loadEntries h acc = Some accV ->
  Forall (fun q => q <> p /\ hb !! q = None) (map snd acc) ->
  Mem.copyValues t p h = Panics.
Proof.
  intros Hsub Hbp. revert tV h acc accV Hsub.
  induction t as [|[k q] t IH]; intros tV h acc accV Hsub Ht Hex Hp Hacc Hnew;
    cbn [Mem.copyValues].
  - injection Ht as <-. inversion Hex.
  - cbn [Mem.loadEntries] in Ht.
    destruct (hb !! q) as [[l| | | |]|] eqn:Hq; try discriminate.
    destruct (Mem.loadEntries hb t) as [tV'|] eqn:Ht'; [|discriminate].
    injection Ht as <-.
    unfold Mem.readStrings. rewrite (lookup_weaken _ _ _ _ Hq Hsub).
    cbn [mbind Outcome_bind].
    destruct l as [|x0 l]; [reflexivity|].
    destruct (last_nonempty (x0 :: l)) as [x Hx]; [discriminate|].
    unfold lastValue. rewrite Hx. cbn [mbind Outcome_bind].
    destruct (setEntry_spec hb h p k x acc accV Hsub Hbp Hp Hacc Hnew)
      as (h1 & acc1 & -> & Hsub1 & Hp1 & Hacc1 & Hnew1).
    cbn [mbind Outcome_bind].
    apply Exists_cons in Hex as [Hc|Hex]; [discriminate|].
    exact (IH tV' h1 acc1 _ Hsub1 eq_refl Hex Hp1 Hacc1 Hnew1).
Qed.

Lemma newBody_Panics (h : Mem.heap) (b : Mem.body) :
  uncopyable h b -> Mem.newBody b h = Panics.
Proof.
  destruct b as [|t|p|p|]; cbn [uncopyable Mem.newBody]; try contradiction; [|reflexivity].
  intros (mm & Hmm & Hex). unfold Mem.loadMap in Hmm. unfold Mem.readMap, Mem.alloc.
  destruct (h !! p) as [[| | |m|]|] eqn:Hp; try discriminate. cbn [mbind Outcome_bind].
  set (q := fresh (dom h)).
  assert (Hq : h !! q = None) by apply fresh_none. clearbody q.
  rewrite (copyValues_Panics h q m mm (<[q := Mem.Map []]> h) [] []
             (insert_subseteq _ _ _ Hq) Hq Hmm Hex (lookup_insert_eq _ _ _)
             eq_refl (Forall_nil_2 _)).
  reflexivity.
Qed.

Lemma uncopyable_keeps (h h' : Mem.heap) (b : Mem.body) :
  keeps h h' -> uncopyable h b -> uncopyable h' b.
Proof.
  intros Hk. destruct b as [|t|p|p|]; cbn [uncopyable]; try tauto.
  intros (mm & Hmm & Hex). exists mm. split; [|exact Hex].
  eapply loadMap_keeps; eassumption.
Qed.

Section CloningPanics.
Context `{Libs}.

(** The loop over the steps panics at the first step whose body cannot be
    copied, when the steps before it can. *)
Lemma copySteps_Panics (hb : Mem.heap) (ps : Mem.loc) (k : nat) (s : Mem.Step) (n : nat) :
  forall (i : nat) (h : Mem.heap) (arr : list Mem.Step),
    hb ⊆ h -> hb !! ps = None -> h !! ps = Some (Mem.StepArray arr) ->
    length arr = (i + n)%nat ->
    (i <= k)%nat -> arr !! k = Some s ->
    is_Some (Mem.loadHeader hb (Mem.Header (Mem.Step_Request s))) ->
    uncopyable hb (Mem.Body (Mem.Step_Request s)) ->
    (forall j s', (i <= j < k)%nat -> arr !! j = Some s' -> stepCopyable hb s') ->
    Mem.copySteps n i ps h = Panics.
Proof.
  induction n as [|n IH]; intros i h arr Hsub Hbps Hps Hlen Hik Hk Hhead Hbad Hok.
  - apply lookup_lt_Some in Hk. lia.
  - destruct (decide (i = k)) as [->|Hne].
    + cbn [Mem.copySteps]. unfold Mem.readSteps. rewrite Hps. cbn [mbind Outcome_bind].
      rewrite Hk. destruct Hhead as [mm Hold].
      pose proof (loadHeader_keeps _ _ _ _ (subseteq_keeps _ _ Hsub) Hold) as Hold1.
      destruct (copyHeader_spec h _ mm Hold1) as (p & h1 & -> & Hsub1 & _).
      cbn [mbind Outcome_bind].
      rewrite (newBody_Panics h1); [reflexivity|].
      eapply uncopyable_keeps; [|exact Hbad]. apply subseteq_keeps. etrans; eassumption.
    + destruct (lookup_lt_is_Some_2 arr i ltac:(lia)) as [s0 Hs0].
      destruct (renew_copied hb h s0 Hsub (Hok i s0 ltac:(lia) Hs0))
        as (p & h1 & b' & h2 & Hc & Hn & Hsub2 & _).
      pose proof (lookup_weaken _ _ _ _ Hps Hsub2) as Hps2.
      rewrite (copySteps_step n i ps h h1 h2 arr arr s0 p b' Hps Hs0 Hc Hn Hps2).
      apply (IH (S i) _ (<[i := Mem.renew s0 b' p]> arr)).
      * apply insert_subseteq_r; [exact Hbps|]. etrans; eassumption.
      * exact Hbps.
      * apply lookup_insert_eq.
      * rewrite length_insert. lia.
      * lia.
      * rewrite list_lookup_insert_ne by exact Hne. exact Hk.
      * exact Hhead.
      * exact Hbad.
      * intros j s' Hj Hs'. rewrite list_lookup_insert_ne in Hs' by lia.
        apply (Hok j s'); [lia|exact Hs'].
Qed.

(** X20: [CompleteCopy] panics on a flow with a step whose body [newBody]
    cannot copy (a body of a type other than [nil], [string], [[]byte] and
    [url.Values], or a form with a key that has no value), when the steps
    before that one can be copied. *)
Theorem CompleteCopy_panics (f : Mem.Flow) (h : Mem.heap) (required : list string)
    (pre post : list Mem.Step) (s : Mem.Step) :
  Mem.stringsOf h (Mem.RequiredValues f) = Returns required ->
  Mem.stepsOf h (Mem.Steps f) = Returns (pre ++ s :: post) ->
  Forall (stepCopyable h) pre ->
  is_Some (Mem.loadHeader h (Mem.Header (Mem.Step_Request s))) ->
  uncopyable h (Mem.Body (Mem.Step_Request s)) ->
  Mem.CompleteCopy f h = Panics.
Proof.
  intros Hreq Hsteps Hpre Hhead Hbad.
  unfold Mem.CompleteCopy, Mem.alloc. rewrite Hreq. cbn [mbind Outcome_bind].
  set (pr := fresh (dom h)).
  assert (Hpr : h !! pr = None) by apply fresh_none. clearbody pr.
  set (h1 := <[pr := Mem.Strings required]> h).
  assert (Hsub1 : h ⊆ h1) by (apply insert_subseteq, Hpr).
  assert (Hsteps1 : Mem.stepsOf h1 (Mem.Steps f) = Returns (pre ++ s :: post)).
  { destruct (Mem.Steps f) as [p|]; cbn [Mem.stepsOf] in *; [|exact Hsteps].
    unfold Mem.readSteps in *.
    destruct (h !! p) as [[| |l| |]|] eqn:Hp; try discriminate.
    rewrite (lookup_weaken _ _ _ _ Hp Hsub1). exact Hsteps. }
  rewrite Hsteps1. cbn [mbind Outcome_bind].
  set (ps := fresh (dom h1)).
  assert (Hps1 : h1 !! ps = None) by apply fresh_none. clearbody ps.
  set (h2 := <[ps := Mem.StepArray (pre ++ s :: post)]> h1).
  assert (Hsub2 : h ⊆ h2).
  { etrans; [exact Hsub1|]. apply insert_subseteq, Hps1. }
  assert (Hps : h !! ps = None) by exact (subseteq_none _ _ _ Hsub1 Hps1).
  rewrite (copySteps_Panics h ps (length pre) s (length (pre ++ s :: post)) 0 h2
             (pre ++ s :: post) Hsub2 Hps (lookup_insert_eq _ _ _) eq_refl
             (Nat.le_0_l _)); [reflexivity| | | |].
  - rewrite lookup_app_r by lia. rewrite Nat.sub_diag. reflexivity.
  - exact Hhead.
  - exact Hbad.
  - intros j s' Hj Hs'. rewrite lookup_app_l in Hs' by lia.
    rewrite Forall_forall in Hpre. apply Hpre. eapply list_elem_of_lookup_2, Hs'.
Qed.

End CloningPanics.
Section CloningUnshares.
Context `{Libs}.

Lemma copyHeader_fresh (h h1 : Mem.heap) (old : option Mem.loc) (p : Mem.loc) :
  Mem.copyHeader old h = Returns (p, h1) -> h !! p = None.
Proof.
  unfold Mem.copyHeader, Mem.alloc.
  destruct (Mem.entriesOf h old) as [m| |]; cbn [mbind Outcome_bind]; try discriminate.
  destruct (Mem.copyKeys (map fst m) old (fresh (dom h)) _) as [h2| |];
    cbn [mbind Outcome_bind]; try discriminate.
  intros [= <- _]. apply fresh_none.
Qed.

(** The loop over the steps gives each step a header map that the heap did
    not hold when the iteration began: no two steps of the copy share
    one. *)
Lemma copySteps_fresh (hb : Mem.heap) (ps : Mem.loc) (n : nat) :
  forall (i : nat) (h : Mem.heap) (arr : list Mem.Step),
    hb ⊆ h -> hb !! ps = None -> h !! ps = Some (Mem.StepArray arr) ->
    length arr = (i + n)%nat ->
    (forall j s, (i <= j)%nat -> arr !! j = Some s -> stepCopyable hb s) ->
    exists h' arr',
      Mem.copySteps n i ps h = Returns h'
      /\ h' !! ps = Some (Mem.StepArray arr')
      /\ (forall j, (j < i)%nat -> arr' !! j = arr !! j)
      /\ (forall j s, (i <= j)%nat -> arr' !! j = Some s ->
            exists p, Mem.Header (Mem.Step_Request s) = Some p /\ h !! p = None)
      /\ (forall j j' s s', (i <= j < j')%nat ->
            arr' !! j = Some s -> arr' !! j' = Some s' ->
            Mem.Header (Mem.Step_Request s) <> Mem.Header (Mem.Step_Request s')).
Proof.
  induction n as [|n IH]; intros i h arr Hsub Hbps Hps Hlen Hok.
  - exists h, arr. split; [reflexivity|]. split; [exact Hps|].
    split; [reflexivity|]. split.
    + intros j s Hj Hs. apply lookup_lt_Some in Hs. lia.
    + intros j j' s s' Hj Hs Hs'. apply lookup_lt_Some in Hs'. lia.
  - destruct (lookup_lt_is_Some_2 arr i ltac:(lia)) as [s Hs].
    destruct (renew_copied hb h s Hsub (Hok i s (le_n _) Hs))
      as (p & h1 & b' & h2 & Hc & Hn & Hsub2 & Hcopied).
    pose proof (lookup_weaken _ _ _ _ Hps Hsub2) as Hps2.
    rewrite (copySteps_step n i ps h h1 h2 arr arr s p b' Hps Hs Hc Hn Hps2).
    set (arr3 := <[i := Mem.renew s b' p]> arr).
    set (h3 := <[ps := Mem.StepArray arr3]> h2).
    pose proof (copyHeader_fresh _ _ _ _ Hc) as Hp.
    assert (Hpps : ps <> p) by (intros ->; rewrite Hps in Hp; discriminate).
    assert (Hp3 : is_Some (h3 !! p)).
    { destruct Hcopied as (_ & _ & _ & _ & _ & _ & _ & _ & Hh & _).
      destruct Hh as (p' & mm & mm' & Hnew & _ & _ & Hload & _).
      cbn in Hnew. injection Hnew as <-. unfold h3.
      rewrite lookup_insert_ne by exact Hpps. unfold Mem.loadMap in Hload.
      destruct (h2 !! p); [eexists; reflexivity|discriminate]. }
    assert (Hsub3 : hb ⊆ h3).
    { apply insert_subseteq_r; [exact Hbps|]. etrans; eassumption. }
    destruct (IH (S i) h3 arr3 Hsub3 Hbps (lookup_insert_eq _ _ _))
      as (h' & arr' & -> & Hps' & Hbefore & Hnew & Hdiff).
    { unfold arr3. rewrite length_insert. lia. }
    { intros j s0 Hj Hs0. unfold arr3 in Hs0.
      rewrite list_lookup_insert_ne in Hs0 by lia. apply (Hok j s0); [lia|exact Hs0]. }
    assert (Hi : arr' !! i = Some (Mem.renew s b' p)).
    { rewrite Hbefore by lia. unfold arr3. apply list_lookup_insert_eq.
      apply lookup_lt_Some in Hs. exact Hs. }
    assert (Hlater : forall j s0, (S i <= j)%nat -> arr' !! j = Some s0 ->
              exists q, Mem.Header (Mem.Step_Request s0) = Some q
                        /\ h3 !! q = None /\ h !! q = None).
    { intros j s0 Hj Hs0. destruct (Hnew j s0 Hj Hs0) as (q & Hq & Hq3).
      exists q. split; [exact Hq|]. split; [exact Hq3|].
      destruct (h !! q) as [o|] eqn:Ho; [|reflexivity].
      pose proof (lookup_weaken _ _ _ _ Ho Hsub2) as Ho2. unfold h3 in Hq3.
      destruct (decide (ps = q)) as [<-|Hne];
        [rewrite lookup_insert_eq in Hq3|rewrite lookup_insert_ne in Hq3 by exact Hne];
        congruence. }
    exists h', arr'. split; [reflexivity|]. split; [exact Hps'|]. split; [|split].
    + intros j Hj. rewrite Hbefore by lia. unfold arr3.
      apply list_lookup_insert_ne. lia.
    + intros j s0 Hj Hs0. destruct (decide (j = i)) as [->|Hne].
      * rewrite Hi in Hs0. injection Hs0 as <-. exists p. split; [reflexivity|exact Hp].
      * destruct (Hlater j s0 ltac:(lia) Hs0) as (q & Hq & _ & Hqh). eauto.
    + intros j j' s0 s0' Hj Hs0 Hs0'. destruct (decide (j = i)) as [->|Hne].
      * rewrite Hi in Hs0. injection Hs0 as <-.
        destruct (Hlater j' s0' ltac:(lia) Hs0') as (q & Hq & Hq3 & _).
        rewrite Hq. cbn. intros [= ->]. destruct Hp3 as [o Ho]. congruence.
      * apply (Hdiff j j'); [lia|assumption..].
Qed.

(** X22: [CompleteCopy] gives every step of the copy a header map of its
    own: no two steps of the copy hold the same map, also where steps of
    the flow shared one.  (A substitution that [Execute] writes into the
    header of one step of the copy cannot show in another step.) *)
Theorem CompleteCopy_unshares_headers (f f' : Mem.Flow) (h h' : Mem.heap) :
  flowCopyable h f ->
  Mem.CompleteCopy f h = Returns (f', h') ->
  exists steps',
    Mem.stepsOf h' (Mem.Steps f') = Returns steps'
    /\ forall i j s s', i <> j ->
         steps' !! i = Some s -> steps' !! j = Some s' ->
         Mem.Header (Mem.Step_Request s) <> Mem.Header (Mem.Step_Request s').
Proof.
  intros [[required Hreq] (steps & Hsteps & Hok)].
  unfold Mem.CompleteCopy, Mem.alloc. rewrite Hreq. cbn [mbind Outcome_bind].
  set (pr := fresh (dom h)).
  assert (Hpr : h !! pr = None) by apply fresh_none. clearbody pr.
  set (h1 := <[pr := Mem.Strings required]> h).
  assert (Hsub1 : h ⊆ h1) by (apply insert_subseteq, Hpr).
  assert (Hsteps1 : Mem.stepsOf h1 (Mem.Steps f) = Returns steps).
  { destruct (Mem.Steps f) as [p|]; cbn [Mem.stepsOf] in *; [|exact Hsteps].
    unfold Mem.readSteps in *.
    destruct (h !! p) as [[| |l| |]|] eqn:Hp; try discriminate.
    rewrite (lookup_weaken _ _ _ _ Hp Hsub1). exact Hsteps. }
  rewrite Hsteps1. cbn [mbind Outcome_bind].
  set (ps := fresh (dom h1)).
  assert (Hps1 : h1 !! ps = None) by apply fresh_none. clearbody ps.
  set (h2 := <[ps := Mem.StepArray steps]> h1).
  assert (Hsub2 : h ⊆ h2).
  { etrans; [exact Hsub1|]. apply insert_subseteq, Hps1. }
  assert (Hps : h !! ps = None) by exact (subseteq_none _ _ _ Hsub1 Hps1).
  destruct (copySteps_fresh h ps (length steps) 0 h2 steps Hsub2 Hps
              (lookup_insert_eq _ _ _) eq_refl)
    as (h0 & steps' & -> & Hps' & _ & _ & Hdiff).
  { intros j s _ Hs. rewrite Forall_forall in Hok. apply Hok.
    eapply list_elem_of_lookup_2, Hs. }
  cbn [mbind Outcome_bind]. intros [= <- <-]. exists steps'.
  split; [cbn [Mem.stepsOf Mem.Steps]; unfold Mem.readSteps; rewrite Hps'; reflexivity|].
  intros i j s s' Hij Hs Hs'.
  destruct (Nat.lt_total i j) as [Hlt|[Heq|Hgt]]; [|contradiction|].
  - apply (Hdiff i j); [lia|assumption..].
  - intros Heq. symmetry in Heq. revert Heq. apply (Hdiff j i); [lia|assumption..].
Qed.

End CloningUnshares.

(** ** Errors and the retry of [Extract], errors of [Execute] *)

Section ExtractClaims.
Context `{RegexpLib}.

(** The error that the check leaves on a candidate that violates a
    constraint. *)
Lemma checkConditions_violates (e : Extractable) (bet : string) (err : error) :
  violates e bet err -> snd (checkConditions e bet) = Some err.
Proof.
  intros Hv.
  destruct (checkConditions_cases e bet)
    as [(HL & ->)|[(HL & HS & ->)|[(HL & HS & He & ->)|(HL & HS & Hne & ->)]]];
    cbn [snd];
    destruct Hv as [(VL & ->)|[(VL & VS & ->)|(VL & VS & (Vne & Vno) & ->)]];
    try contradiction; try reflexivity.
  rewrite Vno. reflexivity.
Qed.

(** C3: when no occurrence is found at the index [i], [Extract] returns
    [(Name, "", nil)] if [IgnoreNotFound] and the error "not found"
    otherwise.  When the candidate found at [i] violates a constraint (it
    is too long, or else too short, or else it does not match the
    pattern), [Extract] goes on at the index [i+1] if [Iterate]; otherwise
    it returns [(Name, "", nil)] if [IgnoreNotFound], and the error of the
    constraint that is violated if not.  A candidate that violates no
    constraint is none of these cases: it is the result, or the body of
    the nested rule.  ([Extract] is its loop from the index 0 on.) *)
Theorem Extract_not_found_and_violation again (e : Extractable) (body : string) (i : nat) :
  (forall str,
     stringBetweenN body (AfterThis e) (BeforeThis e) i = Returns (false, str) ->
     ExtractFrom again e body i =
       Returns (Name e, "",
                if IgnoreNotFound e then None else Some (errorString "not found")))
  /\ (forall bet err,
        stringBetweenN body (AfterThis e) (BeforeThis e) i = Returns (true, bet) ->
        violates e bet err ->
        (Iterate e = true ->
         ExtractFrom again e body i = ExtractFrom again e body (S i))
        /\ (Iterate e = false ->
            ExtractFrom again e body i =
              Returns (Name e, "", if IgnoreNotFound e then None else Some err)))
  /\ (forall bet,
        stringBetweenN body (AfterThis e) (BeforeThis e) i = Returns (true, bet) ->
        ~ tooLong e bet -> ~ tooShort e bet -> ~ noMatch e bet ->
        ExtractFrom again e body i =
          match again with
          | Some extractAgain => extractAgain bet
          | None => Returns (Name e, bet, None)
          end)
  /\ (forall v, Extract e body v = ExtractFrom (againOf e v) e body 0).
Proof.
  split; [|split; [|split]]; [| | |apply Extract_unfold].
  - intros str Hsb. rewrite ExtractFrom_step, Hsb. reflexivity.
  - intros bet err Hsb Hv. apply checkConditions_violates in Hv.
    rewrite (ExtractFrom_step again e body i), Hsb. cbn [mbind Outcome_bind negb].
    rewrite Hv. split; intros ->; reflexivity.
  - intros bet Hsb HL HS HM.
    assert (Hc : snd (checkConditions e bet) = None).
    { apply checkConditions_conforms. split; [exact HL|]. split; assumption. }
    rewrite (ExtractFrom_step again e body i), Hsb. cbn [mbind Outcome_bind negb].
    rewrite Hc. reflexivity.
Qed.

End ExtractClaims.

Section FlowClaims.
Context `{Libs}.







End FlowClaims.

(** * The theorems at concrete inputs *)

(** C2 at concrete rules, on the library [Re.lib]: a candidate that is too
    long and too short for the rule is reported as too long; one that is
    too short and does not match, as too short; one within the bounds that
    does not match, as not matched. *)
Lemma Extract_constraint_order_witness :
  @Extract Re.lib (rule 3 8 "[0-9]+") "-[abcdef]" None =
    Returns ("tok", "", Some (errorString "max length of 3 reached: abcdef"))
  /\ @Extract Re.lib (rule (-1) 8 "[0-9]+") "-[abcdef]" None =
    Returns ("tok", "", Some (errorString "min length of 8 reached: abcdef"))
  /\ @Extract Re.lib (rule 10 3 "[0-9]+") "-[abcdef]" None =
    Returns ("tok", "", Some (errorString "regex '^[0-9]+$' not matched: abcdef"))
  /\ snd (@checkConditions Re.lib (rule 10 3 "[a-z]+") "abcdef") = None.
Proof.
  split; [|split; [|split]].
  - destruct (@Extract_constraint_order Re.lib (rule 3 8 "[0-9]+") "abcdef")
      as (Hmax & _ & _ & _ & Hret & Hex).
    rewrite Hex.
    apply (Hret None "-[abcdef]" 0%nat (rule 3 8 "[0-9]+")
             (maxLengthError (rule 3 8 "[0-9]+") "abcdef"));
      [reflexivity | apply Hmax; split; [discriminate | reflexivity]
      | reflexivity | reflexivity].
  - destruct (@Extract_constraint_order Re.lib (rule (-1) 8 "[0-9]+") "abcdef")
      as (_ & Hmin & _ & _ & Hret & Hex).
    rewrite Hex.
    apply (Hret None "-[abcdef]" 0%nat (rule (-1) 8 "[0-9]+")
             (minLengthError (rule (-1) 8 "[0-9]+") "abcdef"));
      [reflexivity
      | apply Hmin; [intros [Hne _]; apply Hne; reflexivity
                    | split; [discriminate | reflexivity]]
      | reflexivity | reflexivity].
  - destruct (@Extract_constraint_order Re.lib (rule 10 3 "[0-9]+") "abcdef")
      as (_ & _ & Hre & _ & Hret & Hex).
    rewrite Hex.
    apply (Hret None "-[abcdef]" 0%nat
             (setMatchRegexp (rule 10 3 "[0-9]+") (anchored "[0-9]+"))
             (regexError (rule 10 3 "[0-9]+") "abcdef"));
      [reflexivity
      | apply Hre; [intros [_ Hlt]; discriminate Hlt
                   | intros [_ Hlt]; discriminate Hlt
                   | split; [discriminate | reflexivity]]
      | reflexivity | reflexivity].
  - destruct (@Extract_constraint_order Re.lib (rule 10 3 "[a-z]+") "abcdef")
      as (_ & _ & _ & Hok & _).
    apply Hok; [intros [_ Hlt]; discriminate Hlt
               | intros [_ Hlt]; discriminate Hlt
               | intros [_ Hno]; discriminate Hno].
Defined.

(** C3 at concrete inputs: nothing found, with and without
    [IgnoreNotFound]; a candidate that is too long with [Iterate], which
    goes on at the next index; a candidate that is too long, one that is
    too short and one that the pattern does not match without [Iterate],
    each with the error of its constraint; and a candidate that is too
    short with [IgnoreNotFound]. *)
Lemma Extract_not_found_and_violation_witness :
  @Extract Re.lib (setIgnoreNotFound (rule (-1) (-1) "") true) "no match" None =
    Returns ("tok", "", None)
  /\ @Extract Re.lib (rule (-1) (-1) "") "no match" None =
    Returns ("tok", "", Some (errorString "not found"))
  /\ @Extract Re.lib (setIterate (rule 3 (-1) "") true) "-[abcdef] -[xy]" None =
     @ExtractFrom Re.lib None (setIterate (rule 3 (-1) "") true) "-[abcdef] -[xy]" 1
  /\ @Extract Re.lib (rule 3 (-1) "") "-[abcdef] -[xy]" None =
    Returns ("tok", "", Some (errorString "max length of 3 reached: abcdef"))
  /\ @Extract Re.lib (rule (-1) 8 "") "-[abcdef] -[xy]" None =
    Returns ("tok", "", Some (errorString "min length of 8 reached: abcdef"))
  /\ @Extract Re.lib (rule (-1) (-1) "[0-9]+") "-[abcdef] -[xy]" None =
    Returns ("tok", "", Some (errorString "regex '^[0-9]+$' not matched: abcdef"))
  /\ @Extract Re.lib (setIgnoreNotFound (rule (-1) 8 "") true) "-[abcdef] -[xy]" None =
    Returns ("tok", "", None).
Proof.
  split; [|split; [|split; [|split; [|split; [|split]]]]].
  - destruct (@Extract_not_found_and_violation Re.lib None
                (setIgnoreNotFound (rule (-1) (-1) "") true) "no match" 0%nat)
      as (Hnone & _ & _ & Hex).
    rewrite Hex. apply (Hnone ""). reflexivity.
  - destruct (@Extract_not_found_and_violation Re.lib None
                (rule (-1) (-1) "") "no match" 0%nat) as (Hnone & _ & _ & Hex).
    rewrite Hex. apply (Hnone ""). reflexivity.
  - destruct (@Extract_not_found_and_violation Re.lib None
                (setIterate (rule 3 (-1) "") true) "-[abcdef] -[xy]" 0%nat)
      as (_ & Hviol & _ & Hex).
    rewrite Hex.
    apply (Hviol "abcdef" (maxLengthError (rule 3 (-1) "") "abcdef"));
      [reflexivity| |reflexivity].
    left. split; [split; [discriminate|reflexivity]|reflexivity].
  - destruct (@Extract_not_found_and_violation Re.lib None
                (rule 3 (-1) "") "-[abcdef] -[xy]" 0%nat) as (_ & Hviol & _ & Hex).
    rewrite Hex.
    apply (Hviol "abcdef" (maxLengthError (rule 3 (-1) "") "abcdef"));
      [reflexivity| |reflexivity].
    left. split; [split; [discriminate|reflexivity]|reflexivity].
  - destruct (@Extract_not_found_and_violation Re.lib None
                (rule (-1) 8 "") "-[abcdef] -[xy]" 0%nat) as (_ & Hviol & _ & Hex).
    rewrite Hex.
    apply (Hviol "abcdef" (minLengthError (rule (-1) 8 "") "abcdef"));
      [reflexivity| |reflexivity].
    right; left. split; [intros [Hne _]; apply Hne; reflexivity|].
    split; [split; [discriminate|reflexivity]|reflexivity].
  - destruct (@Extract_not_found_and_violation Re.lib None
                (rule (-1) (-1) "[0-9]+") "-[abcdef] -[xy]" 0%nat) as (_ & Hviol & _ & Hex).
    rewrite Hex.
    apply (Hviol "abcdef" (regexError (rule (-1) (-1) "[0-9]+") "abcdef"));
      [reflexivity| |reflexivity].
    right; right. split; [intros [Hne _]; apply Hne; reflexivity|].
    split; [intros [Hne _]; apply Hne; reflexivity|].
    split; [split; [discriminate|reflexivity]|reflexivity].
  - destruct (@Extract_not_found_and_violation Re.lib None
                (setIgnoreNotFound (rule (-1) 8 "") true) "-[abcdef] -[xy]" 0%nat)
      as (_ & Hviol & _ & Hex).
    rewrite Hex.
    apply (Hviol "abcdef" (minLengthError (rule (-1) 8 "") "abcdef"));
      [reflexivity| |reflexivity].
    right; left. split; [intros [Hne _]; apply Hne; reflexivity|].
    split; [split; [discriminate|reflexivity]|reflexivity].
Defined.

(** C9 at a concrete rule: the pattern ["("] does not compile, so
    [regexp.Match] returns [false] with the error of the compiler.  The
    candidate ["abc"] is within the bounds, and [Extract] neither returns
    it nor returns the error of the compiler, which the assignment
    [err = err2] of line 91 never takes up: it returns the error of a
    pattern that did not match. *)
Lemma Extract_invalid_pattern_loses_error :
  @regexp_Match Re.lib (anchored "(") "abc" =
    (false, Some (LibError "error parsing regexp: missing closing ): `^($`"))
  /\ @Extract Re.lib (rule (-1) (-1) "(") "-[abc]" None =
       Returns ("tok", "", Some (errorString "regex '^($' not matched: abc"))
  /\ @Extract Re.lib (rule (-1) (-1) "(") "-[abc]" None <> Returns ("tok", "abc", None)
  /\ @Extract Re.lib (rule (-1) (-1) "(") "-[abc]" None <>
       Returns ("tok", "",
                Some (LibError "error parsing regexp: missing closing ): `^($`")).
Proof. repeat split; discriminate. Qed.

(** C9 at that rule, from the theorem. *)
Lemma Extract_invalid_pattern_is_no_match_witness :
  @Extract Re.lib (rule (-1) (-1) "(") "-[abc]" None =
    Returns ("tok", "", Some (errorString "regex '^($' not matched: abc")).
Proof.
  destruct (@Extract_invalid_pattern_is_no_match Re.lib (rule (-1) (-1) "(") "abc"
              (LibError "error parsing regexp: missing closing ): `^($`")
              ltac:(intros [Hne _]; apply Hne; reflexivity)
              ltac:(intros [Hne _]; apply Hne; reflexivity)
              ltac:(discriminate)
              ltac:(reflexivity)) as (_ & Hfrom & Hex).
  rewrite Hex. apply (Hfrom None "-[abc]" 0%nat). reflexivity.
Defined.

(** The test [TestExtractable_Extract] of the repository. *)
Lemma TestExtractable_Extract :
  @Extract Re.lib testRule testBody2 None = Returns ("some string", "asdfff", None).
Proof. reflexivity. Qed.

Section Examples.
#[local] Existing Instance Sim.libs.

(** C4, the claim refuted.  A form is an accepted body; the key and the
    value of this one resolve to themselves, and [ReplaceInBody] returns
    no error.  Neither does it for a text body when the step has no input
    keys. *)
Lemma ReplaceInBody_same_output_counterexample :
  replaceInString Ex.sameVals "k" = inl "k"
  /\ replaceInString Ex.sameVals "v" = inl "v"
  /\ ReplaceInBody Ex.formStep Ex.sameVals 0 =
       Returns (setRequest Ex.formStep (Ex.post (BytesBody "k=v")), None)
  /\ ReplaceInBody Ex.textStep Ex.sameVals 0 = Returns (Ex.textStep, None).
Proof. repeat split. Qed.

(** The amended C4 at a concrete step: the body [{{.x}}] with the key [x]
    standing for the text [{{.x}}] resolves to itself, and that is the
    explicit error. *)
Lemma ReplaceInBody_same_output_witness :
  ReplaceInBody Ex.sameStep Ex.sameVals 0 =
    Returns (Ex.sameStep,
             Some (errorString
               "Step 0.'same' didn't replace anything in request, but should have")).
Proof.
  apply (proj1 (ReplaceInBody_same_output Ex.sameStep Ex.sameVals 0) "{{.x}}").
  - discriminate.
  - left. reflexivity.
  - eexists. split; reflexivity.
Defined.

(** C8 on a flow: one step with a text body and no input keys.  [Execute]
    panics in [Do], and no request went to the client. *)
Lemma Execute_text_body_panics :
  snd (Execute Ex.textFlow None Ex.server) = Panics
  /\ sent (fst (Execute Ex.textFlow None Ex.server)) = [].
Proof. split; reflexivity. Qed.

(** C5 at a concrete flow: the required value [user] is empty. *)
Lemma Execute_missing_required_value_witness :
  exists k pre post,
    RequiredValues Ex.loginFlow = pre ++ k :: post
    /\ absentOrEmpty Ex.nobody k
    /\ (forall k', In k' pre -> ~ absentOrEmpty Ex.nobody k')
    /\ Execute Ex.loginFlow Ex.nobody Ex.server =
         (mkExec Ex.loginFlow Ex.server [], Returns (Some (MissingValueError "" k)))
    /\ Error (MissingValueError "" k) = "Missing or empty key value: " +:+ k.
Proof.
  apply (Execute_missing_required_value Ex.loginFlow Ex.nobody Ex.server "user").
  - left. reflexivity.
  - right. reflexivity.
Defined.


(** A header that the template library cannot parse: its error comes
    back as the library made it, with the name of the step, which is the
    name of the template, and without the index. *)
Lemma Execute_header_template_error :
  snd (Execute
         (mkFlow [] None
            [mkStep "login"
               (mkRequest "http://host/" "GET" [("X-Token", ["{{.user"])] NilBody false)
               None ["user"] [] None]
            None)
         Ex.bob Ex.server) =
    Returns (Some (LibError "template: login:1: unclosed action")).
Proof. reflexivity. Qed.


(** The run that cannot reach the server, spelled out: the error is the
    one that [Client.Do] returned for the request of the first step, and
    it does not name the step. *)
Lemma Execute_transport_error_is_of_the_run :
  libraryErrorAt tt Ex.login (ExMore.start []) (fst (Execute Ex.loginFlow Ex.bob []))
    (LibError "dial tcp: connection refused")
  /\ ~ namesStep 0 (Step_Name Ex.login) (LibError "dial tcp: connection refused").
Proof.
  split.
  - right. right. exists "http://host/login".
    split; [eexists; split; reflexivity|]. right.
    eexists _, _. split; [reflexivity|]. split; [reflexivity|]. split; [reflexivity|].
    split; reflexivity.
  - intros [rest Hn]. vm_compute in Hn. discriminate Hn.
Qed.

(** C10 at a concrete run: the second step fails, and the token that the
    first step extracted is in the store at the end, with the user. *)
Lemma Execute_store_grows_witness :
  snd (Execute Ex.loginFlow Ex.bob Ex.server) =
    Returns (Some (errorString "Step 1.'home' unexpected status"))
  /\ {[ "user"; "token" ]} ⊆ storeKeys (Values (flow (fst (Execute Ex.loginFlow Ex.bob Ex.server)))).
Proof.
  split; [reflexivity|].
  pose (st0 := mkExec (setCookieJar (setValues Ex.loginFlow Ex.bob) (Some tt)) Ex.server []).
  pose (st1 := fst (runSteps tt 0 [Ex.login] st0)).
  destruct (Execute_store_grows Ex.loginFlow Ex.bob Ex.server tt st0 eq_refl)
    as [_ Hall].
  destruct (Hall [Ex.login] [Ex.home] st1 eq_refl eq_refl) as (_ & _ & _ & Hsub).
  etrans; [|exact Hsub].
  intros k Hk. apply elem_of_dom.
  apply elem_of_union in Hk as [Hk|Hk]; apply elem_of_singleton in Hk as ->;
    eexists; reflexivity.
Defined.

(** C7, the claim refuted: the header of the step holds two values for
    [Accept], the header of the step of the copy holds the first one only;
    the form holds two values for [k], the form of the copy the last one
    only.  The copy of the header and of the body is not a deep copy. *)
Lemma CompleteCopy_counterexample :
  stepHeader ExMem.h0 ExMem.f0 0 = Some [("Accept", ["text/html"; "text/plain"])]
  /\ stepForm ExMem.h0 ExMem.f0 0 = Some [("k", ["1"; "2"]); ("j", ["x"])]
  /\ match Mem.CompleteCopy ExMem.f0 ExMem.h0 with
     | Returns (f', h') => (stepHeader h' f' 0, stepForm h' f' 0)
     | _ => (None, None)
     end = (Some [("Accept", ["text/html"])], Some [("k", ["2"]); ("j", ["x"])]).
Proof. repeat split. Qed.

(** The amended C7 at that flow. *)
Lemma CompleteCopy_copies_witness :
  exists f' h' required steps steps' pr ps,
    Mem.CompleteCopy ExMem.f0 ExMem.h0 = Returns (f', h')
    /\ ExMem.h0 ⊆ h'
    /\ Mem.stringsOf ExMem.h0 (Mem.RequiredValues ExMem.f0) = Returns required
    /\ Mem.stepsOf ExMem.h0 (Mem.Steps ExMem.f0) = Returns steps
    /\ f' = {| Mem.RequiredValues := Some pr; Mem.Values := None;
               Mem.Steps := Some ps; Mem.CookieJar := None |}
    /\ ExMem.h0 !! pr = None /\ h' !! pr = Some (Mem.Strings required)
    /\ ExMem.h0 !! ps = None /\ h' !! ps = Some (Mem.StepArray steps')
    /\ Forall2 (stepCopied ExMem.h0 h') steps steps'.
Proof.
  apply CompleteCopy_copies. split.
  - eexists. reflexivity.
  - eexists. split; [reflexivity|].
    constructor; [|constructor]. split.
    + eexists. reflexivity.
    + eexists. split; [reflexivity|]. split.
      * apply (bool_decide_unpack _). vm_compute. exact I.
      * repeat constructor; discriminate.
Defined.

End Examples.

(** * The further properties at concrete inputs *)

(** X2 at a concrete body: the occurrence 1 of a body of nine bytes. *)
Lemma stringBetweenN_found_bound_witness :
  stringBetweenN "-[a] -[b]" "-[" "]" 1 = Returns (true, "b")
  /\ Z.of_nat 1 * (len "-[" + 1) <= len "-[a] -[b]".
Proof.
  split; [reflexivity|].
  apply (stringBetweenN_found_bound "-[a] -[b]" "-[" "]" 1 "b"). reflexivity.
Defined.

(** X3 at a concrete body: the only [-[] ends the body. *)
Lemma stringBetweenN_slice_out_of_range_witness :
  stringBetweenN "abc-[" "-[" "]" 3 = Panics.
Proof.
  apply (stringBetweenN_slice_out_of_range "abc-[" "-[" "]" 2);
    [vm_compute; discriminate|reflexivity].
Defined.

(** X4 at a concrete body: nothing is found at the index 1, and the
    index 2 panics. *)
Lemma stringBetweenN_not_found_is_final_witness :
  stringBetweenN "-[a] -[" "-[" "]" 1 = Returns (false, "")
  /\ (stringBetweenN "-[a] -[" "-[" "]" 2 = Panics
      \/ exists s, stringBetweenN "-[a] -[" "-[" "]" 2 = Returns (false, s)).
Proof.
  split; [reflexivity|].
  apply (stringBetweenN_not_found_is_final "-[a] -[" "-[" "]" 1 2 "");
    [reflexivity|lia].
Defined.

Lemma atLeastThree_first :
  @firstConforming Re.lib ExMore.atLeastThree "-[ab] -[abcd]" 1 "abcd".
Proof.
  split; [reflexivity|]. split.
  - split; [intros [Hc _]; apply Hc; reflexivity|].
    split; [intros [_ Hc]; discriminate Hc|intros [Hc _]; apply Hc; reflexivity].
  - intros j Hj. assert (j = 0%nat) as -> by lia. exists "ab".
    split; [reflexivity|]. intros (_ & Hs & _). apply Hs.
    split; [discriminate|reflexivity].
Qed.

(** X5 at concrete rules: the second candidate is the first that has
    three bytes; and a nested rule works on the candidate of its parent. *)
Lemma Extract_first_conforming_witness :
  @Extract Re.lib ExMore.atLeastThree "-[ab] -[abcd]" None = Returns ("tok", "abcd", None)
  /\ @Extract Re.lib ExMore.outer "-[x<y>z] <w>" None =
       @Extract Re.lib ExMore.inner "x<y>z" None.
Proof.
  split.
  - apply (@Extract_first_conforming Re.lib ExMore.atLeastThree "-[ab] -[abcd]" None 1
             "abcd" atLeastThree_first). right. reflexivity.
  - apply (@Extract_first_conforming Re.lib ExMore.outer "-[x<y>z] <w>" None 0 "x<y>z");
      [|left; reflexivity].
    split; [reflexivity|]. split; [|intros j Hj; lia].
    split; [intros [Hc _]; apply Hc; reflexivity|].
    split; intros [Hc _]; apply Hc; reflexivity.
Defined.

(** X6 at a concrete rule. *)
Lemma Extract_success_is_first_conforming_witness :
  "tok" = Name ExMore.atLeastThree
  /\ ((IgnoreNotFound ExMore.atLeastThree = true /\ "abcd" = "")
      \/ exists i, @firstConforming Re.lib ExMore.atLeastThree "-[ab] -[abcd]" i "abcd"
                   /\ (i = 0%nat \/ Iterate ExMore.atLeastThree = true)).
Proof.
  apply (@Extract_success_is_first_conforming Re.lib ExMore.atLeastThree
           "-[ab] -[abcd]" None); reflexivity.
Defined.

(** X7 at a concrete rule with a nested rule: the nested rule finds
    nothing in the candidate, and the error comes under its name. *)
Lemma Extract_result_shape_witness :
  @Extract Re.lib ExMore.outer "-[xyz]" None =
    Returns ("inner", "", Some (errorString "not found"))
  /\ exists r, In r (chain ExMore.outer) /\ "inner" = Name r
               /\ (Some (errorString "not found") <> None ->
                   "" = "" /\ IgnoreNotFound r = false).
Proof.
  split; [reflexivity|].
  apply (@Extract_result_shape Re.lib ExMore.outer "-[xyz]" None). reflexivity.
Defined.

(** X9 at a concrete rule. *)
Lemma Extract_returns_without_Iterate_witness :
  exists r, @Extract Re.lib ExMore.outer "-[x<y>z]" None = Returns r.
Proof.
  apply (@Extract_returns_without_Iterate Re.lib). repeat constructor.
Defined.

Section MoreExamples.
#[local] Existing Instance Sim.libs.

(** X10 at concrete steps: a form whose key has no value, and a text
    without input keys. *)
Lemma SanityCheck_panics_iff_witness :
  SanityCheck ExMore.emptyValueStep 0 = Panics
  /\ SanityCheck Ex.textStep 0 = Returns None.
Proof.
  split.
  - apply (proj1 (SanityCheck_panics_iff ExMore.emptyValueStep 0)). left. reflexivity.
  - apply (proj2 (SanityCheck_panics_iff Ex.textStep 0)); [intros []|reflexivity].
Defined.

(** X11 at a concrete step. *)
Lemma ReplaceInBody_panics_only_after_SanityCheck_witness :
  ReplaceInBody ExMore.emptyValueStep Ex.sameVals 0 = Panics
  /\ SanityCheck ExMore.emptyValueStep 0 = Panics.
Proof.
  split; [reflexivity|].
  apply (ReplaceInBody_panics_only_after_SanityCheck ExMore.emptyValueStep Ex.sameVals 0 0).
  reflexivity.
Defined.

(** X12 at a concrete step: the text of the login resolves to bytes,
    and [Do] does not panic on them. *)
Lemma ReplaceInBody_then_Do_witness :
  ReplaceInBody Ex.login Ex.bob 0 =
    Returns (setRequest Ex.login (Ex.post (BytesBody "user=bob")), None)
  /\ (snd (Do (Ex.post (BytesBody "user=bob")) tt Ex.server) = Panics
      <-> unsendable Ex.login).
Proof.
  split; [reflexivity|].
  apply (@ReplaceInBody_then_Do Sim.libs Ex.login
           (setRequest Ex.login (Ex.post (BytesBody "user=bob"))) Ex.bob 0 tt Ex.server).
  reflexivity.
Defined.

(** X13 at a concrete step: of the two values of [Accept], the first is
    resolved and the second is dropped. *)
Lemma ReplaceInHeader_canonical_witness :
  Header (Step_Request (fst (ReplaceInHeader ExMore.headerStep ExMore.headerVals 0))) =
    [("Accept", ["text/html"]); ("X-Token", ["abc"])]
  /\ exists out,
       templateGives "head" (firstOr ["{{.a}}"; "text/plain"]) ExMore.headerVals out
       /\ mm_get (Header (Step_Request
                    (fst (ReplaceInHeader ExMore.headerStep ExMore.headerVals 0))))
            "Accept" = Some [out].
Proof.
  split; [reflexivity|].
  destruct (ReplaceInHeader_canonical ExMore.headerStep
              (fst (ReplaceInHeader ExMore.headerStep ExMore.headerVals 0))
              ExMore.headerVals 0) as (_ & _ & Hget).
  - apply (bool_decide_unpack _). vm_compute. exact I.
  - repeat (constructor; [reflexivity|]). constructor.
  - reflexivity.
  - apply (Hget "Accept" ["{{.a}}"; "text/plain"]). reflexivity.
Defined.

(** X15 at a concrete run: the login flow against a server that answers
    both requests with the status 200. *)
Lemma Execute_requests_witness :
  snd (Execute Ex.loginFlow Ex.bob ExMore.goodServer) = Returns None
  /\ map req_Method (sent (fst (Execute Ex.loginFlow Ex.bob ExMore.goodServer))) =
       ["POST"; "GET"]
  /\ (length (sent (fst (Execute Ex.loginFlow Ex.bob ExMore.goodServer)))
      <= length (Steps Ex.loginFlow))%nat
  /\ (@Returns (option error) None = Returns None ->
      length (sent (fst (Execute Ex.loginFlow Ex.bob ExMore.goodServer))) =
        length (Steps Ex.loginFlow)
      /\ forall i s, Steps Ex.loginFlow !! i = Some s ->
           exists s' req,
             Steps (flow (fst (Execute Ex.loginFlow Ex.bob ExMore.goodServer))) !! i = Some s'
             /\ sent (fst (Execute Ex.loginFlow Ex.bob ExMore.goodServer)) !! i = Some req
             /\ is_Some (Step_Response s')
             /\ req_Method req = Method (Step_Request s)).
Proof.
  split; [reflexivity|]. split; [reflexivity|].
  apply (Execute_requests Ex.loginFlow Ex.bob ExMore.goodServer). reflexivity.
Defined.

(** X16 at a concrete run: the hook of the second step turns the answer
    down, and the third step is not run. *)
Lemma runSteps_stops_at_failure_witness :
  runSteps tt 0 ([Ex.login] ++ Ex.home :: [ExMore.ping]) (ExMore.start Ex.server) =
    (fst (runStep tt 1 Ex.home (ExMore.afterLogin Ex.server)),
     Returns (Some (errorString "Step 1.'home' unexpected status")))
  /\ length (sent (fst (runStep tt 1 Ex.home (ExMore.afterLogin Ex.server)))) = 2%nat.
Proof.
  split; [|reflexivity].
  apply (@runSteps_stops_at_failure Sim.libs tt [Ex.login] [ExMore.ping] Ex.home 0
           (ExMore.start Ex.server) (ExMore.afterLogin Ex.server));
    [reflexivity|reflexivity|discriminate].
Defined.

(** X17 at a concrete run: the second step needs the key [csrf], which
    the login does not extract. *)
Lemma runSteps_missing_input_witness :
  exists k before after,
    KeysInput ExMore.needsCsrf = before ++ k :: after
    /\ absentOrEmpty (Values (flow (ExMore.afterLogin ExMore.goodServer))) k
    /\ (forall k', In k' before ->
          ~ absentOrEmpty (Values (flow (ExMore.afterLogin ExMore.goodServer))) k')
    /\ runSteps tt 0 ([Ex.login] ++ ExMore.needsCsrf :: [ExMore.ping])
         (ExMore.start ExMore.goodServer) =
       (ExMore.afterLogin ExMore.goodServer,
        Returns (Some (MissingValueError
          ("Step " +:+ pretty (Z.of_nat (0 + length [Ex.login])) +:+ ".'" +:+
           Step_Name ExMore.needsCsrf +:+ "' failed:") k))).
Proof.
  apply (@runSteps_missing_input Sim.libs tt [Ex.login] [ExMore.ping] ExMore.needsCsrf 0
           (ExMore.start ExMore.goodServer) (ExMore.afterLogin ExMore.goodServer) "csrf");
    [reflexivity|left; reflexivity|left; reflexivity].
Defined.

(** X18 at a concrete run: a flow that needs no value, with a [nil] map. *)
Lemma Execute_nil_values_witness :
  snd (Execute ExMore.pingFlow None ExMore.goodServer) = Returns None
  /\ RequiredValues ExMore.pingFlow = []
  /\ Forall (fun s => KeysInput s = [] /\ KeysOutput s = []) (Steps ExMore.pingFlow).
Proof.
  split; [reflexivity|].
  apply (Execute_nil_values ExMore.pingFlow ExMore.goodServer
           (fst (Execute ExMore.pingFlow None ExMore.goodServer))).
  reflexivity.
Defined.

(** The rule of the login step has no condition and does not iterate: it
    returns on every body, with the token or with "not found". *)
Lemma token_returns : extracterReturns (Extractable_Extracter Ex.token).
Proof.
  intros body v. cbn [Extractable_Extracter Extracter_Extract].
  rewrite Extract_unfold, ExtractFrom_step. cbn [stringBetweenN mbind Outcome_bind].
  destruct (StringBetween body (AfterThis Ex.token) (BeforeThis Ex.token)) as [[] bet];
    cbn [negb]; eexists; reflexivity.
Qed.

(** X19 at a concrete run that goes through every stage of both steps of
    the login flow: the body of the first step is counted and substituted,
    both requests go out, the token is extracted and the hook accepts the
    second answer. *)
Lemma Execute_returns_witness :
  (exists r, snd (Execute Ex.loginFlow Ex.bob ExMore.goodServer) = Returns r)
  /\ snd (Execute Ex.loginFlow Ex.bob ExMore.goodServer) = Returns None
  /\ map req_Method (sent (fst (Execute Ex.loginFlow Ex.bob ExMore.goodServer))) =
       ["POST"; "GET"]
  /\ Values (flow (fst (Execute Ex.loginFlow Ex.bob ExMore.goodServer))) =
       Some (<["token" := VString "abc"]> {[ "user" := VString "bob" ]}).
Proof.
  split; [|split; [reflexivity|split; [reflexivity|]]].
  - apply (Execute_returns Ex.loginFlow {[ "user" := VString "bob" ]} ExMore.goodServer).
    constructor; [|constructor; [|constructor]].
    + split; [intros []|]. split; [discriminate|].
      constructor; [exact token_returns|constructor].
    + split; [intros []|]. split; [intros []|constructor].
  - vm_compute. reflexivity.
Defined.

(** X20 at a concrete flow: the form of its second step has a key
    without a value. *)
Lemma CompleteCopy_panics_witness :
  Mem.CompleteCopy ExMore.f1 ExMore.h1 = Panics.
Proof.
  apply (CompleteCopy_panics ExMore.f1 ExMore.h1 [] [ExMore.plainStep] [] ExMore.formStep).
  - reflexivity.
  - reflexivity.
  - constructor; [|constructor]. split; [eexists; reflexivity|exact I].
  - eexists. reflexivity.
  - exists [("k", [])]. split; [reflexivity|]. left. reflexivity.
Defined.

(** X21 at a concrete flow: the login flow has no jar, and holds the one
    that [Execute] made after the run. *)
Lemma Execute_cookie_jar_witness :
  CookieJar Ex.loginFlow = None
  /\ CookieJar (flow (fst (Execute Ex.loginFlow Ex.bob Ex.server))) = Some tt.
Proof.
  split; [reflexivity|].
  apply (@Execute_cookie_jar Sim.libs Ex.loginFlow Ex.bob Ex.server).
  intros k [<-|[]] [Hc|Hc]; vm_compute in Hc; discriminate Hc.
Defined.

(** X22 at a concrete flow: its two steps share the header map at the
    location 3; the steps of the copy hold two maps. *)
Lemma CompleteCopy_unshares_headers_witness :
  Mem.stepsOf ExMore.h2 (Mem.Steps ExMore.f2) =
    Returns [ExMore.sharing "a"; ExMore.sharing "b"]
  /\ exists steps',
       Mem.stepsOf (snd ExMore.copy2) (Mem.Steps (fst ExMore.copy2)) = Returns steps'
       /\ forall i j s s', i <> j ->
            steps' !! i = Some s -> steps' !! j = Some s' ->
            Mem.Header (Mem.Step_Request s) <> Mem.Header (Mem.Step_Request s').
Proof.
  split; [reflexivity|].
  apply (CompleteCopy_unshares_headers ExMore.f2 (fst ExMore.copy2) ExMore.h2
           (snd ExMore.copy2)); [|reflexivity].
  split; [eexists; reflexivity|]. eexists. split; [reflexivity|].
  constructor; [|constructor; [|constructor]];
    (split; [eexists; reflexivity|exact I]).
Defined.

(** X23 at a concrete step: two extracters return the name [token]; the
    store holds the value of the second, and the user as before. *)
Lemma extractAll_lookup_witness :
  fst (extractAll 0 "login" "token=abc; id=7;" ExMore.twoTokens
         (Some {[ "user" := VString "bob" ]})) =
    Some {[ "user" := VString "bob"; "token" := VString "7" ]}
  /\ exists writes m',
       fst (extractAll 0 "login" "token=abc; id=7;" ExMore.twoTokens
              (Some {[ "user" := VString "bob" ]})) = Some m'
       /\ Forall2 (fun x w => fst w <> ""
                     /\ exists v, Extracter_Extract x "token=abc; id=7;" v =
                                    Returns (fst w, snd w, None))
            ExMore.twoTokens writes
       /\ forall k, m' !! k = match lastWrite writes k with
                              | Some s => Some (VString s)
                              | None => ({[ "user" := VString "bob" ]} : gmap string Value) !! k
                              end.
Proof.
  split; [vm_compute; reflexivity|].
  apply (extractAll_lookup 0 "login" "token=abc; id=7;" ExMore.twoTokens).
  reflexivity.
Defined.

End MoreExamples.
